(** * Mascot reactor and theme manager: a shallow embedding

    The development follows the two client scripts of the repository:

    - [static/mascot.js]: the hover-driven mascot with its score check,
      embedded in [Module Mascot] on top of the small DOM of [Module Dom];
    - the theme switcher script, embedded in [Module Theme].

    JavaScript built-ins the scripts rely on ([parseInt], string truthiness,
    [lastIndexOf]/[substring], [classList]) are in [Module Js].

    Strings are Rocq strings, read as the UTF-8 encoding of the JavaScript
    string.  Timers are kept in an explicit queue with a millisecond clock. *)

From Stdlib Require Import Ascii String Decimal DecimalString DecimalPos DecimalZ.
From stdpp Require Import numbers list strings gmap.

Local Open Scope string_scope.
Local Open Scope list_scope.
Local Open Scope nat_scope.

(* ===================================================================== *)
(** ** JavaScript built-ins                                               *)
(* ===================================================================== *)

Module Js.

Definition code (a : ascii) : Z := Z.of_nat (nat_of_ascii a).

(** [StrWhiteSpaceChar] of ECMAScript ([WhiteSpace] and [LineTerminator]),
    by the length of the UTF-8 encoding:
    TAB LF VT FF CR SP; U+00A0; U+1680, U+2000..U+200A, U+2028, U+2029,
    U+202F, U+205F, U+3000, U+FEFF. *)
Definition ws1 (a : ascii) : bool :=
  ((9 <=? code a) && (code a <=? 13) || (code a =? 32))%Z.

Definition ws2 (a b : ascii) : bool :=
  ((code a =? 194) && (code b =? 160))%Z.

Definition ws3 (a b c : ascii) : bool :=
  ((code a =? 225) && (code b =? 154) && (code c =? 128)
   || (code a =? 226) && (code b =? 128)
      && ((128 <=? code c) && (code c <=? 138)
          || (code c =? 168) || (code c =? 169) || (code c =? 175))
   || (code a =? 226) && (code b =? 129) && (code c =? 159)
   || (code a =? 227) && (code b =? 128) && (code c =? 128)
   || (code a =? 239) && (code b =? 187) && (code c =? 191))%Z.

(** Step 2 of [parseInt]: drop the leading white space. *)
Fixpoint trimStart (s : string) : string :=
  match s with
  | EmptyString => s
  | String a r1 =>
      if ws1 a then trimStart r1
      else match r1 with
           | EmptyString => s
           | String b r2 =>
               if ws2 a b then trimStart r2
               else match r2 with
                    | EmptyString => s
                    | String c r3 => if ws3 a b c then trimStart r3 else s
                    end
           end
  end.

(** Value of a character as a digit, up to radix 36. *)
Definition digit (a : ascii) : option Z :=
  let n := code a in
  if ((48 <=? n) && (n <=? 57))%Z then Some (n - 48)%Z
  else if ((97 <=? n) && (n <=? 122))%Z then Some (n - 87)%Z
  else if ((65 <=? n) && (n <=? 90))%Z then Some (n - 55)%Z
  else None.

Definition digit_in (R : Z) (a : ascii) : option Z :=
  match digit a with
  | Some d => if (d <? R)%Z then Some d else None
  | None => None
  end.

(** Value of the longest prefix of radix-[R] digits; [acc] is [None] while
    no digit has been read. *)
Fixpoint digits (R : Z) (s : string) (acc : option Z) : option Z :=
  match s with
  | EmptyString => acc
  | String a r =>
      match digit_in R a with
      | Some d => digits R r (Some (R * default 0%Z acc + d)%Z)
      | None => acc
      end
  end.

Definition strip_sign (s : string) : Z * string :=
  match s with
  | String "-" r => ((-1)%Z, r)
  | String "+" r => (1%Z, r)
  | _ => (1%Z, s)
  end.

Definition strip_prefix (s : string) : Z * string :=
  match s with
  | String "0" (String "x" r) => (16%Z, r)
  | String "0" (String "X" r) => (16%Z, r)
  | _ => (10%Z, s)
  end.

(** [parseInt(s)] with the radix left undefined, as the script calls it.
    [None] is NaN.  The mathematical integer stands for the Number: the
    script only compares it with 60, 50 and 70, and rounding to a double
    is monotone and leaves these three values fixed. *)
Definition parseInt (s : string) : option Z :=
  let '(sign, s1) := strip_sign (trimStart s) in
  let '(R, s2) := strip_prefix s1 in
  match digits R s2 None with
  | Some m => Some (sign * m)%Z
  | None => None
  end.

(** The decimal numeral of an integer, without leading zeros, with a
    minus sign when negative. *)
Definition decimal (z : Z) : string := NilZero.string_of_int (Z.to_int z).

(** [x < k] on Numbers: false when [x] is NaN. *)
Definition lt (x : option Z) (k : Z) : bool :=
  match x with
  | Some z => (z <? k)%Z
  | None => false
  end.

(** Truthiness of a string: every string but the empty one. *)
Definition truthy (s : string) : bool :=
  match s with
  | EmptyString => false
  | String _ _ => true
  end.

(** Truthiness of an element reference: every value but null. *)
Definition nonnull {A} (o : option A) : bool :=
  match o with
  | Some _ => true
  | None => false
  end.

(** [s.lastIndexOf(c)] for a one-character [c]; -1 when absent. *)
Fixpoint lastIndexOf (c : ascii) (s : string) : Z :=
  match s with
  | EmptyString => (-1)%Z
  | String a r =>
      let k := lastIndexOf c r in
      if (0 <=? k)%Z then (k + 1)%Z
      else if Ascii.eqb a c then 0%Z else (-1)%Z
  end.

(** [s.substring(0, n)]. *)
Definition substring0 (n : Z) (s : string) : string :=
  String.substring 0 (Z.to_nat n) s.

(** [DOMTokenList]: [add], [remove], [contains], [toggle]. *)
Definition classList_contains (c : string) (l : list string) : bool :=
  bool_decide (c ∈ l).

Definition classList_add (c : string) (l : list string) : list string :=
  if classList_contains c l then l else l ++ [c].

Definition classList_remove (c : string) (l : list string) : list string :=
  filter (λ x, x ≠ c) l.

Definition classList_toggle (c : string) (l : list string) : list string :=
  if classList_contains c l then classList_remove c l else l ++ [c].

End Js.

(* ===================================================================== *)
(** ** The document                                                       *)
(* ===================================================================== *)

Module Dom.

(** The selectors the mascot script hands to [querySelector] and
    [querySelectorAll]: a type selector ([a]), a class selector
    ([.nav-link]), a type selector with an attribute test
    ([input[type=text]]) and the descendant combinator
    ([.ats-score .score-value]). *)
Inductive selector :=
| Tag (t : string)
| Class (c : string)
| TagAttr (t a v : string)
| Desc (anc sub : selector).

#[global] Instance selector_eq_dec : EqDecision selector.
Proof. solve_decision. Defined.

Inductive event_type := mouseenter | mouseleave.

#[global] Instance event_type_eq_dec : EqDecision event_type.
Proof. solve_decision. Defined.

(** The two function expressions the script registers as listeners.  The
    mouseenter one closes over the [selector] of the enclosing
    [forEach] round. *)
Inductive handler :=
| OnMouseEnter (sel : selector)
| OnMouseLeave.

(** An element.  The document is the list of its elements in document
    order; [el_tag] is the element's local name and the keys of [el_attrs]
    are the names of its attributes other than [class], both in lower case
    as the HTML parser leaves them; the attribute values are as the page
    writes them; [el_parent] is the index of the parent element, and
    [el_text] is what [textContent] reads. *)
Record element := Element {
  el_tag : string;
  el_classes : list string;
  el_attrs : gmap string string;
  el_text : string;
  el_parent : option nat;
  el_listeners : list (event_type * handler);
}.

Abbreviation document := (list element).

(** Indices of the proper ancestors of an element whose parent is [p],
    nearest first. *)
Fixpoint ancestors (fuel : nat) (d : document) (p : option nat) : list nat :=
  match fuel, p with
  | S f, Some i =>
      match d !! i with
      | Some e => i :: ancestors f d (el_parent e)
      | None => []
      end
  | _, _ => []
  end.

(** ASCII lower case. *)
Definition lower_ascii (a : ascii) : ascii :=
  let n := nat_of_ascii a in
  if bool_decide (65 ≤ n ≤ 90) then ascii_of_nat (n + 32) else a.

Fixpoint lower (s : string) : string :=
  match s with
  | EmptyString => EmptyString
  | String a r => String (lower_ascii a) (lower r)
  end.

(** The attributes whose values a selector compares without regard to
    ASCII case in an HTML document. *)
Definition caseless_attributes : list string :=
  [ "accept"; "accept-charset"; "align"; "alink"; "axis"; "bgcolor";
    "charset"; "checked"; "clear"; "codetype"; "color"; "compact";
    "declare"; "defer"; "dir"; "direction"; "disabled"; "enctype"; "face";
    "frame"; "hreflang"; "http-equiv"; "lang"; "language"; "link"; "media";
    "method"; "multiple"; "nohref"; "noresize"; "noshade"; "nowrap";
    "readonly"; "rel"; "rev"; "rules"; "scope"; "scrolling"; "selected";
    "shape"; "target"; "text"; "type"; "valign"; "valuetype"; "vlink" ].

(** Whether the value [w] of the attribute [a] is the [v] that the
    selector [[a="v"]] asks for. *)
Definition value_matches (a v w : string) : bool :=
  if bool_decide (a ∈ caseless_attributes)
  then bool_decide (lower w = lower v)
  else bool_decide (w = v).

(** Whether an element matches a selector.  The script writes its type
    and attribute selectors in lower case, as the element's local name and
    attribute names are; a class is matched as it is written, as in a
    document that is not in quirks mode; the value of [type], as of every
    attribute of [caseless_attributes], is matched without regard to ASCII
    case. *)
Fixpoint matches (d : document) (sel : selector) (e : element) : bool :=
  match sel with
  | Tag t => bool_decide (el_tag e = t)
  | Class c => bool_decide (c ∈ el_classes e)
  | TagAttr t a v =>
      bool_decide (el_tag e = t)
      && match el_attrs e !! a with
         | Some w => value_matches a v w
         | None => false
         end
  | Desc anc sub =>
      matches d sub e
      && existsb (λ i, match d !! i with
                       | Some p => matches d anc p
                       | None => false
                       end)
                 (ancestors (length d) d (el_parent e))
  end.

Definition matches_at (d : document) (sel : selector) (i : nat) : bool :=
  match d !! i with
  | Some e => matches d sel e
  | None => false
  end.

(** [document.querySelectorAll(sel)]: the matching elements, in document
    order, by index. *)
Definition querySelectorAll (d : document) (sel : selector) : list nat :=
  filter (λ i, matches_at d sel i) (seq 0 (length d)).

(** [document.querySelector(sel)]: the first match, or null. *)
Definition querySelector (d : document) (sel : selector) : option nat :=
  head (querySelectorAll d sel).

(** [el.children.length]. *)
Definition children_length (d : document) (i : nat) : nat :=
  length (filter (λ e, el_parent e = Some i) d).

Definition textContent (d : document) (i : nat) : string :=
  match d !! i with
  | Some e => el_text e
  | None => ""
  end.

Definition hasAttribute (a : string) (e : element) : bool :=
  bool_decide (is_Some (el_attrs e !! a)).

Definition setAttribute (a v : string) (e : element) : element :=
  Element (el_tag e) (el_classes e) (<[a := v]> (el_attrs e)) (el_text e)
          (el_parent e) (el_listeners e).

Definition addEventListener (t : event_type) (h : handler) (e : element)
  : element :=
  Element (el_tag e) (el_classes e) (el_attrs e) (el_text e)
          (el_parent e) (el_listeners e ++ [(t, h)]).

End Dom.

(* ===================================================================== *)
(** ** static/mascot.js                                                   *)
(* ===================================================================== *)

Module Mascot.
Import Dom.

Inductive expression := standing | happy | thinking | sad.

#[global] Instance expression_eq_dec : EqDecision expression.
Proof. solve_decision. Defined.

Record config := Config { cfg_expression : expression; cfg_message : string }.

Definition defaultMessage : string :=
  "Hi! Hover over different sections to see me react!".

(** [expressionMap], in the order of its property definitions, which is the
    order [Object.keys] lists them in.  The keys are, in the script's
    spelling: button[type=submit], .btn-primary, .btn-success, .score-card,
    .strength-item, .skill-tag, input[type=text], input[type=email],
    input[type=file], select, textarea, .file-label, .upload-card,
    .feedback-section, .suggestion-item, a, .nav-link, .feature-item,
    .auth-card, .missing-skills, .error, input[type=password]. *)
Definition expressionMap : list (selector * config) :=
  [ (TagAttr "button" "type" "submit", Config happy "Ready? Let's do this! 💪");
    (Class "btn-primary", Config happy "Click here to start the magic! ✨");
    (Class "btn-success", Config happy "Great choice! Let's go! 🎉");
    (Class "score-card", Config happy "Let's see your amazing results! 📊");
    (Class "strength-item", Config happy "Wow! This is one of your strengths! 💪");
    (Class "skill-tag", Config happy "You have this skill! Awesome! 🌟");
    (TagAttr "input" "type" "text", Config thinking "Hmm... what should we enter here? 🤔");
    (TagAttr "input" "type" "email", Config thinking "Your email address goes here! 📧");
    (TagAttr "input" "type" "file", Config thinking "Select your resume file here! 📄");
    (Tag "select", Config thinking "Let me think... what role are you targeting? 🎯");
    (Tag "textarea", Config thinking "Time to write something thoughtful! ✍️");
    (Class "file-label", Config thinking "Pick a resume to analyze! 📂");
    (Class "upload-card", Config thinking "Upload your resume and let's see! 🔍");
    (Class "feedback-section", Config thinking "Let me think about these suggestions... 💭");
    (Class "suggestion-item", Config thinking "This is worth considering! 💡");
    (Tag "a", Config standing "Want to go there? I'll come with you! 👋");
    (Class "nav-link", Config standing "Let's navigate together! 🧭");
    (Class "feature-item", Config standing "Check out this cool feature! ⭐");
    (Class "auth-card", Config standing "Welcome! Let's get you started! 👋");
    (Class "missing-skills", Config sad "These skills are missing... let's add them! 😢");
    (Class "error", Config sad "Oh no! Something went wrong... 😔");
    (TagAttr "input" "type" "password", Config thinking "Keep your secret safe! 🔐") ].

(** [expressionMap[selector]]. *)
Fixpoint lookup_key (sel : selector) (l : list (selector * config))
  : option config :=
  match l with
  | [] => None
  | (k, v) :: r => if decide (k = sel) then Some v else lookup_key sel r
  end.

Definition expressionMap_get (sel : selector) : option config :=
  lookup_key sel expressionMap.

(** The functions handed to [setTimeout] and [setInterval]. *)
Inductive callback :=
| FadeTo (e : expression)   (* the arrow function of changeMascotExpression *)
| ResetMascot               (* resetMascot *)
| Unlock                    (* the arrow function of checkScores *)
| Startup                   (* the arrow function of init *)
| Rescan.                   (* setupHoverDetection, on the interval *)

#[global] Instance callback_eq_dec : EqDecision callback.
Proof. solve_decision. Defined.

Record timer := Timer {
  tm_id : nat;
  tm_due : Z;
  tm_cb : callback;
  tm_every : option Z;      (* the period, for setInterval *)
}.

Record state := State {
  now : Z;
  timers : list timer;
  next_id : nat;
  mascot_src : string;
  mascot_opacity : string;
  mascot_transition : string;
  bubble_text : string;
  bubble_color : string;
  currentExpression : expression;
  isLocked : bool;
  hoverTimeout : option nat;
  basePath : string;
  doc : document;
}.

Definition set_now (v : Z) (s : state) : state :=
  State v (timers s) (next_id s) (mascot_src s) (mascot_opacity s)
    (mascot_transition s) (bubble_text s) (bubble_color s)
    (currentExpression s) (isLocked s) (hoverTimeout s) (basePath s) (doc s).

Definition set_timers (v : list timer) (s : state) : state :=
  State (now s) v (next_id s) (mascot_src s) (mascot_opacity s)
    (mascot_transition s) (bubble_text s) (bubble_color s)
    (currentExpression s) (isLocked s) (hoverTimeout s) (basePath s) (doc s).

Definition set_next_id (v : nat) (s : state) : state :=
  State (now s) (timers s) v (mascot_src s) (mascot_opacity s)
    (mascot_transition s) (bubble_text s) (bubble_color s)
    (currentExpression s) (isLocked s) (hoverTimeout s) (basePath s) (doc s).

Definition set_mascot_src (v : string) (s : state) : state :=
  State (now s) (timers s) (next_id s) v (mascot_opacity s)
    (mascot_transition s) (bubble_text s) (bubble_color s)
    (currentExpression s) (isLocked s) (hoverTimeout s) (basePath s) (doc s).

Definition set_mascot_opacity (v : string) (s : state) : state :=
  State (now s) (timers s) (next_id s) (mascot_src s) v
    (mascot_transition s) (bubble_text s) (bubble_color s)
    (currentExpression s) (isLocked s) (hoverTimeout s) (basePath s) (doc s).

Definition set_mascot_transition (v : string) (s : state) : state :=
  State (now s) (timers s) (next_id s) (mascot_src s) (mascot_opacity s)
    v (bubble_text s) (bubble_color s)
    (currentExpression s) (isLocked s) (hoverTimeout s) (basePath s) (doc s).

Definition set_bubble_text (v : string) (s : state) : state :=
  State (now s) (timers s) (next_id s) (mascot_src s) (mascot_opacity s)
    (mascot_transition s) v (bubble_color s)
    (currentExpression s) (isLocked s) (hoverTimeout s) (basePath s) (doc s).

Definition set_bubble_color (v : string) (s : state) : state :=
  State (now s) (timers s) (next_id s) (mascot_src s) (mascot_opacity s)
    (mascot_transition s) (bubble_text s) v
    (currentExpression s) (isLocked s) (hoverTimeout s) (basePath s) (doc s).

Definition set_currentExpression (v : expression) (s : state) : state :=
  State (now s) (timers s) (next_id s) (mascot_src s) (mascot_opacity s)
    (mascot_transition s) (bubble_text s) (bubble_color s)
    v (isLocked s) (hoverTimeout s) (basePath s) (doc s).

Definition set_isLocked (v : bool) (s : state) : state :=
  State (now s) (timers s) (next_id s) (mascot_src s) (mascot_opacity s)
    (mascot_transition s) (bubble_text s) (bubble_color s)
    (currentExpression s) v (hoverTimeout s) (basePath s) (doc s).

Definition set_hoverTimeout (v : option nat) (s : state) : state :=
  State (now s) (timers s) (next_id s) (mascot_src s) (mascot_opacity s)
    (mascot_transition s) (bubble_text s) (bubble_color s)
    (currentExpression s) (isLocked s) v (basePath s) (doc s).

Definition set_doc (v : document) (s : state) : state :=
  State (now s) (timers s) (next_id s) (mascot_src s) (mascot_opacity s)
    (mascot_transition s) (bubble_text s) (bubble_color s)
    (currentExpression s) (isLocked s) (hoverTimeout s) (basePath s) v.

(** *** Timers *)

(** [setTimeout(cb, delay)]: the handle and the new state. *)
Definition setTimeout (cb : callback) (delay : Z) (s : state) : nat * state :=
  (next_id s,
   set_next_id (S (next_id s))
     (set_timers (timers s ++ [Timer (next_id s) (now s + delay) cb None]) s)).

(** [setInterval(cb, period)]. *)
Definition setInterval (cb : callback) (period : Z) (s : state) : nat * state :=
  (next_id s,
   set_next_id (S (next_id s))
     (set_timers
        (timers s ++ [Timer (next_id s) (now s + period) cb (Some period)]) s)).

Definition cancel (id : nat) (l : list timer) : list timer :=
  filter (λ t, tm_id t ≠ id) l.

(** [clearTimeout(h)]; [None] is the initial null, which clears nothing. *)
Definition clearTimeout (h : option nat) (s : state) : state :=
  match h with
  | Some id => set_timers (cancel id (timers s)) s
  | None => s
  end.

(** *** The script's functions *)

(** The [expressions] table. *)
Definition expressions (base : string) (e : expression) : string :=
  match e with
  | standing => (base ++ "fox_standing.png")%string
  | happy => (base ++ "fox_happy.png")%string
  | thinking => (base ++ "fox_thinking.png")%string
  | sad => (base ++ "fox_sad.png")%string
  end.

Definition changeMascotExpression (e : expression) (message : string)
    (s : state) : state :=
  if isLocked s then s
  else
    let s1 :=
      if decide (e ≠ currentExpression s)
      then snd (setTimeout (FadeTo e) 150 (set_mascot_opacity "0.5" s))
      else s in
    if Js.truthy message then set_bubble_text message s1 else s1.

Definition resetMascot (s : state) : state :=
  if isLocked s then s
  else changeMascotExpression standing defaultMessage s.

Definition ats_selector : selector := Desc (Class "ats-score") (Class "score-value").
Definition job_selector : selector := Desc (Class "job-match-score") (Class "score-value").
Definition grammar_selector : selector := Desc (Class "grammar-score") (Class "score-value").
Definition missing_selector : selector := Class "missing-skills".

Definition ats_message : string := "Oh no... your ATS score is low. Let's improve it! 😢".
Definition job_message : string := "Hmm... you're missing many required skills... 😔".
Definition grammar_message : string := "Let's fix these grammar issues together! 📝".
Definition missing_message : string := "You need to add these skills to match better... 🤔".
Definition happy_message : string := "Great job! Your scores look amazing! 🎉".

(** [parseInt(el.textContent) < k] for a score element that is there. *)
Definition below (d : document) (el : nat) (k : Z) : bool :=
  Js.lt (Js.parseInt (textContent d el)) k.

(** The first half of [checkScores]: the values of [lowScore] and
    [sadMessage] when the four tests are through. *)
Definition scoreDecision (d : document) : bool * string :=
  let atsScore := querySelector d ats_selector in
  let jobMatchScore := querySelector d job_selector in
  let grammarScore := querySelector d grammar_selector in
  let r0 := (false, "") in
  let r1 :=
    match atsScore with
    | Some el => if below d el 60 then (true, ats_message) else r0
    | None => r0
    end in
  let r2 :=
    match negb (fst r1), jobMatchScore with
    | true, Some el => if below d el 50 then (true, job_message) else r1
    | _, _ => r1
    end in
  let r3 :=
    match negb (fst r2), grammarScore with
    | true, Some el => if below d el 70 then (true, grammar_message) else r2
    | _, _ => r2
    end in
  let missingSkillsList := querySelector d missing_selector in
  match negb (fst r3), missingSkillsList with
  | true, Some el =>
      if bool_decide (5 < children_length d el) then (true, missing_message)
      else r3
  | _, _ => r3
  end.

Definition checkScores (s : state) : state :=
  let d := doc s in
  let atsScore := querySelector d ats_selector in
  let jobMatchScore := querySelector d job_selector in
  let '(lowScore, sadMessage) := scoreDecision d in
  if lowScore then
    let s1 := set_isLocked true s in
    let s2 := changeMascotExpression sad sadMessage s1 in
    let s3 := set_bubble_color "#dc2626" s2 in
    snd (setTimeout Unlock 5000 s3)
  else if Js.nonnull atsScore || Js.nonnull jobMatchScore then
    let s1 := changeMascotExpression happy happy_message s in
    snd (setTimeout ResetMascot 3000 s1)
  else s.

Definition marker : string := "data-mascot-listener".

(** The body of the inner [forEach] of [setupHoverDetection]. *)
Definition bind (sel : selector) (e : element) : element :=
  if hasAttribute marker e then e
  else
    addEventListener mouseleave OnMouseLeave
      (addEventListener mouseenter (OnMouseEnter sel)
         (setAttribute marker "true" e)).

(** One round of the outer [forEach]. *)
Definition bind_all (d : document) (sel : selector) : document :=
  foldl (λ d i, alter (bind sel) i d) d (querySelectorAll d sel).

Definition setupHoverDetection_doc (d : document) : document :=
  foldl bind_all d (fst <$> expressionMap).

Definition setupHoverDetection (s : state) : state :=
  set_doc (setupHoverDetection_doc (doc s)) s.

(** The listeners' bodies. *)
Definition run_handler (h : handler) (s : state) : state :=
  match h with
  | OnMouseEnter sel =>
      let s1 := clearTimeout (hoverTimeout s) s in
      match expressionMap_get sel with
      | Some cfg => changeMascotExpression (cfg_expression cfg) (cfg_message cfg) s1
      | None => s1
      end
  | OnMouseLeave =>
      let s1 := clearTimeout (hoverTimeout s) s in
      let '(h, s2) := setTimeout ResetMascot 300 s1 in
      set_hoverTimeout (Some h) s2
  end.

(** The timer callbacks' bodies. *)
Definition run_callback (cb : callback) (s : state) : state :=
  match cb with
  | FadeTo e =>
      set_mascot_opacity "1"
        (set_currentExpression e
           (set_mascot_src (expressions (basePath s) e) s))
  | ResetMascot => resetMascot s
  | Unlock => set_bubble_color "" (set_isLocked false s)
  | Startup => setupHoverDetection (checkScores s)
  | Rescan => setupHoverDetection s
  end.

(** *** The event loop *)

(** The pending timer that is due first; of two due together, the one
    that was scheduled first. *)
Fixpoint earliest (l : list timer) : option timer :=
  match l with
  | [] => None
  | t :: r =>
      match earliest r with
      | Some u => if (tm_due u <? tm_due t)%Z then Some u else Some t
      | None => Some t
      end
  end.

(** A timeout leaves the queue when it fires; an interval is armed again. *)
Definition rearm (tm : timer) (l : list timer) : list timer :=
  match tm_every tm with
  | Some p =>
      cancel (tm_id tm) l
        ++ [Timer (tm_id tm) (tm_due tm + p) (tm_cb tm) (Some p)]
  | None => cancel (tm_id tm) l
  end.

Definition fire (tm : timer) (s : state) : state :=
  run_callback (tm_cb tm)
    (set_timers (rearm tm (timers s))
       (set_now (Z.max (now s) (tm_due tm)) s)).

(** Let the clock run to [t], firing what falls due on the way.  [None]
    when [fuel] callbacks were not enough. *)
Fixpoint advance_to (fuel : nat) (t : Z) (s : state) : option state :=
  match fuel with
  | O => None
  | S f =>
      match earliest (timers s) with
      | Some tm =>
          if (tm_due tm <=? t)%Z then advance_to f t (fire tm s)
          else Some (set_now (Z.max (now s) t) s)
      | None => Some (set_now (Z.max (now s) t) s)
      end
  end.

(** A mouseenter or mouseleave event on element [i]: its listeners of that
    type run in the order they were added. *)
Definition listeners_for (ty : event_type) (e : element) : list handler :=
  snd <$> filter (λ l, fst l = ty) (el_listeners e).

Definition dispatch (ty : event_type) (i : nat) (s : state) : state :=
  match doc s !! i with
  | Some e => foldl (λ s h, run_handler h s) s (listeners_for ty e)
  | None => s
  end.

(** What happens to the page from outside: the pointer enters or leaves an
    element, or time passes. *)
Inductive input :=
| Hover (ty : event_type) (i : nat)
| Wait (ms : Z).

Fixpoint run (fuel : nat) (ins : list input) (s : state) : option state :=
  match ins with
  | [] => Some s
  | Hover ty i :: r => run fuel r (dispatch ty i s)
  | Wait ms :: r =>
      match advance_to fuel (now s + ms) s with
      | Some s1 => run fuel r s1
      | None => None
      end
  end.

(** One turn of the event loop, in any order the browser may take them. *)
Inductive step (s : state) : state → Prop :=
| step_fire tm : tm ∈ timers s → step s (fire tm s)
| step_hover ty i : step s (dispatch ty i s)
| step_idle t : step s (set_now (Z.max (now s) t) s).

(** *** Start of the script *)

Record img := Img {
  img_src : string;
  img_opacity : string;
  img_transition : string;
}.

Record caption := Caption { cap_text : string; cap_color : string }.

(** The page as the script finds it: the first element of class [mascot],
    the first of class [bubble-text], and the rest of the document. *)
Record page := Page {
  pg_mascot : option img;
  pg_bubble : option caption;
  pg_doc : document;
}.

Definition init (s : state) : state :=
  snd (setTimeout Startup 500
         (set_bubble_text defaultMessage
            (set_mascot_transition "opacity 0.2s ease" s))).

(** The body of the script; [None] is the early return when the image or
    the caption is missing. *)
Definition main (p : page) : option state :=
  match pg_mascot p, pg_bubble p with
  | Some m, Some b =>
      let base :=
        Js.substring0 (Js.lastIndexOf "/" (img_src m) + 1) (img_src m) in
      let s0 :=
        State 0 [] 1 (img_src m) (img_opacity m) (img_transition m)
          (cap_text b) (cap_color b) standing false None base (pg_doc p) in
      Some (snd (setInterval Rescan 3000 (init s0)))
  | _, _ => None
  end.

(** The page [p] after the script has started and the inputs [ins] have
    come in. *)
Definition after (ins : list input) (p : page) : option state :=
  match main p with
  | Some s0 => run 64 ins s0
  | None => None
  end.

End Mascot.

(* ===================================================================== *)
(** ** The theme switcher                                                 *)
(* ===================================================================== *)

Module Theme.

Record theme := MkTheme {
  name : string;
  icon : string;
  primary : string;
  secondary : string;
}.

Definition themes : list (string * theme) :=
  [ ("dark-purple", MkTheme "Dark Purple" "🟣" "#6366f1" "#8b5cf6");
    ("ocean", MkTheme "Ocean Blue" "🔵" "#06b6d4" "#14b8a6");
    ("sunset", MkTheme "Sunset Orange" "🟠" "#f97316" "#ec4899");
    ("forest", MkTheme "Forest Green" "🟢" "#10b981" "#059669");
    ("cyberpunk", MkTheme "Cyberpunk" "💗" "#ec4899" "#06b6d4") ].

(** An element of class [theme-option]: its [dataset.theme], its class
    list, and the theme key its click listener applies, if it has one.
    The markup inside the entry (swatches, icon, name) plays no part in
    the script's logic and is left out. *)
Record option_el := OptionEl {
  dataset_theme : option string;
  classList : list string;
  on_click : option string;
}.

Record page := Page {
  data_theme : option string;            (* documentElement's data-theme *)
  scrollBehavior : string;
  localStorage : gmap string string;
  theme_options : list option_el;        (* querySelectorAll('.theme-option') *)
  theme_selector : option (list string); (* class list of #theme-selector *)
  overlay : option (list string);        (* class list of the overlay *)
  overlay_timers : nat;                  (* pending 300ms removals *)
}.

Definition getSavedTheme (p : page) : string :=
  match localStorage p !! "theme" with
  | Some v => if Js.truthy v then v else "dark-purple"
  | None => "dark-purple"
  end.

(** The body of the [forEach] in [applyTheme]. *)
Definition mark (themeName : string) (o : option_el) : option_el :=
  let cl := Js.classList_remove "active" (classList o) in
  OptionEl (dataset_theme o)
    (if decide (dataset_theme o = Some themeName)
     then Js.classList_add "active" cl else cl)
    (on_click o).

Definition applyTheme (themeName : string) (p : page) : page :=
  Page (Some themeName) (scrollBehavior p)
    (<["theme" := themeName]> (localStorage p))
    (mark themeName <$> theme_options p)
    (theme_selector p)
    (Js.classList_add "active" <$> overlay p)
    (match overlay p with
     | Some _ => S (overlay_timers p)
     | None => overlay_timers p
     end).

(** The overlay's timer callback. *)
Definition overlay_timeout (p : page) : page :=
  match overlay_timers p with
  | S n =>
      Page (data_theme p) (scrollBehavior p) (localStorage p)
        (theme_options p) (theme_selector p)
        (Js.classList_remove "active" <$> overlay p) n
  | O => p
  end.

(** [toggleThemeSelector]; it throws when the selector is missing, which
    leaves the page as it is. *)
Definition toggleThemeSelector (p : page) : page :=
  Page (data_theme p) (scrollBehavior p) (localStorage p)
    (theme_options p) (Js.classList_toggle "show" <$> theme_selector p)
    (overlay p) (overlay_timers p).

(** [createElement], [className], [dataset.theme] and the conditional
    [classList.add] for one catalog key. *)
Definition new_option (savedTheme themeKey : string) : option_el :=
  OptionEl (Some themeKey)
    (if decide (themeKey = savedTheme)
     then Js.classList_add "active" ["theme-option"] else ["theme-option"])
    (Some themeKey).

Definition appendChild (o : option_el) (p : page) : page :=
  Page (data_theme p) (scrollBehavior p) (localStorage p)
    (theme_options p ++ [o]) (theme_selector p) (overlay p)
    (overlay_timers p).

Definition set_scrollBehavior (v : string) (p : page) : page :=
  Page (data_theme p) v (localStorage p) (theme_options p)
    (theme_selector p) (overlay p) (overlay_timers p).

(** The DOMContentLoaded listener, up to the scroll behaviour; the
    entrance animations that follow touch none of the fields here. *)
Definition onDOMContentLoaded (p : page) : page :=
  let savedTheme := getSavedTheme p in
  let p1 := applyTheme savedTheme p in
  let p2 :=
    match theme_selector p1 with
    | Some _ =>
        foldl (λ q themeKey, appendChild (new_option savedTheme themeKey) q)
              p1 (fst <$> themes)
    | None => p1
    end in
  set_scrollBehavior "smooth" p2.

(** The click listener of a generated entry. *)
Definition click_option (i : nat) (p : page) : page :=
  match theme_options p !! i with
  | Some o =>
      match on_click o with
      | Some themeKey => toggleThemeSelector (applyTheme themeKey p)
      | None => p
      end
  | None => p
  end.

(** The page as a reload finds it before any script has run: the document
    is the template again, the storage is what [p] left. *)
Definition reopened (template p : page) : page :=
  Page (data_theme template) (scrollBehavior template) (localStorage p)
    (theme_options template) (theme_selector template) (overlay template) 0.

(** A reload. *)
Definition reload (template p : page) : page :=
  onDOMContentLoaded (reopened template p).

(** The entries that carry the visual marker. *)
Definition active_options (p : page) : list option_el :=
  filter (λ o, "active" ∈ classList o) (theme_options p).

End Theme.

(* ===================================================================== *)
(** ** Sample pages                                                       *)
(* ===================================================================== *)

Module Samples.
Import Dom Mascot.

Definition plain (tag : string) (classes : list string) (text : string)
    (parent : option nat) : element :=
  Element tag classes ∅ text parent [].

Definition fox : img := Img "/static/images/fox_standing.png" "" "".
Definition speech : caption := Caption "" "".

(** A score read-out: a wrapper of class [cls] whose child of class
    [score-value] shows [text]; [at_] is the index the wrapper gets. *)
Definition readout (cls text : string) (at_ : nat) : list element :=
  [ plain "div" [cls] "" None; plain "span" ["score-value"] text (Some at_) ].

(** A submit button that is also of class [btn-primary]. *)
Definition submit : element :=
  Element "button" ["btn-primary"] {[ "type" := "submit" ]} "Analyze" None [].

Definition with_doc (d : document) : page := Page (Some fox) (Some speech) d.

(** ATS score 45, and a submit button. *)
Definition low_ats : page := with_doc (readout "ats-score" "45" 0 ++ [submit])%list.

(** ATS score 90, and a submit button. *)
Definition good_ats : page := with_doc (readout "ats-score" "90" 0 ++ [submit])%list.

(** Only a grammar score, 90. *)
Definition grammar_only : page := with_doc (readout "grammar-score" "90" 0).

(** Only a grammar score, and it is not a number. *)
Definition grammar_nan : page := with_doc (readout "grammar-score" "N/A" 0).

(** Only an ATS score, and it is not a number. *)
Definition ats_nan : page := with_doc (readout "ats-score" "N/A" 0).

(** All three scores low, and seven missing skills. *)
Definition all_low : page :=
  with_doc (readout "ats-score" "10" 0 ++ readout "job-match-score" "20" 2
            ++ readout "grammar-score" "30" 4
            ++ plain "ul" ["missing-skills"] "" None
               :: replicate 7 (plain "li" [] "skill" (Some 6)))%list.

(** The theme page as the template delivers it: an empty picker, an
    overlay, nothing stored. *)
Definition blank : Theme.page :=
  Theme.Page None "" ∅ [] (Some []) (Some []) 0.

End Samples.

(* ===================================================================== *)
(** ** The score rules as the specification words them                    *)
(* ===================================================================== *)

Module ScoreRules.
Import Dom Mascot.

(** What the score check reads off the page: the text of each score
    read-out that is there, and the number of entries of the missing-skills
    list if there is one. *)
Record scores := Scores {
  sc_ats : option string;
  sc_job : option string;
  sc_grammar : option string;
  sc_missing : option nat;
}.

Definition read (d : document) : scores :=
  Scores (textContent d <$> querySelector d ats_selector)
         (textContent d <$> querySelector d job_selector)
         (textContent d <$> querySelector d grammar_selector)
         (children_length d <$> querySelector d missing_selector).

(** A score that is shown and reads below [k]. *)
Definition score_below (k : Z) (text : option string) : bool :=
  match text with
  | Some t => Js.lt (Js.parseInt t) k
  | None => false
  end.

Definition count_above (k : nat) (count : option nat) : bool :=
  match count with
  | Some n => bool_decide (k < n)
  | None => false
  end.

(** The ordered list of (predicate, outcome) rules: ATS score below 60,
    job-match score below 50, grammar score below 70, missing-skill count
    above 5. *)
Definition score_rules : list ((scores → bool) * string) :=
  [ (λ sc, score_below 60 (sc_ats sc), ats_message);
    (λ sc, score_below 50 (sc_job sc), job_message);
    (λ sc, score_below 70 (sc_grammar sc), grammar_message);
    (λ sc, count_above 5 (sc_missing sc), missing_message) ].

(** First match wins. *)
Definition first_match (sc : scores) : option string :=
  snd <$> find (λ r, fst r sc) score_rules.

End ScoreRules.

(* ===================================================================== *)
(** ** The hover registry, element by element                             *)
(* ===================================================================== *)

Module Registry.
Import Dom Mascot.

(** Selectors that look at the element alone, and not at the marker
    attribute.  Every key of [expressionMap] is one. *)
Definition own_selector (sel : selector) : bool :=
  match sel with
  | Tag _ | Class _ => true
  | TagAttr _ a _ => bool_decide (a ≠ marker)
  | Desc _ _ => false
  end.

(** One round of the outer [forEach], seen from one element. *)
Definition bind_round (sel : selector) (e : element) : element :=
  if matches [] sel e then bind sel e else e.

Definition setup_rounds (sels : list selector) (e : element) : element :=
  foldl (λ e sel, bind_round sel e) e sels.

(** All the rounds, seen from one element. *)
Definition setup_element (e : element) : element :=
  setup_rounds (fst <$> expressionMap) e.

(** The first entry, in the registry's order, whose selector the element
    matches. *)
Definition first_rule (d : document) (e : element) : option (selector * config) :=
  find (λ kv, matches d (fst kv) e) expressionMap.

(** The listener pair one binding adds. *)
Definition pair_for (sel : selector) : list (event_type * handler) :=
  [ (mouseenter, OnMouseEnter sel); (mouseleave, OnMouseLeave) ].

End Registry.

(* ===================================================================== *)
(** ** Invariants of the event loop                                       *)
(* ===================================================================== *)

Module Loop.
Import Dom Mascot.

Definition cancel_opt (h : option nat) (l : list timer) : list timer :=
  match h with
  | Some id => cancel id l
  | None => l
  end.

(** The pending calls of [resetMascot]. *)
Definition resets (s : state) : list timer :=
  filter (λ tm, tm_cb tm = ResetMascot) (timers s).

(** The pending calls of [resetMascot] that were not pending yet when the
    handles in [base] were the pending ones. *)
Definition hover_resets (base : list nat) (s : state) : list timer :=
  filter (λ tm, tm_cb tm = ResetMascot ∧ tm_id tm ∉ base) (timers s).

(** Handles are handed out in increasing order and never twice, and
    [hoverTimeout], while its timer is pending, is the handle of a
    [resetMascot]. *)
Record wf (s : state) : Prop := Wf {
  wf_ids : ∀ tm, tm ∈ timers s → tm_id tm < next_id s;
  wf_nodup : NoDup (tm_id <$> timers s);
  wf_hover : ∀ h, hoverTimeout s = Some h → h < next_id s;
  wf_handle : ∀ tm, tm ∈ timers s → hoverTimeout s = Some (tm_id tm) →
              tm_cb tm = ResetMascot;
}.

(** The start-up callback has run. *)
Definition started (s : state) : Prop :=
  ∀ tm, tm ∈ timers s → tm_cb tm ≠ Startup.

(** Every pending [resetMascot] is an old one, of [base], or the one that
    [hoverTimeout] holds. *)
Record tracked (base : list nat) (s : state) : Prop := Tracked {
  tr_base : ∀ r, r ∈ base → r < next_id s;
  tr_reset : ∀ tm, tm ∈ timers s → tm_cb tm = ResetMascot →
             tm_id tm ∈ base ∨ hoverTimeout s = Some (tm_id tm);
}.

(** The lock is on: the [Unlock] callback, due at [T], is pending under
    the handle [u], nothing that could change the expression is pending,
    and expression and caption are [e0] and [t0]. *)
Record locked (T : Z) (u : nat) (e0 : expression) (t0 : string) (s : state)
  : Prop := Locked {
  lk_flag : isLocked s = true;
  lk_expression : currentExpression s = e0;
  lk_text : bubble_text s = t0;
  lk_pending : Timer u T Unlock None ∈ timers s;
  lk_only : ∀ tm, tm ∈ timers s →
            match tm_cb tm with
            | Unlock => tm = Timer u T Unlock None
            | FadeTo _ | Startup => False
            | ResetMascot | Rescan => True
            end;
}.

(** The lock is off for good: [T] is past and neither [Unlock] nor the
    start-up callback is pending. *)
Record unlocked (T : Z) (s : state) : Prop := Unlocked {
  ul_flag : isLocked s = false;
  ul_color : bubble_color s = "";
  ul_clock : (T ≤ now s)%Z;
  ul_only : ∀ tm, tm ∈ timers s → tm_cb tm ≠ Unlock ∧ tm_cb tm ≠ Startup;
}.

(** How a listener or a callback changes the queue: it cancels the handle
    [h], if any, and adds [extra] under fresh handles, at the same clock. *)
Record shape (s s' : state) (h : option nat) (extra : list timer) : Prop :=
  Shape {
  sh_timers : timers s' = cancel_opt h (timers s) ++ extra;
  sh_next : next_id s' = next_id s + length extra;
  sh_ids : tm_id <$> extra = seq (next_id s) (length extra);
  sh_now : now s' = now s;
}.

(** The state in which a callback of the timer [tm] starts: the clock is at
    the due time and the timer is off the queue, or armed again. *)
Definition pre (tm : timer) (s : state) : state :=
  set_timers (rearm tm (timers s)) (set_now (Z.max (now s) (tm_due tm)) s).

Definition fade_timer (e : expression) (s : state) : timer :=
  Timer (next_id s) (now s + 150) (FadeTo e) None.

Definition reset_timer (delay : Z) (s : state) : timer :=
  Timer (next_id s) (now s + delay) ResetMascot None.

(** What holds between events once the start-up callback has run. *)
Record settled (base : list nat) (s : state) : Prop := Settled {
  st_wf : wf s;
  st_started : started s;
  st_tracked : tracked base s;
}.

(** Nothing in the queue is the start-up callback, and every interval
    has a period of 150 ms at least. *)
Definition quiet (s : state) : Prop :=
  ∀ tm, tm ∈ timers s →
    tm_cb tm ≠ Startup ∧ ∀ k, tm_every tm = Some k → (150 ≤ k)%Z.

(** A bound on the callbacks a timer can set off before the clock is past
    [t]: each callback schedules at most two more, 150 ms later at least. *)
Definition weight (t : Z) (tm : timer) : nat :=
  if (tm_due tm <=? t)%Z
  then 3 ^ S (Z.to_nat ((t - tm_due tm) / 150))
  else 0.

Definition potential (t : Z) (l : list timer) : nat :=
  sum_list_with (weight t) l.

Definition phase (T : Z) (u : nat) (e0 : expression) (t0 : string)
    (s : state) : Prop :=
  (locked T u e0 t0 s ∧ (now s < T)%Z) ∨ unlocked T s.

End Loop.

(* ===================================================================== *)
(** ** Invariants of a visit                                              *)
(* ===================================================================== *)

Module Settle.
Import Dom Mascot Loop.

(** Every pending timer is due after the current clock: the state between
    two inputs. *)
Definition timely (s : state) : Prop :=
  ∀ tm, tm ∈ timers s → (now s < tm_due tm)%Z.

(** Every pending timer is due now or later: the state between two
    callbacks. *)
Definition punctual (s : state) : Prop :=
  ∀ tm, tm ∈ timers s → (now s ≤ tm_due tm)%Z.

(** Only the rescan is on an interval. *)
Definition one_shot (s : state) : Prop :=
  ∀ tm, tm ∈ timers s → tm_cb tm ≠ Rescan → tm_every tm = None.

(** What holds between two inputs once the start-up callback has run. *)
Record ready (s : state) : Prop := Ready {
  rd_wf : wf s;
  rd_quiet : quiet s;
  rd_one_shot : one_shot s;
  rd_timely : timely s;
  rd_prompt : ∀ tm e, tm ∈ timers s → tm_cb tm = FadeTo e →
              (tm_due tm ≤ now s + 150)%Z;
}.

(** What the visitor sees of the mascot. *)
Record display := Display {
  d_src : string;
  d_opacity : string;
  d_text : string;
  d_color : string;
}.

Definition shown (s : state) : display :=
  Display (mascot_src s) (mascot_opacity s) (bubble_text s) (bubble_color s).

(** Nothing but rescans is pending, and the mascot stands unlocked and
    shows [v]. *)
Record calm (v : display) (s : state) : Prop := Calm {
  cm_only : ∀ tm, tm ∈ timers s → tm_cb tm = Rescan;
  cm_shown : shown s = v;
  cm_expression : currentExpression s = standing;
  cm_flag : isLocked s = false;
}.

(** The lock is off, the caption has the colour [c], and no unlock is
    pending. *)
Record free (c : string) (s : state) : Prop := Free {
  fr_flag : isLocked s = false;
  fr_color : bubble_color s = c;
  fr_quiet : quiet s;
  fr_only : ∀ tm, tm ∈ timers s → tm_cb tm ≠ Unlock;
}.

End Settle.

Module Reading.

(** White space of one byte each: tabs, line breaks, spaces. *)
Definition blank (s : string) : Prop :=
  Forall (λ a, Js.ws1 a = true) (list_ascii_of_string s).

(** Text at which the digits of a decimal numeral end: nothing, or a
    character that is no digit and not the [x] of a hexadecimal prefix. *)
Definition closing (s : string) : Prop :=
  match s with
  | EmptyString => True
  | String a _ =>
      Js.digit_in 10 a = None ∧ a ≠ "x"%char ∧ a ≠ "X"%char
  end.

End Reading.

Module Visits.
Import Dom Mascot.

(** A submit button and a text input whose [type] the page writes with
    capitals. *)
Definition capital_submit : element :=
  Element "button" ["btn-primary"] {[ "type" := "Submit" ]} "Analyze" None [].

Definition capital_text : element :=
  Element "input" [] {[ "type" := "TEXT" ]} "" None [].

(** A landing page: that submit button and a navigation link, no scores. *)
Definition landing : page :=
  Samples.with_doc
    [ capital_submit; Samples.plain "a" ["nav-link"] "Home" None ].

(** [e] with the index of its parent as it is once [n] elements have come
    in at index [k]. *)
Definition moved (k n : nat) (e : element) : element :=
  Element (el_tag e) (el_classes e) (el_attrs e) (el_text e)
    ((λ i, if decide (k ≤ i) then i + n else i) <$> el_parent e)
    (el_listeners e).

(** The document [old] once the elements [new] have come in at index [k];
    the new elements carry the parent indices they have in the result. *)
Definition insert_at (k : nat) (new old : document) : document :=
  take k (moved k (length new) <$> old)
  ++ new ++ drop k (moved k (length new) <$> old).

End Visits.

(* ===================================================================== *)
(** ** Properties of the mascot script                                    *)
(* ===================================================================== *)

Ltac fields :=
  cbn [Mascot.doc Mascot.now Mascot.timers Mascot.next_id Mascot.mascot_src
       Mascot.mascot_opacity Mascot.mascot_transition Mascot.bubble_text
       Mascot.bubble_color Mascot.currentExpression Mascot.isLocked
       Mascot.hoverTimeout Mascot.basePath].

Ltac read_digit :=
  match goal with
  | |- context [Js.digit_in 10 ?c] =>
      let v := eval vm_compute in (Js.digit_in 10 c) in
      change (Js.digit_in 10 c) with v
  end.

Section Numerals.

Lemma trimStart_plain (a : ascii) (r : string) :
  Js.ws1 a = false → (Js.code a < 194)%Z →
  Js.trimStart (String a r) = String a r.
Proof.
  intros H1 Hc. cbn [Js.trimStart]. rewrite H1.
  assert (E : ∀ k, (194 ≤ k)%Z → (Js.code a =? k)%Z = false)
    by (intros k Hk; apply Z.eqb_neq; lia).
  destruct r as [|b r]; [reflexivity|].
  assert (H2 : Js.ws2 a b = false) by (unfold Js.ws2; rewrite E by lia; reflexivity).
  rewrite H2. destruct r as [|c r]; [reflexivity|].
  assert (H3 : Js.ws3 a b c = false)
    by (unfold Js.ws3; rewrite !E by lia; reflexivity).
  rewrite H3. reflexivity.
Qed.

Lemma digits_acc (d : uint) (acc : positive) :
  Js.digits 10 (NilEmpty.string_of_uint d) (Some (Zpos acc))
  = Some (Zpos (Pos.of_uint_acc d acc)).
Proof.
  revert acc. induction d; intros acc; cbn [NilEmpty.string_of_uint];
    [reflexivity|..];
    cbn [Js.digits]; read_digit; cbv [default from_option id];
    cbn [Pos.of_uint_acc];
    match goal with
    | |- Js.digits 10 _ (Some ?v) = Some (Z.pos (Pos.of_uint_acc d ?a)) =>
        replace v with (Z.pos a) by lia; apply IHd
    end.
Qed.

Lemma digits_zero (d : uint) :
  Js.digits 10 (NilEmpty.string_of_uint d) (Some 0%Z)
  = Some (Z.of_N (Pos.of_uint d)).
Proof.
  induction d; cbn [NilEmpty.string_of_uint]; [reflexivity|..];
    cbn [Js.digits]; read_digit; cbv [default from_option id];
    cbn [Pos.of_uint];
    first [exact IHd | apply digits_acc].
Qed.

Lemma digits_start (d : uint) :
  d ≠ Nil →
  Js.digits 10 (NilEmpty.string_of_uint d) None
  = Js.digits 10 (NilEmpty.string_of_uint d) (Some 0%Z).
Proof. destruct d; [congruence|..]; intros _; reflexivity. Qed.

Lemma numeral_plain (d : uint) :
  d ≠ Nil →
  Js.trimStart (NilEmpty.string_of_uint d) = NilEmpty.string_of_uint d
  ∧ Js.strip_sign (NilEmpty.string_of_uint d)
    = (1%Z, NilEmpty.string_of_uint d)
  ∧ Js.strip_prefix (NilEmpty.string_of_uint d)
    = (10%Z, NilEmpty.string_of_uint d).
Proof.
  intros Hd. split; [|split].
  - destruct d; [congruence|..]; cbn [NilEmpty.string_of_uint];
      apply trimStart_plain; vm_compute; reflexivity.
  - destruct d; [congruence|..]; reflexivity.
  - destruct d as [|d|d|d|d|d|d|d|d|d|d]; [congruence|..]; try reflexivity.
    destruct d; reflexivity.
Qed.

Lemma parseInt_numeral (d : uint) :
  d ≠ Nil →
  Js.parseInt (NilEmpty.string_of_uint d) = Some (Z.of_N (Pos.of_uint d))
  ∧ Js.parseInt (String "-" (NilEmpty.string_of_uint d))
    = Some (- Z.of_N (Pos.of_uint d))%Z.
Proof.
  intros Hd. destruct (numeral_plain d Hd) as (Ht & Hs & Hp).
  pose proof (digits_start d Hd) as H0. rewrite digits_zero in H0.
  split.
  - unfold Js.parseInt. rewrite Ht, Hs, Hp, H0. f_equal; lia.
  - unfold Js.parseInt.
    rewrite trimStart_plain by (vm_compute; reflexivity).
    cbn [Js.strip_sign]. rewrite Hp, H0. f_equal; lia.
Qed.

(** [parseInt] reads the decimal numeral of an integer back as that
    integer. *)
Lemma parseInt_decimal (z : Z) : Js.parseInt (Js.decimal z) = Some z.
Proof.
  unfold Js.decimal. destruct z as [|q|q]; [reflexivity|..];
    cbn [Z.to_int NilZero.string_of_int];
    pose proof (Unsigned.of_to q) as Hq;
    assert (Hn : Pos.to_uint q ≠ Nil)
      by (intros E; rewrite E in Hq; discriminate);
    destruct (parseInt_numeral (Pos.to_uint q) Hn) as [H1 H2];
    rewrite Hq in H1, H2.
  - replace (NilZero.string_of_uint (Pos.to_uint q))
      with (NilEmpty.string_of_uint (Pos.to_uint q))
      by (destruct (Pos.to_uint q); [congruence|..]; reflexivity).
    exact H1.
  - replace (NilZero.string_of_uint (Pos.to_uint q))
      with (NilEmpty.string_of_uint (Pos.to_uint q))
      by (destruct (Pos.to_uint q); [congruence|..]; reflexivity).
    exact H2.
Qed.

End Numerals.

Section MascotScores.
Import Dom Mascot.

(** C1, evaluated on the page whose ATS read-out shows 45.  After the
    500 ms start-up delay the lock is set and the caption is recoloured
    to #dc2626, but [changeMascotExpression] is called with the lock already
    set and returns at once: the expression is still [standing], the
    caption text is still the default message and no fade is pending.
    After 5000 ms more the lock is released and the colour is cleared. *)
Theorem low_ats_startup_keeps_default_caption :
  let at_startup := after [Wait 500] Samples.low_ats in
  let later := after [Wait 500; Wait 5000] Samples.low_ats in
  scoreDecision (pg_doc Samples.low_ats) = (true, ats_message)
  ∧ isLocked <$> at_startup = Some true
  ∧ bubble_color <$> at_startup = Some "#dc2626"
  ∧ currentExpression <$> at_startup = Some standing
  ∧ bubble_text <$> at_startup = Some defaultMessage
  ∧ (λ s, tm_cb <$> timers s) <$> at_startup = Some [Rescan; Unlock]
  ∧ now <$> later = Some 5500%Z
  ∧ isLocked <$> later = Some false
  ∧ bubble_color <$> later = Some ""
  ∧ currentExpression <$> later = Some standing
  ∧ bubble_text <$> later = Some defaultMessage
  ∧ defaultMessage ≠ ats_message.
Proof.
  cbv zeta.
  split; [vm_compute; reflexivity|].
  split; [vm_compute; reflexivity|].
  split; [vm_compute; reflexivity|].
  split; [vm_compute; reflexivity|].
  split; [vm_compute; reflexivity|].
  split; [vm_compute; reflexivity|].
  split; [vm_compute; reflexivity|].
  split; [vm_compute; reflexivity|].
  split; [vm_compute; reflexivity|].
  split; [vm_compute; reflexivity|].
  split; [vm_compute; reflexivity|].
  vm_compute. discriminate.
Qed.

(** The reaction [checkScores] has when the decision is [low]. *)
Lemma checkScores_low (s : state) (m : string) :
  scoreDecision (doc s) = (true, m) →
  checkScores s
  = snd (setTimeout Unlock 5000
           (set_bubble_color "#dc2626"
              (changeMascotExpression sad m (set_isLocked true s)))).
Proof. intros H. unfold checkScores. rewrite H. reflexivity. Qed.

Lemma checkScores_not_low (s : state) (m : string) :
  scoreDecision (doc s) = (false, m) →
  checkScores s
  = if Js.nonnull (querySelector (doc s) ats_selector)
       || Js.nonnull (querySelector (doc s) job_selector)
    then snd (setTimeout ResetMascot 3000
                (changeMascotExpression happy happy_message s))
    else s.
Proof. intros H. unfold checkScores. rewrite H. reflexivity. Qed.

Lemma scoreDecision_first_match (d : document) :
  scoreDecision d
  = match ScoreRules.first_match (ScoreRules.read d) with
    | Some m => (true, m)
    | None => (false, "")
    end.
Proof.
  unfold scoreDecision, ScoreRules.first_match, ScoreRules.read, below.
  destruct (querySelector d ats_selector) as [a|];
    destruct (querySelector d job_selector) as [j|];
    destruct (querySelector d grammar_selector) as [g|];
    destruct (querySelector d missing_selector) as [k|]; simpl;
    repeat match goal with
           | |- context [Js.lt ?x ?y] => destruct (Js.lt x y); simpl
           | |- context [bool_decide ?P] => destruct (bool_decide P); simpl
           end;
    reflexivity.
Qed.

(** C3.  On every document the score check settles [lowScore] and
    [sadMessage] as the ordered rule list does under first-match-wins: ATS
    below 60, else job-match below 50, else grammar below 70, else more than
    5 missing-skill entries.  The message of the first rule that matches is
    the one message handed on to [changeMascotExpression]; with no match the
    check does not enter the low-score reaction.  A read-out that shows the
    decimal numeral of an integer [z] is below a threshold exactly when [z]
    is. *)
Theorem checkScores_first_match_wins (s : state) :
  scoreDecision (doc s)
  = match ScoreRules.first_match (ScoreRules.read (doc s)) with
    | Some m => (true, m)
    | None => (false, "")
    end
  ∧ checkScores s
    = match ScoreRules.first_match (ScoreRules.read (doc s)) with
      | Some m =>
          snd (setTimeout Unlock 5000
                 (set_bubble_color "#dc2626"
                    (changeMascotExpression sad m (set_isLocked true s))))
      | None =>
          if Js.nonnull (querySelector (doc s) ats_selector)
             || Js.nonnull (querySelector (doc s) job_selector)
          then snd (setTimeout ResetMascot 3000
                      (changeMascotExpression happy happy_message s))
          else s
      end
  ∧ ∀ z k, ScoreRules.score_below k (Some (Js.decimal z)) = (z <? k)%Z.
Proof.
  pose proof (scoreDecision_first_match (doc s)) as H.
  split; [exact H|]. split.
  - destruct (ScoreRules.first_match (ScoreRules.read (doc s))) as [m|].
    + now apply checkScores_low.
    + now apply checkScores_not_low with (m := "").
  - intros z k. unfold ScoreRules.score_below.
    rewrite parseInt_decimal. reflexivity.
Qed.

(** With every score low and seven skills missing, the ATS rule, first in
    the order, gives the message. *)
Example all_low_takes_the_ats_message :
  ScoreRules.read (pg_doc Samples.all_low)
  = ScoreRules.Scores (Some "10") (Some "20") (Some "30") (Some 7)
  ∧ scoreDecision (pg_doc Samples.all_low) = (true, ats_message).
Proof. split; vm_compute; reflexivity. Qed.

(** *** The happy branch *)

(** What [changeMascotExpression] does when the lock is off. *)
Lemma changeMascotExpression_unlocked (e : expression) (m : string) (s : state) :
  isLocked s = false → Js.truthy m = true →
  let s' := changeMascotExpression e m s in
  bubble_text s' = m
  ∧ isLocked s' = false
  ∧ currentExpression s' = currentExpression s
  ∧ now s' = now s
  ∧ timers s'
    = (if decide (e ≠ currentExpression s)
       then timers s ++ [Timer (next_id s) (now s + 150) (FadeTo e) None]
       else timers s)
  ∧ next_id s'
    = (if decide (e ≠ currentExpression s) then S (next_id s) else next_id s).
Proof.
  intros Hl Hm. destruct s; simpl in *; subst.
  unfold changeMascotExpression; simpl. rewrite Hm.
  destruct (decide _); simpl; repeat split; reflexivity.
Qed.

Lemma FadeTo_effect (e : expression) (s : state) :
  let s' := run_callback (FadeTo e) s in
  currentExpression s' = e
  ∧ mascot_src s' = expressions (basePath s) e
  ∧ mascot_opacity s' = "1"
  ∧ bubble_text s' = bubble_text s.
Proof. destruct s; repeat split; reflexivity. Qed.

(** The happy branch of the score check, as a state transformer. *)
Lemma checkScores_happy (s : state) :
  ScoreRules.first_match (ScoreRules.read (doc s)) = None →
  Js.nonnull (querySelector (doc s) ats_selector)
    || Js.nonnull (querySelector (doc s) job_selector) = true →
  checkScores s
  = snd (setTimeout ResetMascot 3000
           (changeMascotExpression happy happy_message s)).
Proof.
  intros Hf Hp. pose proof (scoreDecision_first_match (doc s)) as H.
  rewrite Hf in H. rewrite (checkScores_not_low s "" H), Hp. reflexivity.
Qed.

(** C4, as the code has it.  When no low-score rule matches and the ATS or
    the job-match read-out is on the page, the score check (run with the
    lock off, as at start-up) shows the congratulatory message at once,
    leaves a fade to [happy] pending 150 ms ahead unless the mascot is happy
    already, and leaves a [resetMascot] pending 3000 ms ahead.  A fade,
    when it fires, makes its expression the current one, with its image; the
    reset, fired with the lock off, puts the default message back and
    starts the fade to [standing]. *)
Theorem checkScores_happy_branch (s : state) :
  isLocked s = false →
  ScoreRules.first_match (ScoreRules.read (doc s)) = None →
  Js.nonnull (querySelector (doc s) ats_selector)
    || Js.nonnull (querySelector (doc s) job_selector) = true →
  let s' := checkScores s in
  bubble_text s' = happy_message
  ∧ isLocked s' = false
  ∧ timers s'
    = timers s
      ++ (if decide (happy ≠ currentExpression s)
          then [Timer (next_id s) (now s + 150) (FadeTo happy) None;
                Timer (S (next_id s)) (now s + 3000) ResetMascot None]
          else [Timer (next_id s) (now s + 3000) ResetMascot None])
  ∧ (∀ e t, currentExpression (run_callback (FadeTo e) t) = e
            ∧ mascot_src (run_callback (FadeTo e) t) = expressions (basePath t) e)
  ∧ (∀ t, isLocked t = false →
          bubble_text (run_callback ResetMascot t) = defaultMessage
          ∧ timers (run_callback ResetMascot t)
            = (if decide (standing ≠ currentExpression t)
               then timers t
                    ++ [Timer (next_id t) (now t + 150) (FadeTo standing) None]
               else timers t)).
Proof.
  intros Hl Hf Hp s'. subst s'. rewrite (checkScores_happy s Hf Hp).
  destruct (changeMascotExpression_unlocked happy happy_message s Hl eq_refl)
    as (Hb & Hl' & Hc & Hn & Ht & Hi).
  set (s1 := changeMascotExpression happy happy_message s) in *.
  assert (Hset : ∀ x, timers (snd (setTimeout ResetMascot 3000 x))
                 = timers x ++ [Timer (next_id x) (now x + 3000) ResetMascot None]
               ∧ bubble_text (snd (setTimeout ResetMascot 3000 x)) = bubble_text x
               ∧ isLocked (snd (setTimeout ResetMascot 3000 x)) = isLocked x).
  { intros x. destruct x; repeat split; reflexivity. }
  destruct (Hset s1) as (Ht1 & Hb1 & Hl1).
  split; [now rewrite Hb1|].
  split; [now rewrite Hl1|].
  split.
  { rewrite Ht1, Ht, Hi, Hn. destruct (decide _); [|reflexivity].
    now rewrite <- app_assoc. }
  split; [intros e t; destruct t; split; reflexivity|].
  intros t Hlt. simpl. unfold resetMascot. rewrite Hlt.
  destruct (changeMascotExpression_unlocked standing defaultMessage t Hlt eq_refl)
    as (Hb2 & _ & _ & _ & Ht2 & _).
  split; assumption.
Qed.

(** The happy branch at work on the page that shows an ATS score of 90. *)
Lemma checkScores_happy_branch_witness :
  ∃ s,
    main Samples.good_ats = Some s
    ∧ bubble_text (checkScores s) = happy_message
    ∧ currentExpression <$> after [Wait 500; Wait 150] Samples.good_ats
      = Some happy
    ∧ bubble_text <$> after [Wait 500; Wait 3000] Samples.good_ats
      = Some defaultMessage
    ∧ currentExpression <$> after [Wait 500; Wait 3000; Wait 150] Samples.good_ats
      = Some standing.
Proof.
  eexists. split; [reflexivity|].
  split.
  - refine (proj1 (checkScores_happy_branch _ _ _ _));
      vm_compute; reflexivity.
  - split; [vm_compute; reflexivity|].
    split; vm_compute; reflexivity.
Defined.

(** C4 as stated fails on the page that shows only a grammar score, 90: no
    rule matches and a score is there, yet the check does nothing — the
    caption keeps the default message, the mascot keeps standing, and
    nothing but the rescan interval is pending. *)
Lemma grammar_only_gets_no_congratulation :
  let at_startup := after [Wait 500] Samples.grammar_only in
  ScoreRules.first_match (ScoreRules.read (pg_doc Samples.grammar_only)) = None
  ∧ ScoreRules.sc_grammar (ScoreRules.read (pg_doc Samples.grammar_only))
    = Some "90"
  ∧ bubble_text <$> at_startup = Some defaultMessage
  ∧ bubble_text <$> at_startup ≠ Some happy_message
  ∧ (λ s, tm_cb <$> timers s) <$> at_startup = Some [Rescan]
  ∧ currentExpression <$> after [Wait 500; Wait 150] Samples.grammar_only
    = Some standing.
Proof.
  cbv zeta.
  split; [vm_compute; reflexivity|].
  split; [vm_compute; reflexivity|].
  split; [vm_compute; reflexivity|].
  split; [vm_compute; discriminate|].
  split; vm_compute; reflexivity.
Qed.

(** *** Scores that are not numbers *)

Lemma below_nan (d : document) (el : nat) (k : Z) :
  Js.parseInt (textContent d el) = None → below d el k = false.
Proof. intros H. unfold below. now rewrite H. Qed.

Lemma scoreDecision_cases (d : document) :
  scoreDecision d = (false, "")
  ∨ (scoreDecision d = (true, ats_message)
     ∧ ∃ el, querySelector d ats_selector = Some el ∧ below d el 60 = true)
  ∨ (scoreDecision d = (true, job_message)
     ∧ ∃ el, querySelector d job_selector = Some el ∧ below d el 50 = true)
  ∨ (scoreDecision d = (true, grammar_message)
     ∧ ∃ el, querySelector d grammar_selector = Some el ∧ below d el 70 = true)
  ∨ (scoreDecision d = (true, missing_message)
     ∧ ∃ el, querySelector d missing_selector = Some el
             ∧ 5 < children_length d el).
Proof.
  unfold scoreDecision.
  destruct (querySelector d ats_selector) as [a|];
    destruct (querySelector d job_selector) as [j|];
    destruct (querySelector d grammar_selector) as [g|];
    destruct (querySelector d missing_selector) as [k|]; simpl;
    repeat match goal with
           | |- context [below d ?x ?y] =>
               let E := fresh "E" in destruct (below d x y) eqn:E; simpl
           | |- context [bool_decide ?P] =>
               let E := fresh "E" in destruct (bool_decide P) eqn:E; simpl;
                 [apply bool_decide_eq_true in E|]
           end;
    eauto 10.
Qed.

(** C10, as the code has it.  A read-out whose text [parseInt] turns into
    NaN never makes its own rule match, whatever the threshold, so the
    check's message is never that rule's.  When no rule matches, a
    non-numeric ATS or job-match read-out takes the check into the happy
    branch; a non-numeric grammar read-out does so exactly when the ATS or
    the job-match read-out is on the page as well. *)
Theorem nan_score_is_never_low (d : document) (sel : selector) (el : nat) :
  sel ∈ [ats_selector; job_selector; grammar_selector] →
  querySelector d sel = Some el →
  Js.parseInt (textContent d el) = None →
  (∀ k, below d el k = false)
  ∧ (sel = ats_selector → scoreDecision d ≠ (true, ats_message))
  ∧ (sel = job_selector → scoreDecision d ≠ (true, job_message))
  ∧ (sel = grammar_selector → scoreDecision d ≠ (true, grammar_message))
  ∧ (fst (scoreDecision d) = false →
     ∀ s, doc s = d →
       checkScores s
       = if bool_decide (sel = grammar_selector)
            && negb (Js.nonnull (querySelector d ats_selector)
                     || Js.nonnull (querySelector d job_selector))
         then s
         else snd (setTimeout ResetMascot 3000
                     (changeMascotExpression happy happy_message s))).
Proof.
  intros Hsel Hq Hnan.
  assert (Hb : ∀ k, below d el k = false) by (intros; now apply below_nan).
  split; [exact Hb|].
  assert (Hne : ∀ sel' k m,
             sel = sel' →
             (scoreDecision d = (true, m) →
              ∃ el', querySelector d sel' = Some el' ∧ below d el' k = true) →
             scoreDecision d ≠ (true, m)).
  { intros sel' k m -> Hc He. destruct (Hc He) as (el' & Hq' & Hb').
    rewrite Hq in Hq'. injection Hq' as <-. rewrite Hb in Hb'. discriminate. }
  pose proof (scoreDecision_cases d) as Hcases.
  split; [intros E; apply (Hne _ 60%Z _ E); intros He|].
  { destruct Hcases as [H|[[H ?]|[[H ?]|[[H ?]|[H ?]]]]];
      rewrite H in He; first [discriminate | assumption]. }
  split; [intros E; apply (Hne _ 50%Z _ E); intros He|].
  { destruct Hcases as [H|[[H ?]|[[H ?]|[[H ?]|[H ?]]]]];
      rewrite H in He; first [discriminate | assumption]. }
  split; [intros E; apply (Hne _ 70%Z _ E); intros He|].
  { destruct Hcases as [H|[[H ?]|[[H ?]|[[H ?]|[H ?]]]]];
      rewrite H in He; first [discriminate | assumption]. }
  intros Hlow s Hd. subst d.
  destruct (scoreDecision (doc s)) as [low m] eqn:Hdec. simpl in Hlow. subst low.
  rewrite (checkScores_not_low s m Hdec).
  apply list_elem_of_In in Hsel. simpl in Hsel.
  destruct Hsel as [<-|[<-|[<-|[]]]].
  - rewrite Hq. reflexivity.
  - rewrite Hq. simpl. rewrite orb_true_r. reflexivity.
  - simpl.
    destruct (Js.nonnull (querySelector (doc s) ats_selector)
              || Js.nonnull (querySelector (doc s) job_selector));
      reflexivity.
Qed.

(** The page whose ATS read-out says N/A: not low, and congratulated. *)
Lemma nan_score_is_never_low_witness :
  ∃ s,
    main Samples.ats_nan = Some s
    ∧ (∀ k, below (doc s) 1 k = false)
    ∧ checkScores s
      = snd (setTimeout ResetMascot 3000
               (changeMascotExpression happy happy_message s))
    ∧ bubble_text <$> after [Wait 500] Samples.ats_nan = Some happy_message.
Proof.
  eexists. split; [reflexivity|].
  assert (Hin : ats_selector ∈ [ats_selector; job_selector; grammar_selector])
    by (apply list_elem_of_here).
  pose proof (nan_score_is_never_low (pg_doc Samples.ats_nan) ats_selector 1
                Hin eq_refl eq_refl) as (Hb & _ & _ & _ & Hh).
  split; [exact Hb|].
  split; [|vm_compute; reflexivity].
  apply (Hh eq_refl). reflexivity.
Defined.

(** C10 as stated fails for the grammar score: on the page whose only
    read-out is a grammar score saying N/A, the text parses to NaN and no
    rule matches, yet the happy branch is not taken — the caption keeps the
    default message and no reset is scheduled. *)
Lemma grammar_nan_enables_nothing :
  let d := pg_doc Samples.grammar_nan in
  let at_startup := after [Wait 500] Samples.grammar_nan in
  querySelector d grammar_selector = Some 1
  ∧ Js.parseInt (textContent d 1) = None
  ∧ scoreDecision d = (false, "")
  ∧ bubble_text <$> at_startup = Some defaultMessage
  ∧ bubble_text <$> at_startup ≠ Some happy_message
  ∧ (λ s, tm_cb <$> timers s) <$> at_startup = Some [Rescan].
Proof.
  cbv zeta.
  split; [vm_compute; reflexivity|].
  split; [vm_compute; reflexivity|].
  split; [vm_compute; reflexivity|].
  split; [vm_compute; reflexivity|].
  split; [vm_compute; discriminate|].
  vm_compute; reflexivity.
Qed.

End MascotScores.

Section HoverBinding.
Import Dom Mascot Registry.

Lemma registry_own_selectors :
  Forall (λ sel, own_selector sel = true) (fst <$> expressionMap).
Proof. repeat constructor. Qed.

Lemma matches_own (d d' : document) (sel : selector) (e : element) :
  own_selector sel = true → matches d sel e = matches d' sel e.
Proof. destruct sel; simpl; intros H; first [reflexivity | discriminate]. Qed.

Lemma bind_marked (sel : selector) (e : element) :
  hasAttribute marker e = true → bind sel e = e.
Proof. intros H. unfold bind. now rewrite H. Qed.

Lemma bind_unmarked (sel : selector) (e : element) :
  hasAttribute marker e = false →
  bind sel e
  = Element (el_tag e) (el_classes e) (<[marker := "true"]> (el_attrs e))
      (el_text e) (el_parent e) (el_listeners e ++ pair_for sel).
Proof.
  intros H. unfold bind. rewrite H. unfold addEventListener, setAttribute.
  simpl. now rewrite <- app_assoc.
Qed.

Lemma bind_is_marked (sel : selector) (e : element) :
  hasAttribute marker (bind sel e) = true.
Proof.
  destruct (hasAttribute marker e) eqn:H.
  - now rewrite bind_marked.
  - rewrite bind_unmarked by assumption. unfold hasAttribute. simpl.
    apply bool_decide_eq_true. rewrite lookup_insert_eq. eauto.
Qed.

Lemma matches_bind (d : document) (sel sel' : selector) (e : element) :
  own_selector sel = true → matches d sel (bind sel' e) = matches d sel e.
Proof.
  intros Hown. destruct (hasAttribute marker e) eqn:H.
  - now rewrite bind_marked.
  - rewrite bind_unmarked by assumption.
    destruct sel; simpl in *; try reflexivity; try discriminate.
    apply bool_decide_eq_true in Hown.
    rewrite lookup_insert_ne by congruence. reflexivity.
Qed.

(** Altering a list at each index of a duplicate-free list of indices. *)
Lemma foldl_alter_lookup {A} (f : A → A) (idx : list nat) :
  NoDup idx → ∀ (l : list A) (i : nat),
  foldl (λ l i, alter f i l) l idx !! i
  = if decide (i ∈ idx) then f <$> l !! i else l !! i.
Proof.
  induction 1 as [|a idx Ha Hnd IH]; intros l i; cbn [foldl].
  - case_decide as Hin; [now apply elem_of_nil in Hin|reflexivity].
  - rewrite IH. rewrite list_lookup_alter.
    destruct (decide (i ∈ idx)) as [Hi|Hi].
    + destruct (decide (a = i)) as [->|Hne]; [contradiction|].
      rewrite decide_True by (apply elem_of_cons; auto). reflexivity.
    + destruct (decide (a = i)) as [->|Hne].
      * rewrite decide_True by (apply elem_of_cons; auto). reflexivity.
      * rewrite decide_False; [reflexivity|].
        rewrite elem_of_cons. intros [->|?]; contradiction.
Qed.

(** One round of the scan touches each element on its own. *)
Lemma bind_all_fmap (d : document) (sel : selector) :
  own_selector sel = true → bind_all d sel = bind_round sel <$> d.
Proof.
  intros Hown. apply list_eq. intros i. unfold bind_all, querySelectorAll.
  rewrite foldl_alter_lookup by (apply NoDup_filter, NoDup_seq).
  rewrite list_lookup_fmap.
  destruct (d !! i) as [e|] eqn:He; simpl.
  - unfold bind_round. rewrite <- (matches_own d [] sel e Hown).
    destruct (matches d sel e) eqn:Hm.
    + rewrite decide_True; [reflexivity|].
      apply list_elem_of_filter. split.
      * unfold matches_at. rewrite He, Hm. exact I.
      * apply elem_of_seq. apply lookup_lt_Some in He. lia.
    + rewrite decide_False; [reflexivity|].
      rewrite list_elem_of_filter. intros [Hc _].
      unfold matches_at in Hc. rewrite He, Hm in Hc. exact Hc.
  - case_decide; reflexivity.
Qed.

Lemma foldl_bind_all (sels : list selector) :
  Forall (λ sel, own_selector sel = true) sels →
  ∀ d, foldl bind_all d sels = setup_rounds sels <$> d.
Proof.
  induction 1 as [|sel sels Hown _ IH]; intros d; simpl.
  - unfold setup_rounds. simpl. now rewrite list_fmap_id.
  - rewrite IH, bind_all_fmap by assumption.
    rewrite <- list_fmap_compose. reflexivity.
Qed.

(** The whole scan touches each element on its own. *)
Lemma setupHoverDetection_doc_fmap (d : document) :
  setupHoverDetection_doc d = setup_element <$> d.
Proof. apply foldl_bind_all, registry_own_selectors. Qed.

Lemma setup_rounds_marked (sels : list selector) (e : element) :
  hasAttribute marker e = true → setup_rounds sels e = e.
Proof.
  intros H. induction sels as [|sel sels IH]; [reflexivity|].
  unfold setup_rounds in *. simpl. unfold bind_round at 2.
  destruct (matches [] sel e); [rewrite bind_marked by assumption|]; exact IH.
Qed.

(** On an element without the marker, the rounds come down to one binding:
    under the first selector the element matches. *)
Lemma setup_rounds_unmarked (rules : list (selector * config)) (e : element) :
  hasAttribute marker e = false →
  setup_rounds (fst <$> rules) e
  = match find (λ kv, matches [] (fst kv) e) rules with
    | Some kv => bind (fst kv) e
    | None => e
    end.
Proof.
  intros H. induction rules as [|[sel cfg] rules IH]; [reflexivity|].
  simpl. unfold setup_rounds in *. simpl. unfold bind_round at 2.
  destruct (matches [] sel e) eqn:Hm.
  - apply (setup_rounds_marked (fst <$> rules)), bind_is_marked.
  - exact IH.
Qed.

Lemma setup_element_idempotent (e : element) :
  setup_element (setup_element e) = setup_element e.
Proof.
  unfold setup_element.
  destruct (hasAttribute marker e) eqn:H.
  - rewrite (setup_rounds_marked _ e H). now apply setup_rounds_marked.
  - rewrite (setup_rounds_unmarked expressionMap e H).
    destruct (find _ expressionMap) as [kv|] eqn:E.
    + apply setup_rounds_marked, bind_is_marked.
    + rewrite (setup_rounds_unmarked expressionMap e H), E. reflexivity.
Qed.

Lemma setupHoverDetection_doc_twice (d : document) :
  setupHoverDetection_doc (setupHoverDetection_doc d)
  = setupHoverDetection_doc d.
Proof.
  rewrite (setupHoverDetection_doc_fmap (setupHoverDetection_doc d)).
  rewrite (setupHoverDetection_doc_fmap d).
  rewrite <- list_fmap_compose.
  apply list_fmap_ext. intros i e _. apply setup_element_idempotent.
Qed.

Lemma setupHoverDetection_doc_iter (n : nat) (d : document) :
  Nat.iter (S n) setupHoverDetection_doc d = setupHoverDetection_doc d.
Proof.
  induction n as [|n IH].
  - reflexivity.
  - rewrite Nat.iter_succ, IH. apply setupHoverDetection_doc_twice.
Qed.

Lemma setupHoverDetection_twice (s : state) :
  setupHoverDetection (setupHoverDetection s) = setupHoverDetection s.
Proof.
  destruct s. unfold setupHoverDetection, set_doc. fields.
  rewrite setupHoverDetection_doc_twice. reflexivity.
Qed.

Lemma setupHoverDetection_iter (n : nat) (s : state) :
  Nat.iter (S n) setupHoverDetection s = setupHoverDetection s.
Proof.
  induction n as [|n IH].
  - reflexivity.
  - rewrite Nat.iter_succ, IH. apply setupHoverDetection_twice.
Qed.

Lemma setup_element_cases (d : document) (e : element) :
  (setup_element e = e
   ∧ (hasAttribute marker e = true ∨ first_rule d e = None))
  ∨ (∃ sel cfg,
       hasAttribute marker e = false
       ∧ first_rule d e = Some (sel, cfg)
       ∧ setup_element e = bind sel e).
Proof.
  assert (Hf : first_rule d e = find (λ kv, matches [] (fst kv) e) expressionMap).
  { unfold first_rule. generalize registry_own_selectors.
    generalize expressionMap. intros l Hl.
    induction l as [|[k v] l IH]; [reflexivity|].
    apply Forall_cons in Hl as [Hk Hl]. cbn [find fst].
    rewrite (matches_own d [] k e Hk), (IH Hl). reflexivity. }
  destruct (hasAttribute marker e) eqn:H.
  - left. split; [|now left]. now apply setup_rounds_marked.
  - unfold setup_element. rewrite (setup_rounds_unmarked expressionMap e H).
    rewrite Hf. destruct (find _ expressionMap) as [[sel cfg]|] eqn:E.
    + right. exists sel, cfg. repeat split; reflexivity.
    + left. split; [reflexivity|now right].
Qed.

Lemma first_rule_matches (d : document) (e : element) (sel : selector)
    (cfg : config) :
  first_rule d e = Some (sel, cfg) →
  (sel, cfg) ∈ expressionMap ∧ matches d sel e = true.
Proof.
  intros H. apply find_some in H as [Hin Hm].
  split; [now apply list_elem_of_In|exact Hm].
Qed.

(** C6.  Scanning any number of times leaves the page as one scan leaves
    it.  Over all these scans an element gets at most one
    mouseenter/mouseleave pair on top of the listeners it had: none if it
    carries the [data-mascot-listener] marker already (it is skipped) or
    matches no selector of the registry, one pair otherwise, and then it
    carries the marker. *)
Theorem setupHoverDetection_idempotent (s : state) (n : nat) :
  setupHoverDetection (setupHoverDetection s) = setupHoverDetection s
  ∧ Nat.iter (S n) setupHoverDetection s = setupHoverDetection s
  ∧ length (doc (Nat.iter (S n) setupHoverDetection s)) = length (doc s)
  ∧ ∀ i e0, doc s !! i = Some e0 →
      ∃ e, doc (Nat.iter (S n) setupHoverDetection s) !! i = Some e
        ∧ (hasAttribute marker e0 = true → e = e0)
        ∧ (el_listeners e = el_listeners e0
           ∨ ∃ sel, sel ∈ fst <$> expressionMap
                  ∧ matches (doc s) sel e0 = true
                  ∧ hasAttribute marker e0 = false
                  ∧ hasAttribute marker e = true
                  ∧ el_listeners e = el_listeners e0 ++ pair_for sel).
Proof.
  split; [apply setupHoverDetection_twice|].
  split; [apply setupHoverDetection_iter|].
  rewrite setupHoverDetection_iter.
  assert (Hd : doc (setupHoverDetection s) = setup_element <$> doc s).
  { destruct s. unfold setupHoverDetection, set_doc. fields.
    apply setupHoverDetection_doc_fmap. }
  rewrite Hd. split; [apply length_fmap|].
  intros i e0 Hi. exists (setup_element e0).
  split; [rewrite list_lookup_fmap, Hi; reflexivity|].
  split; [intros Hm; now apply setup_rounds_marked|].
  destruct (setup_element_cases (doc s) e0)
    as [[-> _]|(sel & cfg & Hm & Hf & ->)]; [now left|right].
  apply first_rule_matches in Hf as [Hin Hmatch].
  exists sel. split.
  { apply list_elem_of_fmap. exists (sel, cfg). split; [reflexivity|exact Hin]. }
  split; [exact Hmatch|]. split; [exact Hm|].
  split; [apply bind_is_marked|].
  rewrite (bind_unmarked sel e0 Hm). reflexivity.
Qed.

(** Two scans, then a third, of the page with the submit button: one pair
    on the button, none on the score read-out. *)
Lemma setupHoverDetection_idempotent_witness :
  ∃ s e,
    main Samples.good_ats = Some s
    ∧ doc (Nat.iter 3 setupHoverDetection s) !! 2 = Some e
    ∧ el_listeners e
      = pair_for (TagAttr "button" "type" "submit")
    ∧ length (doc (Nat.iter 3 setupHoverDetection s)) = 3.
Proof.
  eexists _, _. split; [reflexivity|].
  split; [vm_compute; reflexivity|].
  split; [vm_compute; reflexivity|].
  match goal with
  | |- length (doc (Nat.iter 3 setupHoverDetection ?s)) = _ =>
      destruct (setupHoverDetection_idempotent s 2) as (_ & _ & Hlen & Hel)
  end.
  destruct (Hel 2 Samples.submit eq_refl) as (e & _ & _ & _).
  rewrite Hlen. reflexivity.
Defined.

(** *** An element that matches several selectors *)

Lemma registry_messages_truthy :
  Forall (λ kv, Js.truthy (cfg_message (snd kv)) = true) expressionMap.
Proof. repeat constructor. Qed.

(** The entry the listener looks up by its selector is the entry the scan
    bound the element under. *)
Lemma lookup_key_first (d : document) (e : element) (sel : selector)
    (cfg : config) (rules : list (selector * config)) :
  find (λ kv, matches d (fst kv) e) rules = Some (sel, cfg) →
  lookup_key sel rules = Some cfg.
Proof.
  induction rules as [|[k v] rules IH]; [discriminate|].
  cbn [find fst lookup_key]. destruct (matches d k e) eqn:Hm.
  - intros [= -> ->]. rewrite decide_True by reflexivity. reflexivity.
  - intros H. destruct (decide (k = sel)) as [->|Hne]; [|exact (IH H)].
    apply find_some in H as [_ Hm']. cbn [fst] in Hm'. congruence.
Qed.

Lemma dispatch_single_enter (s : state) (i : nat) (e : element)
    (sel : selector) :
  doc s !! i = Some e →
  el_listeners e = pair_for sel →
  dispatch mouseenter i s = run_handler (OnMouseEnter sel) s
  ∧ dispatch mouseleave i s = run_handler OnMouseLeave s.
Proof.
  intros Hi Hl. unfold dispatch, listeners_for. rewrite Hi, Hl.
  split; reflexivity.
Qed.

(** C9.  An element without the marker that matches selectors of the
    registry is bound once, under the first of them in the registry's
    order, however many of them it matches and however often the scan runs.
    If it had no listeners before, entering it runs that one listener:
    the pending hover reset is cleared and the first selector's expression
    and message are applied, so that with the lock off the caption is that
    selector's message. *)
Theorem first_matching_selector_binds (s : state) (n i : nat) (e : element)
    (sel : selector) (cfg : config) :
  doc s !! i = Some e →
  hasAttribute marker e = false →
  first_rule (doc s) e = Some (sel, cfg) →
  let s' := Nat.iter (S n) setupHoverDetection s in
  doc s' !! i = Some (bind sel e)
  ∧ el_listeners (bind sel e) = el_listeners e ++ pair_for sel
  ∧ (el_listeners e = [] →
     dispatch mouseenter i s'
     = changeMascotExpression (cfg_expression cfg) (cfg_message cfg)
         (clearTimeout (hoverTimeout s') s')
     ∧ (isLocked s = false →
        bubble_text (dispatch mouseenter i s') = cfg_message cfg)).
Proof.
  intros Hi Hm Hf s'. subst s'. rewrite setupHoverDetection_iter.
  assert (Hd : doc (setupHoverDetection s) = setup_element <$> doc s).
  { destruct s. unfold setupHoverDetection, set_doc. fields.
    apply setupHoverDetection_doc_fmap. }
  assert (He : setup_element e = bind sel e).
  { destruct (setup_element_cases (doc s) e)
      as [[_ [H|H]]|(sel' & cfg' & _ & Hf' & ->)]; try congruence. }
  assert (Hi' : doc (setupHoverDetection s) !! i = Some (bind sel e)).
  { rewrite Hd, list_lookup_fmap, Hi.
    change (Some (setup_element e) = Some (bind sel e)).
    rewrite He. reflexivity. }
  split; [exact Hi'|].
  split; [rewrite (bind_unmarked sel e Hm); reflexivity|].
  intros Hnil.
  assert (Hl : el_listeners (bind sel e) = pair_for sel).
  { rewrite (bind_unmarked sel e Hm). cbn [el_listeners].
    rewrite Hnil. reflexivity. }
  destruct (dispatch_single_enter _ _ _ _ Hi' Hl) as [-> _].
  pose proof (lookup_key_first _ _ _ _ _ Hf) as Hget.
  cbn [run_handler]. unfold expressionMap_get. rewrite Hget.
  split; [reflexivity|].
  intros Hlock.
  assert (Htr : Js.truthy (cfg_message cfg) = true).
  { apply find_some in Hf as [Hin _].
    pose proof registry_messages_truthy as Hall.
    rewrite Forall_forall in Hall.
    apply (Hall (sel, cfg)). now apply list_elem_of_In. }
  apply changeMascotExpression_unlocked; [|exact Htr].
  destruct s, hoverTimeout0; exact Hlock.
Qed.

(** The submit button of class [btn-primary] is bound as a submit button,
    and entering it shows the submit message, not the [.btn-primary] one. *)
Lemma first_matching_selector_binds_witness :
  ∃ s,
    main Samples.good_ats = Some s
    ∧ matches (doc s) (Class "btn-primary") Samples.submit = true
    ∧ el_listeners <$> doc (Nat.iter 2 setupHoverDetection s) !! 2
      = Some (pair_for (TagAttr "button" "type" "submit"))
    ∧ bubble_text (dispatch mouseenter 2 (Nat.iter 2 setupHoverDetection s))
      = "Ready? Let's do this! 💪".
Proof.
  eexists. split; [reflexivity|].
  split; [vm_compute; reflexivity|].
  match goal with
  | |- context [Nat.iter 2 setupHoverDetection ?s] =>
      destruct (first_matching_selector_binds s 1 2 Samples.submit
                  (TagAttr "button" "type" "submit")
                  (Config happy "Ready? Let's do this! 💪")
                  eq_refl eq_refl eq_refl) as (Hb & _ & Hh)
  end.
  split.
  - rewrite Hb. vm_compute. reflexivity.
  - exact (proj2 (Hh eq_refl) eq_refl).
Defined.

(** The value of [type] is matched without regard to case: a button the
    page writes with [type="Submit"] falls under the submit rule, first in
    the registry, and not under [.btn-primary]; an input with [type="TEXT"]
    falls under the text rule. *)
Example capital_type_is_matched :
  first_rule [] Visits.capital_submit
  = Some (TagAttr "button" "type" "submit",
          Config happy "Ready? Let's do this! 💪")
  ∧ first_rule [] Visits.capital_text
    = Some (TagAttr "input" "type" "text",
            Config thinking "Hmm... what should we enter here? 🤔")
  ∧ matches [] (TagAttr "button" "type" "submit") Samples.submit = true
  ∧ matches [] (TagAttr "input" "type" "text") Visits.capital_submit = false.
Proof. repeat split; vm_compute; reflexivity. Qed.

End HoverBinding.

Ltac shape_tac :=
  split; fields; simpl;
  rewrite <- ?app_assoc, ?app_nil_r; simpl; first [reflexivity | lia].

Ltac elem_cases H :=
  repeat (apply elem_of_cons in H as [-> | H]);
  try (apply elem_of_nil in H; destruct H).

Section EventLoop.
Import Dom Mascot Loop.

Lemma elem_of_cancel (id : nat) (l : list timer) (tm : timer) :
  tm ∈ cancel id l ↔ tm ∈ l ∧ tm_id tm ≠ id.
Proof. unfold cancel. rewrite list_elem_of_filter. tauto. Qed.

Lemma elem_of_cancel_opt (h : option nat) (l : list timer) (tm : timer) :
  tm ∈ cancel_opt h l ↔ tm ∈ l ∧ h ≠ Some (tm_id tm).
Proof.
  destruct h as [id|]; simpl.
  - rewrite elem_of_cancel. split; intros [? ?]; split; congruence.
  - split; [intros ?; split; [assumption|discriminate]|tauto].
Qed.

Lemma NoDup_cancel (id : nat) (l : list timer) :
  NoDup (tm_id <$> l) → NoDup (tm_id <$> cancel id l).
Proof.
  intros H. eapply sublist_NoDup; [exact H|].
  apply fmap_sublist. unfold cancel. apply sublist_filter.
Qed.

Lemma NoDup_cancel_opt (h : option nat) (l : list timer) :
  NoDup (tm_id <$> l) → NoDup (tm_id <$> cancel_opt h l).
Proof. destruct h; [apply NoDup_cancel|trivial]. Qed.

Lemma fire_pre (tm : timer) (s : state) :
  fire tm s = run_callback (tm_cb tm) (pre tm s).
Proof. reflexivity. Qed.

(** *** What each function of the script does to the queue *)

Lemma changeMascotExpression_locked (e : expression) (m : string) (s : state) :
  isLocked s = true → changeMascotExpression e m s = s.
Proof. intros H. unfold changeMascotExpression. now rewrite H. Qed.

Lemma resetMascot_locked (s : state) : isLocked s = true → resetMascot s = s.
Proof. intros H. unfold resetMascot. now rewrite H. Qed.

Lemma changeMascotExpression_spec (e : expression) (m : string) (s : state) :
  let s' := changeMascotExpression e m s in
  ∃ extra,
    shape s s' None extra
    ∧ hoverTimeout s' = hoverTimeout s
    ∧ isLocked s' = isLocked s
    ∧ bubble_color s' = bubble_color s
    ∧ currentExpression s' = currentExpression s
    ∧ (extra = [] ∨ isLocked s = false ∧ extra = [fade_timer e s]).
Proof.
  destruct s. unfold changeMascotExpression, fade_timer. fields.
  destruct isLocked0.
  { exists []. split; [shape_tac|]. repeat split; auto. }
  destruct (decide (e ≠ currentExpression0)); destruct (Js.truthy m);
    unfold setTimeout; simpl.
  1, 2: eexists [_]; split; [shape_tac|repeat split; auto].
  1, 2: exists []; split; [shape_tac|repeat split; auto].
Qed.

Lemma run_handler_spec (h : handler) (s : state) :
  let s' := run_handler h s in
  ∃ extra,
    shape s s' (hoverTimeout s) extra
    ∧ isLocked s' = isLocked s
    ∧ bubble_color s' = bubble_color s
    ∧ currentExpression s' = currentExpression s
    ∧ (isLocked s = true → bubble_text s' = bubble_text s)
    ∧ ((hoverTimeout s' = hoverTimeout s
        ∧ (∃ sel, h = OnMouseEnter sel)
        ∧ (extra = [] ∨ isLocked s = false ∧ ∃ e, extra = [fade_timer e s]))
       ∨ (h = OnMouseLeave
          ∧ hoverTimeout s' = Some (next_id s)
          ∧ extra = [reset_timer 300 s])).
Proof.
  destruct h as [sel|]; cbn [run_handler].
  - set (s1 := clearTimeout (hoverTimeout s) s).
    assert (H1 : timers s1 = cancel_opt (hoverTimeout s) (timers s)
                 ∧ next_id s1 = next_id s ∧ now s1 = now s
                 ∧ hoverTimeout s1 = hoverTimeout s ∧ isLocked s1 = isLocked s
                 ∧ bubble_color s1 = bubble_color s
                 ∧ currentExpression s1 = currentExpression s
                 ∧ bubble_text s1 = bubble_text s).
    { subst s1. destruct s. fields. destruct hoverTimeout0; repeat split. }
    destruct H1 as (Ht & Hn & Hnow & Hh & Hl & Hc & He & Hb).
    destruct (expressionMap_get sel) as [cfg|].
    + destruct (changeMascotExpression_spec (cfg_expression cfg)
                  (cfg_message cfg) s1)
        as (extra & [St Sn Si Snow] & Hh' & Hl' & Hc' & He' & Hex).
      exists extra. split.
      { split; [rewrite St, Ht|rewrite Sn, Hn|rewrite Si, Hn|rewrite Snow];
          auto. }
      split; [congruence|]. split; [congruence|]. split; [congruence|].
      split.
      { intros Hk. rewrite changeMascotExpression_locked by congruence.
        exact Hb. }
      left. split; [congruence|]. split; [eauto|].
      destruct Hex as [->|[Hk ->]]; [now left|right].
      split; [congruence|]. exists (cfg_expression cfg).
      unfold fade_timer. now rewrite Hn, Hnow.
    + exists []. split.
      { split; rewrite ?app_nil_r, ?Nat.add_0_r; auto. }
      repeat split; auto. left. repeat split; eauto.
  - destruct s. unfold clearTimeout, setTimeout, reset_timer. fields.
    destruct hoverTimeout0; cbn;
      (eexists [_]; split; [shape_tac|repeat split; auto]).
Qed.

Lemma resetMascot_spec (s : state) :
  let s' := resetMascot s in
  ∃ extra,
    shape s s' None extra
    ∧ hoverTimeout s' = hoverTimeout s
    ∧ isLocked s' = isLocked s
    ∧ bubble_color s' = bubble_color s
    ∧ currentExpression s' = currentExpression s
    ∧ (isLocked s = true → s' = s)
    ∧ (extra = [] ∨ isLocked s = false ∧ extra = [fade_timer standing s]).
Proof.
  unfold resetMascot. destruct (isLocked s) eqn:Hl.
  - exists []. split; [split; rewrite ?app_nil_r, ?Nat.add_0_r; auto|].
    repeat split; auto.
  - destruct (changeMascotExpression_spec standing defaultMessage s)
      as (extra & Hs & Hh & Hl' & Hc & He & Hex).
    exists extra. split; [exact Hs|]. split; [exact Hh|].
    split; [congruence|]. split; [exact Hc|]. split; [exact He|].
    split; [intros; discriminate|]. rewrite Hl in Hex. exact Hex.
Qed.

(** The score check, as the start-up callback runs it: it locks and leaves
    [Unlock] pending, or congratulates and leaves a reset pending, or does
    nothing. *)
Lemma checkScores_spec (s : state) :
  isLocked s = false →
  let s' := checkScores s in
  ∃ extra,
    shape s s' None extra
    ∧ hoverTimeout s' = hoverTimeout s
    ∧ currentExpression s' = currentExpression s
    ∧ doc s' = doc s
    ∧ ((fst (scoreDecision (doc s)) = true
        ∧ extra = [Timer (next_id s) (now s + 5000) Unlock None]
        ∧ isLocked s' = true
        ∧ bubble_color s' = "#dc2626"
        ∧ bubble_text s' = bubble_text s)
       ∨ (fst (scoreDecision (doc s)) = false
          ∧ isLocked s' = false
          ∧ bubble_color s' = bubble_color s
          ∧ (extra = []
             ∨ extra = [reset_timer 3000 s]
             ∨ extra = [fade_timer happy s;
                        Timer (S (next_id s)) (now s + 3000) ResetMascot None]))).
Proof.
  intros Hl. unfold checkScores.
  destruct (scoreDecision (doc s)) as [[|] m] eqn:Hd.
  - rewrite changeMascotExpression_locked by (destruct s; reflexivity).
    destruct s. unfold setTimeout. fields. cbn.
    eexists [_]. split; [shape_tac|]. do 3 (split; [reflexivity|]).
    left. repeat split.
  - destruct (Js.nonnull _ || Js.nonnull _).
    + unfold changeMascotExpression. rewrite Hl.
      destruct s. unfold setTimeout, reset_timer, fade_timer. fields. cbn.
      cbn in Hl. subst.
      destruct (decide (happy ≠ currentExpression0)); cbn.
      * exists [Timer next_id0 (now0 + 150) (FadeTo happy) None;
                Timer (S next_id0) (now0 + 3000) ResetMascot None].
        split; [shape_tac|]. do 3 (split; [reflexivity|]).
        right. repeat split. right. right. reflexivity.
      * eexists [_]. split; [shape_tac|]. do 3 (split; [reflexivity|]).
        right. repeat split. right. left. reflexivity.
    + exists []. split; [split; rewrite ?app_nil_r, ?Nat.add_0_r; auto|].
      do 3 (split; [reflexivity|]). right. repeat split; auto.
Qed.

Lemma setupHoverDetection_fields (s : state) :
  let s' := setupHoverDetection s in
  timers s' = timers s ∧ next_id s' = next_id s ∧ now s' = now s
  ∧ hoverTimeout s' = hoverTimeout s ∧ isLocked s' = isLocked s
  ∧ bubble_color s' = bubble_color s ∧ bubble_text s' = bubble_text s
  ∧ currentExpression s' = currentExpression s.
Proof. destruct s. repeat split. Qed.

Lemma pre_fields (tm : timer) (s : state) :
  let s' := pre tm s in
  timers s' = rearm tm (timers s) ∧ next_id s' = next_id s
  ∧ now s' = Z.max (now s) (tm_due tm)
  ∧ hoverTimeout s' = hoverTimeout s ∧ isLocked s' = isLocked s
  ∧ bubble_color s' = bubble_color s ∧ bubble_text s' = bubble_text s
  ∧ currentExpression s' = currentExpression s ∧ doc s' = doc s.
Proof. destruct s. repeat split. Qed.

(** *** Handles stay fresh *)

Lemma shape_elem (s s' : state) (h : option nat) (extra : list timer)
    (tm : timer) :
  shape s s' h extra → tm ∈ timers s' →
  (tm ∈ timers s ∧ h ≠ Some (tm_id tm))
  ∨ (tm ∈ extra ∧ next_id s ≤ tm_id tm < next_id s').
Proof.
  intros [Ht Hn Hi _] Hin. rewrite Ht in Hin.
  apply elem_of_app in Hin as [Hin|Hin].
  - left. now apply elem_of_cancel_opt.
  - right. split; [exact Hin|].
    assert (Hid : tm_id tm ∈ tm_id <$> extra) by now apply list_elem_of_fmap_2.
    rewrite Hi in Hid. apply elem_of_seq in Hid. lia.
Qed.

Lemma shape_next (s s' : state) (h : option nat) (extra : list timer) :
  shape s s' h extra → next_id s ≤ next_id s'.
Proof. intros [_ Hn _ _]. lia. Qed.

Lemma wf_shape (s s' : state) (h : option nat) (extra : list timer) :
  wf s → shape s s' h extra →
  (hoverTimeout s' = hoverTimeout s
   ∨ (hoverTimeout s' = Some (next_id s)
      ∧ ∃ tm, extra = [tm] ∧ tm_cb tm = ResetMascot)) →
  wf s'.
Proof.
  intros [Hids Hnd Hhov Hhan] Hs Hh.
  pose proof (shape_next _ _ _ _ Hs) as Hle.
  split.
  - intros tm Hin. destruct (shape_elem _ _ _ _ tm Hs Hin) as [[Ho _]|[_ ?]].
    + specialize (Hids tm Ho). lia.
    + lia.
  - destruct Hs as [Ht Hn Hi _]. rewrite Ht, fmap_app. apply NoDup_app.
    split; [now apply NoDup_cancel_opt|]. split.
    + intros x Hx Hx'. rewrite Hi in Hx'. apply elem_of_seq in Hx'.
      apply list_elem_of_fmap in Hx as (tm & -> & Htm).
      apply elem_of_cancel_opt in Htm as [Htm _].
      specialize (Hids tm Htm). lia.
    + rewrite Hi. apply NoDup_seq.
  - intros k Hk. destruct Hh as [Hh|(Hh & x & -> & _)]; rewrite Hh in Hk.
    + specialize (Hhov k Hk). lia.
    + injection Hk as <-. destruct Hs as [_ Hn Hi _]. simpl in Hn. lia.
  - intros tm Hin Hk.
    destruct (shape_elem _ _ _ _ tm Hs Hin) as [[Ho _]|[He Hr]];
      destruct Hh as [Hh|(Hh & x & -> & Hx)]; rewrite Hh in Hk.
    + exact (Hhan tm Ho Hk).
    + injection Hk as Hk. specialize (Hids tm Ho). lia.
    + specialize (Hhov _ Hk). lia.
    + apply list_elem_of_singleton in He. now subst.
Qed.

Lemma rearm_elem (tm x : timer) (l : list timer) :
  x ∈ rearm tm l →
  (x ∈ l ∧ tm_id x ≠ tm_id tm)
  ∨ (tm_id x = tm_id tm ∧ tm_cb x = tm_cb tm ∧ tm_every tm ≠ None
     ∧ tm_every x = tm_every tm).
Proof.
  unfold rearm. destruct (tm_every tm) as [p|] eqn:E.
  - intros H. apply elem_of_app in H as [H|H].
    + left. now apply elem_of_cancel.
    + right. apply list_elem_of_singleton in H. subst x. now repeat split.
  - intros H. left. now apply elem_of_cancel.
Qed.

Lemma NoDup_rearm (tm : timer) (l : list timer) :
  NoDup (tm_id <$> l) → NoDup (tm_id <$> rearm tm l).
Proof.
  intros H. unfold rearm. destruct (tm_every tm).
  - rewrite fmap_app. apply NoDup_app. split; [now apply NoDup_cancel|].
    split; [|apply NoDup_singleton].
    intros x Hx Hx'. apply list_elem_of_singleton in Hx'. subst x.
    apply list_elem_of_fmap in Hx as (y & Hy & Hin).
    apply elem_of_cancel in Hin as [_ Hne]. simpl in Hy. congruence.
  - now apply NoDup_cancel.
Qed.

(** Two pending timers with the same handle are the same timer. *)
Lemma same_id (l : list timer) (x y : timer) :
  NoDup (tm_id <$> l) → x ∈ l → y ∈ l → tm_id x = tm_id y → x = y.
Proof.
  induction l as [|a l IH]; intros Hn Hx Hy E; [now apply elem_of_nil in Hx|].
  rewrite fmap_cons in Hn. apply NoDup_cons in Hn as [Ha Hn].
  apply elem_of_cons in Hx as [->|Hx]; apply elem_of_cons in Hy as [->|Hy].
  - reflexivity.
  - exfalso. apply Ha. rewrite E. now apply list_elem_of_fmap_2.
  - exfalso. apply Ha. rewrite <- E. now apply list_elem_of_fmap_2.
  - now apply IH.
Qed.

Lemma wf_pre (tm : timer) (s : state) : wf s → tm ∈ timers s → wf (pre tm s).
Proof.
  intros [Hids Hnd Hhov Hhan] Hin.
  destruct (pre_fields tm s) as (Ht & Hn & _ & Hh & _).
  split.
  - intros x Hx. rewrite Ht in Hx. rewrite Hn.
    apply rearm_elem in Hx as [[Hx _]|[E _]]; [auto|].
    rewrite E. auto.
  - rewrite Ht. now apply NoDup_rearm.
  - rewrite Hh, Hn. exact Hhov.
  - intros x Hx Hk. rewrite Ht in Hx. rewrite Hh in Hk.
    apply rearm_elem in Hx as [[Hx _]|(E & Ec & _)]; [auto|].
    rewrite Ec. apply Hhan; [exact Hin|]. now rewrite <- E.
Qed.

Lemma wf_run_handler (h : handler) (s : state) : wf s → wf (run_handler h s).
Proof.
  intros Hw.
  destruct (run_handler_spec h s) as (extra & Hs & _ & _ & _ & _ & Hc).
  apply (wf_shape _ _ _ _ Hw Hs).
  destruct Hc as [(Hh & _)|(_ & Hh & ->)]; [now left|right].
  split; [exact Hh|]. eexists. split; reflexivity.
Qed.

Lemma wf_same_timers (s s' : state) :
  timers s' = timers s → next_id s' = next_id s →
  hoverTimeout s' = hoverTimeout s → wf s → wf s'.
Proof.
  intros Ht Hn Hh [Hids Hnd Hhov Hhan].
  split; rewrite ?Ht, ?Hn, ?Hh; assumption.
Qed.

Lemma wf_run_callback (cb : callback) (s : state) :
  cb ≠ Startup → wf s → wf (run_callback cb s).
Proof.
  intros Hcb Hw. destruct cb; try congruence; cbn [run_callback].
  - destruct s. revert Hw. apply wf_same_timers; reflexivity.
  - destruct (resetMascot_spec s) as (extra & Hs & Hh & _).
    apply (wf_shape _ _ _ _ Hw Hs). now left.
  - destruct s. revert Hw. apply wf_same_timers; reflexivity.
  - destruct s. revert Hw. apply wf_same_timers; reflexivity.
Qed.

Lemma wf_fire (tm : timer) (s : state) :
  tm_cb tm ≠ Startup → wf s → tm ∈ timers s → wf (fire tm s).
Proof.
  intros Hcb Hw Hin. rewrite fire_pre.
  apply wf_run_callback; [exact Hcb|]. now apply wf_pre.
Qed.

Lemma wf_dispatch (ty : event_type) (i : nat) (s : state) :
  wf s → wf (dispatch ty i s).
Proof.
  unfold dispatch. destruct (doc s !! i) as [e|]; [|trivial].
  generalize (listeners_for ty e). intros hs. revert s.
  induction hs as [|h hs IH]; intros s Hw; [exact Hw|].
  cbn [foldl]. apply IH. now apply wf_run_handler.
Qed.

(** *** Resets stay tracked *)

Lemma settled_shape (base : list nat) (s s' : state) (h : option nat)
    (extra : list timer) :
  settled base s → shape s s' h extra →
  (∀ tm, tm ∈ extra → tm_cb tm ≠ Startup) →
  ((hoverTimeout s' = hoverTimeout s
    ∧ ∀ tm, tm ∈ extra → tm_cb tm ≠ ResetMascot)
   ∨ (h = hoverTimeout s
      ∧ hoverTimeout s' = Some (next_id s)
      ∧ ∃ tm, extra = [tm] ∧ tm_cb tm = ResetMascot)) →
  settled base s'.
Proof.
  intros [Hw Hst [Hb Hr]] Hs Hex Hh.
  pose proof (shape_next _ _ _ _ Hs) as Hle.
  split.
  - apply (wf_shape _ _ _ _ Hw Hs).
    destruct Hh as [[Hh _]|(_ & Hh & Hx)]; [now left|now right].
  - intros tm Hin. destruct (shape_elem _ _ _ _ tm Hs Hin) as [[Ho _]|[He _]].
    + exact (Hst tm Ho).
    + exact (Hex tm He).
  - split.
    + intros r Hr'. specialize (Hb r Hr'). lia.
    + intros tm Hin Hcb.
      destruct (shape_elem _ _ _ _ tm Hs Hin) as [[Ho Hne]|[He Hrange]];
        destruct Hh as [[Hh Hnr]|(-> & Hh & x & -> & Hx)]; rewrite Hh.
      * exact (Hr tm Ho Hcb).
      * destruct (Hr tm Ho Hcb) as [?|?]; [now left|contradiction].
      * now destruct (Hnr tm He).
      * right. f_equal. destruct Hs as [_ _ Hi _]. simpl in Hi.
        apply list_elem_of_singleton in He. subst x. congruence.
Qed.

Lemma settled_same_timers (base : list nat) (s s' : state) :
  timers s' = timers s → next_id s' = next_id s →
  hoverTimeout s' = hoverTimeout s → settled base s → settled base s'.
Proof.
  intros Ht Hn Hh [Hw Hst [Hb Hr]]. split.
  - revert Hw. now apply wf_same_timers.
  - unfold started. now rewrite Ht.
  - split; rewrite ?Ht, ?Hn, ?Hh; assumption.
Qed.

Lemma settled_pre (base : list nat) (tm : timer) (s : state) :
  settled base s → tm ∈ timers s → settled base (pre tm s).
Proof.
  intros [Hw Hst [Hb Hr]] Hin.
  destruct (pre_fields tm s) as (Ht & Hn & _ & Hh & _).
  split.
  - now apply wf_pre.
  - intros x Hx. rewrite Ht in Hx.
    apply rearm_elem in Hx as [[Hx _]|(_ & -> & _)]; auto.
  - split; [now rewrite Hn|].
    intros x Hx Hcb. rewrite Ht in Hx. rewrite Hh.
    apply rearm_elem in Hx as [[Hx _]|(E & Ec & _)]; [auto|].
    rewrite E. apply Hr; [exact Hin|congruence].
Qed.

Lemma settled_run_handler (base : list nat) (h : handler) (s : state) :
  settled base s → settled base (run_handler h s).
Proof.
  intros Hg.
  destruct (run_handler_spec h s) as (extra & Hs & _ & _ & _ & _ & Hc).
  apply (settled_shape _ _ _ _ _ Hg Hs).
  - intros tm Hin.
    destruct Hc as [(_ & _ & [->|(_ & e & ->)])|(_ & _ & ->)];
      [now apply elem_of_nil in Hin| |];
      apply list_elem_of_singleton in Hin; subst tm; discriminate.
  - destruct Hc as [(Hh & _ & Hex)|(_ & Hh & ->)]; [left|right].
    + split; [exact Hh|]. intros tm Hin.
      destruct Hex as [->|(_ & e & ->)]; [now apply elem_of_nil in Hin|].
      apply list_elem_of_singleton in Hin. subst tm. discriminate.
    + split; [reflexivity|]. split; [exact Hh|].
      eexists. split; reflexivity.
Qed.

Lemma settled_dispatch (base : list nat) (ty : event_type) (i : nat)
    (s : state) :
  settled base s → settled base (dispatch ty i s).
Proof.
  unfold dispatch. destruct (doc s !! i) as [e|]; [|trivial].
  generalize (listeners_for ty e). intros hs. revert s.
  induction hs as [|h hs IH]; intros s Hg; [exact Hg|].
  cbn [foldl]. apply IH. now apply settled_run_handler.
Qed.

Lemma settled_fire (base : list nat) (tm : timer) (s : state) :
  settled base s → tm ∈ timers s → settled base (fire tm s).
Proof.
  intros Hg Hin. rewrite fire_pre.
  assert (Hcb : tm_cb tm ≠ Startup) by (apply (st_started _ _ Hg), Hin).
  pose proof (settled_pre base tm s Hg Hin) as Hp.
  set (s1 := pre tm s) in *. clearbody s1.
  destruct (tm_cb tm); try congruence; cbn [run_callback].
  - destruct s1. revert Hp. apply settled_same_timers; reflexivity.
  - destruct (resetMascot_spec s1) as (extra & Hs & Hh & _ & _ & _ & _ & Hex).
    apply (settled_shape _ _ _ _ _ Hp Hs).
    + intros x Hx. destruct Hex as [->|(_ & ->)];
        [now apply elem_of_nil in Hx|].
      apply list_elem_of_singleton in Hx. subst x. discriminate.
    + left. split; [exact Hh|]. intros x Hx.
      destruct Hex as [->|(_ & ->)]; [now apply elem_of_nil in Hx|].
      apply list_elem_of_singleton in Hx. subst x. discriminate.
  - destruct s1. revert Hp. apply settled_same_timers; reflexivity.
  - destruct s1. revert Hp. apply settled_same_timers; reflexivity.
Qed.

Lemma settled_step (base : list nat) (s s' : state) :
  settled base s → step s s' → settled base s'.
Proof.
  intros Hg [tm Hin|ty i|t].
  - now apply settled_fire.
  - now apply settled_dispatch.
  - destruct s. revert Hg. apply settled_same_timers; reflexivity.
Qed.

Lemma settled_steps (base : list nat) (s s' : state) :
  settled base s → rtc step s s' → settled base s'.
Proof.
  intros Hg Hr. induction Hr as [|x y z Hxy _ IH]; [exact Hg|].
  apply IH. now apply (settled_step base x y).
Qed.

(** *** The clock *)

Lemma earliest_in (l : list timer) (tm : timer) :
  earliest l = Some tm → tm ∈ l.
Proof.
  revert tm. induction l as [|a l IH]; intros tm; [discriminate|].
  cbn [earliest]. destruct (earliest l) as [u|].
  - destruct (tm_due u <? tm_due a)%Z; intros [= <-].
    + apply elem_of_cons. right. now apply IH.
    + apply elem_of_cons. now left.
  - intros [= <-]. apply elem_of_cons. now left.
Qed.

Lemma earliest_le (l : list timer) (tm : timer) :
  earliest l = Some tm → ∀ x, x ∈ l → (tm_due tm ≤ tm_due x)%Z.
Proof.
  revert tm. induction l as [|a l IH]; intros tm; [discriminate|].
  cbn [earliest]. destruct (earliest l) as [u|] eqn:E.
  - destruct (tm_due u <? tm_due a)%Z eqn:C; intros [= <-] x Hx;
      apply elem_of_cons in Hx as [->|Hx]; try lia;
      specialize (IH u eq_refl x Hx); lia.
  - intros [= <-] x Hx. apply elem_of_cons in Hx as [->|Hx]; [lia|].
    destruct l; [now apply elem_of_nil in Hx|].
    cbn [earliest] in E. destruct (earliest l); [destruct (_ <? _)%Z|];
      discriminate.
Qed.

Lemma earliest_None (l : list timer) : earliest l = None → l = [].
Proof.
  destruct l as [|a l]; [reflexivity|]. cbn [earliest].
  destruct (earliest l); [destruct (_ <? _)%Z|]; discriminate.
Qed.

Lemma advance_to_fire (fuel : nat) (t : Z) (s : state) (tm : timer) :
  earliest (timers s) = Some tm → (tm_due tm ≤ t)%Z →
  advance_to (S fuel) t s = advance_to fuel t (fire tm s).
Proof.
  intros E Hle. cbn [advance_to]. rewrite E.
  destruct (Z.leb_spec (tm_due tm) t); [reflexivity|lia].
Qed.

Lemma advance_to_stop (fuel : nat) (t : Z) (s : state) :
  (∀ tm, tm ∈ timers s → (t < tm_due tm)%Z) →
  advance_to (S fuel) t s = Some (set_now (Z.max (now s) t) s).
Proof.
  intros H. cbn [advance_to]. destruct (earliest (timers s)) as [tm|] eqn:E;
    [|reflexivity].
  specialize (H tm (earliest_in _ _ E)).
  destruct (Z.leb_spec (tm_due tm) t); [lia|reflexivity].
Qed.

(** *** The state the start-up callback leaves *)

Lemma startup_total (p : page) (m : img) (c : caption) :
  pg_mascot p = Some m → pg_bubble p = Some c →
  ∃ b,
    isLocked b = false
    ∧ timers b = [Timer 2 3000 Rescan (Some 3000%Z)]
    ∧ next_id b = 3
    ∧ now b = 500%Z
    ∧ hoverTimeout b = None
    ∧ currentExpression b = standing
    ∧ bubble_text b = defaultMessage
    ∧ doc b = pg_doc p
    ∧ after [Wait 500] p
      = Some (set_now 500 (setupHoverDetection (checkScores b))).
Proof.
  intros Hm Hc. unfold after, main. rewrite Hm, Hc.
  set (s0 := snd (setInterval Rescan 3000 _)).
  cbn [run].
  set (tm := Timer 1 500 Startup None).
  rewrite (advance_to_fire 63 _ s0 tm) by (reflexivity || (cbn; lia)).
  rewrite fire_pre. cbn [tm_cb tm run_callback].
  set (b := pre tm s0).
  assert (Hb : isLocked b = false
               ∧ timers b = [Timer 2 3000 Rescan (Some 3000%Z)]
               ∧ next_id b = 3 ∧ now b = 500%Z ∧ hoverTimeout b = None
               ∧ currentExpression b = standing
               ∧ bubble_text b = defaultMessage ∧ doc b = pg_doc p)
    by (repeat split).
  destruct Hb as (Hl & Ht & Hn & Hnow & Hh & He & Htx & Hd).
  destruct (checkScores_spec b Hl) as (extra & Hs & _ & _ & _ & Hcase).
  destruct (setupHoverDetection_fields (checkScores b))
    as (Ht' & _ & Hnow' & _).
  exists b. do 8 (split; [assumption|]).
  rewrite advance_to_stop.
  - do 2 f_equal. rewrite Hnow', (sh_now _ _ _ _ Hs), Hnow. reflexivity.
  - intros x Hx. rewrite Ht', (sh_timers _ _ _ _ Hs), Ht in Hx.
    cbn [cancel_opt] in Hx. change (now s0 + 500)%Z with 500%Z.
    apply elem_of_app in Hx as [Hx|Hx].
    + apply list_elem_of_singleton in Hx. subst x. cbn. lia.
    + destruct Hcase as [(_ & -> & _) | (_ & _ & _ & [-> | [-> | ->]])];
        unfold reset_timer, fade_timer in Hx; rewrite ?Hnow in Hx;
        elem_cases Hx; cbn; lia.
Qed.

Lemma startup (p : page) (s1 : state) :
  after [Wait 500] p = Some s1 →
  ∃ b,
    isLocked b = false
    ∧ timers b = [Timer 2 3000 Rescan (Some 3000%Z)]
    ∧ next_id b = 3
    ∧ now b = 500%Z
    ∧ hoverTimeout b = None
    ∧ currentExpression b = standing
    ∧ bubble_text b = defaultMessage
    ∧ doc b = pg_doc p
    ∧ s1 = set_now 500 (setupHoverDetection (checkScores b)).
Proof.
  intros H.
  destruct (pg_mascot p) as [m|] eqn:Hm;
    [|unfold after, main in H; rewrite Hm in H; discriminate].
  destruct (pg_bubble p) as [c|] eqn:Hc;
    [|unfold after, main in H; rewrite Hm, Hc in H; discriminate].
  destruct (startup_total p m c Hm Hc)
    as (b & H1 & H2 & H3 & H4 & H5 & H6 & H7 & H8 & H9).
  exists b. do 8 (split; [assumption|]). congruence.
Qed.

Lemma tracked_self (s : state) : wf s → tracked (tm_id <$> resets s) s.
Proof.
  intros Hw. split.
  - intros r Hr. apply list_elem_of_fmap in Hr as (tm & -> & Htm).
    apply list_elem_of_filter in Htm as [_ Htm]. now apply (wf_ids _ Hw).
  - intros tm Hin Hcb. left. apply list_elem_of_fmap_2.
    now apply list_elem_of_filter.
Qed.

Lemma startup_settled (p : page) (s1 : state) :
  after [Wait 500] p = Some s1 →
  settled (tm_id <$> resets s1) s1 ∧ length (resets s1) ≤ 1.
Proof.
  intros H. apply startup in H
    as (b & Hl & Ht & Hn & Hnow & Hh & _ & _ & _ & ->).
  destruct (checkScores_spec b Hl) as (extra & Hs & Hh' & _ & _ & Hc).
  set (s1 := set_now 500 (setupHoverDetection (checkScores b))).
  assert (Hf : timers s1 = timers (checkScores b)
               ∧ next_id s1 = next_id (checkScores b)
               ∧ hoverTimeout s1 = hoverTimeout (checkScores b)).
  { subst s1. destruct (checkScores b). repeat split. }
  destruct Hf as (Ht1 & Hn1 & Hh1).
  assert (Hwb : wf b).
  { split; rewrite ?Ht, ?Hn, ?Hh.
    - intros tm Htm. elem_cases Htm. cbn. lia.
    - cbn. apply NoDup_singleton.
    - discriminate.
    - discriminate. }
  assert (Hw : wf s1).
  { apply (wf_same_timers (checkScores b)); try assumption.
    apply (wf_shape _ _ _ _ Hwb Hs). now left. }
  assert (Hex : extra = [] ∨ (∃ x, extra = [x] ∧ tm_cb x ≠ Startup)
                ∨ (∃ x y, extra = [x; y] ∧ tm_cb x = FadeTo happy
                          ∧ tm_cb y = ResetMascot)).
  { destruct Hc as [(_ & -> & _) | (_ & _ & _ & [-> | [-> | ->]])].
    - right. left. eexists. split; [reflexivity|discriminate].
    - now left.
    - right. left. eexists. split; [reflexivity|discriminate].
    - right. right. eexists _, _. repeat split. }
  assert (Htm : timers s1 = Timer 2 3000 Rescan (Some 3000%Z) :: extra).
  { rewrite Ht1, (sh_timers _ _ _ _ Hs), Ht. reflexivity. }
  split; [split|].
  - exact Hw.
  - intros tm Hin. rewrite Htm in Hin.
    destruct Hex as [-> | [(x & -> & Hx) | (x & y & -> & Hx & Hy)]];
      elem_cases Hin; cbn; congruence.
  - now apply tracked_self.
  - unfold resets. rewrite Htm.
    destruct Hex as [-> | [(x & -> & Hx) | (x & y & -> & Hx & Hy)]].
    + rewrite filter_cons_False by (cbn; discriminate). cbn. lia.
    + rewrite filter_cons_False by (cbn; discriminate).
      apply (length_filter _ [x]).
    + rewrite filter_cons_False by (cbn; discriminate).
      rewrite filter_cons_False by (rewrite Hx; discriminate).
      apply (length_filter _ [y]).
Qed.

(** *** At most one reset from a hover-leave *)

Lemma filter_at_most_one {A} (f : A → nat) (P : A → Prop)
    `{∀ x, Decision (P x)} (c : nat) (l : list A) :
  NoDup (f <$> l) → (∀ x, x ∈ l → P x → f x = c) →
  length (filter P l) ≤ 1.
Proof.
  induction l as [|a l IH]; intros Hn Hc; [cbn; lia|].
  rewrite fmap_cons in Hn. apply NoDup_cons in Hn as [Ha Hn].
  assert (Hc' : ∀ x, x ∈ l → P x → f x = c)
    by (intros x Hx; apply Hc, elem_of_cons; now right).
  destruct (decide (P a)) as [Hp|Hp].
  - rewrite filter_cons_True by assumption.
    assert (E : filter P l = []).
    { apply elem_of_nil_inv. intros x Hx.
      apply list_elem_of_filter in Hx as [Hpx Hx]. apply Ha.
      rewrite (Hc a) by (try apply elem_of_cons; auto).
      rewrite <- (Hc' x Hx Hpx). now apply list_elem_of_fmap_2. }
    rewrite E. cbn. lia.
  - rewrite filter_cons_False by assumption. now apply IH.
Qed.

Lemma filter_bounded {A} (f : A → nat) (P : A → Prop)
    `{∀ x, Decision (P x)} (R : list nat) (l : list A) :
  NoDup (f <$> l) → (∀ x, x ∈ l → P x → f x ∈ R) →
  length (filter P l) ≤ length R.
Proof.
  intros Hn Hin. rewrite <- (length_fmap f). apply submseteq_length.
  apply NoDup_submseteq.
  - eapply sublist_NoDup; [exact Hn|]. apply fmap_sublist, sublist_filter.
  - intros x Hx. apply list_elem_of_fmap in Hx as (y & -> & Hy).
    apply list_elem_of_filter in Hy as [Hp Hy]. now apply Hin.
Qed.

Lemma filter_split {A} (P Q : A → Prop) `{∀ x, Decision (P x)}
    `{∀ x, Decision (Q x)} (l : list A) :
  length (filter P l)
  = length (filter (λ x, P x ∧ Q x) l) + length (filter (λ x, P x ∧ ¬ Q x) l).
Proof.
  induction l as [|a l IH]; [reflexivity|].
  destruct (decide (P a)) as [Hp|Hp]; [destruct (decide (Q a)) as [Hq|Hq]|].
  - rewrite (filter_cons_True P), (filter_cons_True (λ x, P x ∧ Q x)),
      (filter_cons_False (λ x, P x ∧ ¬ Q x)) by tauto. cbn. lia.
  - rewrite (filter_cons_True P), (filter_cons_False (λ x, P x ∧ Q x)),
      (filter_cons_True (λ x, P x ∧ ¬ Q x)) by tauto. cbn. lia.
  - rewrite (filter_cons_False P), (filter_cons_False (λ x, P x ∧ Q x)),
      (filter_cons_False (λ x, P x ∧ ¬ Q x)) by tauto. exact IH.
Qed.

Lemma hover_resets_tracked (base : list nat) (s : state) :
  settled base s →
  (∀ tm, tm ∈ hover_resets base s → hoverTimeout s = Some (tm_id tm))
  ∧ length (hover_resets base s) ≤ 1
  ∧ length (resets s) ≤ length base + 1.
Proof.
  intros [Hw _ [_ Hr]].
  assert (Ht : ∀ tm, tm ∈ timers s → tm_cb tm = ResetMascot ∧ tm_id tm ∉ base →
               hoverTimeout s = Some (tm_id tm)).
  { intros tm Hin [Hcb Hnb]. destruct (Hr tm Hin Hcb); [contradiction|easy]. }
  assert (H1 : length (hover_resets base s) ≤ 1).
  { unfold hover_resets. destruct (hoverTimeout s) as [h|] eqn:Hh.
    - apply (filter_at_most_one tm_id _ h); [apply (wf_nodup _ Hw)|].
      intros x Hx Hp. specialize (Ht x Hx Hp). congruence.
    - rewrite (proj2 (length_zero_iff_nil _)); [lia|].
      apply elem_of_nil_inv. intros x Hx.
      apply list_elem_of_filter in Hx as [Hp Hx].
      specialize (Ht x Hx Hp). discriminate. }
  split; [|split; [exact H1|]].
  - intros tm Hin. apply list_elem_of_filter in Hin as [Hp Hin]. now apply Ht.
  - unfold resets.
    rewrite (filter_split _ (λ tm, tm_id tm ∈ base)).
    fold (hover_resets base s).
    pose proof (filter_bounded tm_id
                  (λ tm, tm_cb tm = ResetMascot ∧ tm_id tm ∈ base) base
                  (timers s) (wf_nodup _ Hw)) as Hb.
    cbn beta in Hb. specialize (Hb ltac:(tauto)). lia.
Qed.

Lemma hover_resets_after_handler (base : list nat) (h : handler) (s : state) :
  settled base s →
  hover_resets base (run_handler h s)
  = match h with
    | OnMouseEnter _ => []
    | OnMouseLeave => [reset_timer 300 s]
    end.
Proof.
  intros Hg. destruct (hover_resets_tracked base s Hg) as (Ht & _ & _).
  destruct (run_handler_spec h s) as (extra & Hs & _ & _ & _ & _ & Hc).
  unfold hover_resets in *. rewrite (sh_timers _ _ _ _ Hs), filter_app.
  assert (E : filter (λ tm, tm_cb tm = ResetMascot ∧ tm_id tm ∉ base)
                (cancel_opt (hoverTimeout s) (timers s)) = []).
  { apply elem_of_nil_inv. intros x Hx.
    apply list_elem_of_filter in Hx as [Hp Hx].
    apply elem_of_cancel_opt in Hx as [Hx Hne]. apply Hne, Ht.
    now apply list_elem_of_filter. }
  rewrite E. cbn [app].
  destruct Hc as [(_ & [sel ->] & Hex)|(-> & _ & ->)].
  - destruct Hex as [->|(_ & e & ->)]; [reflexivity|].
    rewrite filter_cons_False; [reflexivity|].
    cbn. intros [? _]. discriminate.
  - rewrite filter_cons_True; [reflexivity|]. split; [reflexivity|]. cbn.
    intros Hin. pose proof (tr_base _ _ (st_tracked _ _ Hg) _ Hin). lia.
Qed.

(** C5, as the code has it.  On every page that has the mascot, the
    start-up callback runs, and from then on, whatever hover events and
    timers follow in whatever order: of the pending calls of [resetMascot]
    that were scheduled since, there is at most one, and it is the one
    [hoverTimeout] holds; when a mouseenter listener has run there is none,
    and when a mouseleave listener has run there is exactly the one it
    scheduled, 300 ms ahead.  The score check may have left one more call
    of [resetMascot] pending, which no listener clears, so that up to two
    are pending together. *)
Theorem hover_reset_is_single (p : page) (m : img) (c : caption) :
  pg_mascot p = Some m → pg_bubble p = Some c →
  ∃ s1,
    after [Wait 500] p = Some s1
    ∧ length (resets s1) ≤ 1
    ∧ ∀ s, rtc step s1 s →
        let base := tm_id <$> resets s1 in
        length (hover_resets base s) ≤ 1
        ∧ (∀ tm, tm ∈ hover_resets base s → hoverTimeout s = Some (tm_id tm))
        ∧ length (resets s) ≤ 2
        ∧ (∀ sel, hover_resets base (run_handler (OnMouseEnter sel) s) = [])
        ∧ hover_resets base (run_handler OnMouseLeave s) = [reset_timer 300 s].
Proof.
  intros Hm Hc.
  destruct (startup_total p m c Hm Hc) as (b & _ & _ & _ & _ & _ & _ & _ & _ & H1).
  eexists. split; [exact H1|].
  destruct (startup_settled p _ H1) as [Hg Hlen].
  split; [exact Hlen|].
  intros s Hsteps base. fold base in Hg.
  assert (Hb : length base ≤ 1) by (subst base; now rewrite length_fmap).
  pose proof (settled_steps base _ s Hg Hsteps) as Hg'.
  destruct (hover_resets_tracked base s Hg') as (Ht & Ho & Hr).
  split; [exact Ho|]. split; [exact Ht|].
  split; [lia|]. split.
  - intros sel. exact (hover_resets_after_handler base (OnMouseEnter sel) s Hg').
  - exact (hover_resets_after_handler base OnMouseLeave s Hg').
Qed.

(** On the page with an ATS score of 90: the pointer leaves the submit
    button right after start-up. *)
Lemma hover_reset_is_single_witness :
  ∃ s1,
    after [Wait 500] Samples.good_ats = Some s1
    ∧ length (hover_resets (tm_id <$> resets s1) (dispatch mouseleave 2 s1)) ≤ 1
    ∧ length (resets (dispatch mouseleave 2 s1)) ≤ 2.
Proof.
  destruct (hover_reset_is_single Samples.good_ats Samples.fox Samples.speech
              eq_refl eq_refl) as (s1 & H1 & _ & H).
  exists s1. split; [exact H1|].
  destruct (H (dispatch mouseleave 2 s1) (rtc_once _ _ (step_hover s1 _ _)))
    as (Ho & _ & Hr & _).
  split; [exact Ho|exact Hr].
Defined.

(** C5 as stated fails on the page with an ATS score of 90.  The score
    check leaves a [resetMascot] pending for 3500 ms; when the pointer
    leaves the submit button right after start-up, the listener schedules
    its own for 800 ms, and the two are pending together.  And the score
    check's reset does fire after a later hover-enter: the pointer enters
    the button at 3400 ms, and 100 ms later the caption is back to the
    default message. *)
Lemma two_resets_pending_together :
  (λ s, (λ tm, (tm_id tm, tm_due tm)) <$> resets s)
    <$> after [Wait 500; Hover mouseleave 2] Samples.good_ats
  = Some [(4, 3500%Z); (5, 800%Z)]
  ∧ (λ s, length (resets s))
      <$> after [Wait 500; Hover mouseleave 2] Samples.good_ats
    = Some 2
  ∧ bubble_text
      <$> after [Wait 500; Wait 2900; Hover mouseenter 2] Samples.good_ats
    = Some "Ready? Let's do this! 💪"
  ∧ bubble_text
      <$> after [Wait 500; Wait 2900; Hover mouseenter 2; Wait 100]
            Samples.good_ats
    = Some defaultMessage.
Proof.
  split; [vm_compute; reflexivity|].
  split; [vm_compute; reflexivity|].
  split; vm_compute; reflexivity.
Qed.

End EventLoop.

Section Lock.
Import Dom Mascot Loop.

Context (T : Z) (u : nat) (e0 : expression) (t0 : string).

Lemma locked_same (s s' : state) :
  timers s' = timers s → isLocked s' = isLocked s →
  currentExpression s' = currentExpression s →
  bubble_text s' = bubble_text s →
  locked T u e0 t0 s → locked T u e0 t0 s'.
Proof.
  intros Ht Hl He Hb [H1 H2 H3 H4 H5].
  split; rewrite ?Ht, ?Hl, ?He, ?Hb; assumption.
Qed.

Lemma locked_handle (s : state) :
  wf s → locked T u e0 t0 s → hoverTimeout s ≠ Some u.
Proof.
  intros Hw Hk Hh.
  pose proof (wf_handle _ Hw _ (lk_pending _ _ _ _ _ Hk) Hh). discriminate.
Qed.

Lemma locked_run_handler (h : handler) (s : state) :
  wf s → locked T u e0 t0 s → locked T u e0 t0 (run_handler h s).
Proof.
  intros Hw Hk. pose proof (locked_handle s Hw Hk) as Hne.
  destruct Hk as [Hf He Ht Hp Ho].
  destruct (run_handler_spec h s) as (extra & Hs & Hl & _ & Hx & Hb & Hc).
  assert (Hex : ∀ x, x ∈ extra → tm_cb x = ResetMascot).
  { intros x Hx'.
    destruct Hc as [(_ & _ & [->|(Hfl & _)])|(_ & _ & ->)].
    - now apply elem_of_nil in Hx'.
    - congruence.
    - elem_cases Hx'. reflexivity. }
  split.
  - congruence.
  - congruence.
  - rewrite Hb; assumption.
  - rewrite (sh_timers _ _ _ _ Hs). apply elem_of_app. left.
    apply elem_of_cancel_opt. split; [exact Hp|exact Hne].
  - intros x Hx'. destruct (shape_elem _ _ _ _ x Hs Hx') as [[Hold _]|[Hnew _]].
    + exact (Ho x Hold).
    + rewrite (Hex x Hnew). exact I.
Qed.

Lemma locked_dispatch (ty : event_type) (i : nat) (s : state) :
  wf s → locked T u e0 t0 s → locked T u e0 t0 (dispatch ty i s).
Proof.
  unfold dispatch. destruct (doc s !! i) as [e|]; [|trivial].
  generalize (listeners_for ty e). intros hs. revert s.
  induction hs as [|h hs IH]; intros s Hw Hk; [exact Hk|].
  cbn [foldl]. apply IH; [now apply wf_run_handler|now apply locked_run_handler].
Qed.

Lemma locked_pre (tm : timer) (s : state) :
  wf s → locked T u e0 t0 s → tm ∈ timers s → tm_cb tm ≠ Unlock →
  locked T u e0 t0 (pre tm s).
Proof.
  intros Hw [Hf He Ht Hp Ho] Hin Hcb.
  destruct (pre_fields tm s) as (Htm & _ & _ & _ & Hl & _ & Hb & Hx & _).
  assert (Hne : tm_id tm ≠ u).
  { intros E. apply Hcb.
    rewrite (same_id _ tm (Timer u T Unlock None) (wf_nodup _ Hw) Hin Hp E).
    reflexivity. }
  split; rewrite ?Htm, ?Hl, ?Hb, ?Hx; try assumption.
  - unfold rearm. destruct (tm_every tm); [apply elem_of_app; left|];
      apply elem_of_cancel; (split; [exact Hp|cbn; congruence]).
  - intros x Hx'. apply rearm_elem in Hx' as [[Hold _]|(_ & Ec & _)].
    + exact (Ho x Hold).
    + rewrite Ec. specialize (Ho tm Hin).
      destruct (tm_cb tm); try exact I; try contradiction; congruence.
Qed.

Lemma locked_fire (tm : timer) (s : state) :
  wf s → locked T u e0 t0 s → tm ∈ timers s → tm_cb tm ≠ Unlock →
  locked T u e0 t0 (fire tm s).
Proof.
  intros Hw Hk Hin Hcb. rewrite fire_pre.
  pose proof (locked_pre tm s Hw Hk Hin Hcb) as Hp.
  pose proof (lk_only _ _ _ _ _ Hk tm Hin) as Ho.
  set (s1 := pre tm s) in *. clearbody s1.
  destruct (tm_cb tm); try contradiction; try congruence; cbn [run_callback].
  - rewrite resetMascot_locked; [exact Hp|apply (lk_flag _ _ _ _ _ Hp)].
  - destruct s1. revert Hp. apply locked_same; reflexivity.
Qed.

Lemma unlock_fire (s : state) :
  wf s → locked T u e0 t0 s →
  unlocked T (fire (Timer u T Unlock None) s).
Proof.
  intros Hw [Hf He Ht Hp Ho]. rewrite fire_pre. cbn [tm_cb run_callback].
  set (tm := Timer u T Unlock None) in *.
  destruct (pre_fields tm s) as (Htm & _ & Hnow & _).
  set (s1 := pre tm s) in *. clearbody s1.
  assert (E : ∀ s1, timers (set_bubble_color "" (set_isLocked false s1)) = timers s1
              ∧ now (set_bubble_color "" (set_isLocked false s1)) = now s1)
    by (intros []; split; reflexivity).
  destruct (E s1) as [Et En].
  split.
  - destruct s1; reflexivity.
  - destruct s1; reflexivity.
  - rewrite En, Hnow. cbn. lia.
  - intros x Hx. rewrite Et, Htm in Hx. unfold rearm in Hx. cbn in Hx.
    apply elem_of_cancel in Hx as [Hx Hne]. specialize (Ho x Hx).
    destruct (tm_cb x); try contradiction; try (split; discriminate).
    subst x. now cbn in Hne.
Qed.

Lemma unlocked_same (s s' : state) :
  timers s' = timers s → isLocked s' = isLocked s →
  bubble_color s' = bubble_color s → (now s ≤ now s')%Z →
  unlocked T s → unlocked T s'.
Proof.
  intros Ht Hl Hc Hn [H1 H2 H3 H4].
  split; rewrite ?Ht, ?Hl, ?Hc; try assumption. lia.
Qed.

Lemma unlocked_shape (s s' : state) (h : option nat) (extra : list timer) :
  unlocked T s → shape s s' h extra →
  isLocked s' = isLocked s → bubble_color s' = bubble_color s →
  (∀ x, x ∈ extra → tm_cb x ≠ Unlock ∧ tm_cb x ≠ Startup) →
  unlocked T s'.
Proof.
  intros [H1 H2 H3 H4] Hs Hl Hc Hex.
  split; rewrite ?Hl, ?Hc, ?(sh_now _ _ _ _ Hs); try assumption.
  intros x Hx. destruct (shape_elem _ _ _ _ x Hs Hx) as [[Hold _]|[Hnew _]];
    auto.
Qed.

Lemma unlocked_run_handler (h : handler) (s : state) :
  unlocked T s → unlocked T (run_handler h s).
Proof.
  intros Hu.
  destruct (run_handler_spec h s) as (extra & Hs & Hl & Hc & _ & _ & Hcase).
  apply (unlocked_shape _ _ _ _ Hu Hs Hl Hc).
  intros x Hx.
  destruct Hcase as [(_ & _ & [->|(_ & e & ->)])|(_ & _ & ->)];
    elem_cases Hx; split; discriminate.
Qed.

Lemma unlocked_dispatch (ty : event_type) (i : nat) (s : state) :
  unlocked T s → unlocked T (dispatch ty i s).
Proof.
  unfold dispatch. destruct (doc s !! i) as [e|]; [|trivial].
  generalize (listeners_for ty e). intros hs. revert s.
  induction hs as [|h hs IH]; intros s Hu; [exact Hu|].
  cbn [foldl]. apply IH. now apply unlocked_run_handler.
Qed.

Lemma unlocked_fire (tm : timer) (s : state) :
  unlocked T s → tm ∈ timers s → unlocked T (fire tm s).
Proof.
  intros Hu Hin. rewrite fire_pre.
  destruct (ul_only _ _ Hu tm Hin) as [Hcb1 Hcb2].
  assert (Hp : unlocked T (pre tm s)).
  { destruct Hu as [H1 H2 H3 H4].
    destruct (pre_fields tm s) as (Htm & _ & Hnow & _ & Hl & Hc & _).
    split; rewrite ?Htm, ?Hl, ?Hc, ?Hnow; try assumption; [lia|].
    intros x Hx. apply rearm_elem in Hx as [[Hold _]|(_ & -> & _)]; auto. }
  set (s1 := pre tm s) in *. clearbody s1.
  destruct (tm_cb tm); try congruence; cbn [run_callback].
  - destruct s1. revert Hp. apply unlocked_same; reflexivity.
  - destruct (resetMascot_spec s1) as (extra & Hs & _ & Hl & Hc & _ & _ & Hex).
    apply (unlocked_shape _ _ _ _ Hp Hs Hl Hc).
    intros x Hx. destruct Hex as [->|(_ & ->)]; elem_cases Hx;
      split; discriminate.
  - destruct s1. revert Hp. apply unlocked_same; reflexivity.
Qed.

(** *** The lock along the clock *)

Lemma fire_now (tm : timer) (s : state) :
  tm_cb tm ≠ Startup → now (fire tm s) = Z.max (now s) (tm_due tm).
Proof.
  intros Hcb. rewrite fire_pre.
  destruct (pre_fields tm s) as (_ & _ & <- & _).
  set (s1 := pre tm s). clearbody s1.
  destruct (tm_cb tm); try congruence; cbn [run_callback].
  - destruct s1; reflexivity.
  - destruct (resetMascot_spec s1) as (extra & Hs & _). apply (sh_now _ _ _ _ Hs).
  - destruct s1; reflexivity.
  - destruct s1; reflexivity.
Qed.

Lemma run_handler_now (h : handler) (s : state) :
  now (run_handler h s) = now s.
Proof.
  destruct (run_handler_spec h s) as (extra & Hs & _). apply (sh_now _ _ _ _ Hs).
Qed.

Lemma dispatch_now (ty : event_type) (i : nat) (s : state) :
  now (dispatch ty i s) = now s.
Proof.
  unfold dispatch. destruct (doc s !! i) as [e|]; [|reflexivity].
  generalize (listeners_for ty e). intros hs. revert s.
  induction hs as [|h hs IH]; intros s; [reflexivity|].
  cbn [foldl]. rewrite IH. apply run_handler_now.
Qed.

Lemma wf_idle (t : Z) (s : state) : wf s → wf (set_now t s).
Proof. destruct s. apply wf_same_timers; reflexivity. Qed.

Lemma advance_unlocked (fuel : nat) (t : Z) (s s' : state) :
  wf s → unlocked T s → advance_to fuel t s = Some s' →
  wf s' ∧ unlocked T s'.
Proof.
  revert s. induction fuel as [|fuel IH]; intros s Hw Hu; [discriminate|].
  cbn [advance_to].
  assert (Hstop : Some (set_now (Z.max (now s) t) s) = Some s' →
                  wf s' ∧ unlocked T s').
  { intros [= <-]. split; [now apply wf_idle|].
    destruct s. revert Hu. apply unlocked_same; try reflexivity. cbn. lia. }
  destruct (earliest (timers s)) as [tm|] eqn:E; [|exact Hstop].
  destruct (tm_due tm <=? t)%Z; [|exact Hstop].
  pose proof (earliest_in _ _ E) as Hin.
  apply IH.
  - apply wf_fire; [apply (ul_only _ _ Hu tm Hin)|exact Hw|exact Hin].
  - now apply unlocked_fire.
Qed.

Lemma advance_locked_before (fuel : nat) (t : Z) (s s' : state) :
  (t < T)%Z → wf s → locked T u e0 t0 s → (now s < T)%Z →
  advance_to fuel t s = Some s' →
  wf s' ∧ locked T u e0 t0 s' ∧ (now s' < T)%Z.
Proof.
  intros Ht. revert s. induction fuel as [|fuel IH]; intros s Hw Hk Hn;
    [discriminate|].
  cbn [advance_to].
  assert (Hstop : Some (set_now (Z.max (now s) t) s) = Some s' →
                  wf s' ∧ locked T u e0 t0 s' ∧ (now s' < T)%Z).
  { intros [= <-]. split; [now apply wf_idle|]. split.
    - destruct s. revert Hk. apply locked_same; reflexivity.
    - destruct s. cbn in *. lia. }
  destruct (earliest (timers s)) as [tm|] eqn:E; [|exact Hstop].
  destruct (Z.leb_spec (tm_due tm) t) as [Hle|]; [|exact Hstop].
  pose proof (earliest_in _ _ E) as Hin.
  pose proof (lk_only _ _ _ _ _ Hk tm Hin) as Ho.
  assert (Hcb : tm_cb tm ≠ Unlock ∧ tm_cb tm ≠ Startup).
  { destruct (tm_cb tm) eqn:Ecb; try contradiction;
      try (split; discriminate).
    subst tm. cbn in Hle. lia. }
  destruct Hcb as [Hcb1 Hcb2].
  apply IH.
  - now apply wf_fire.
  - now apply locked_fire.
  - rewrite fire_now by assumption. lia.
Qed.

Lemma advance_locked_through (fuel : nat) (t : Z) (s s' : state) :
  (T ≤ t)%Z → wf s → locked T u e0 t0 s →
  advance_to fuel t s = Some s' →
  wf s' ∧ unlocked T s'.
Proof.
  intros Ht. revert s. induction fuel as [|fuel IH]; intros s Hw Hk;
    [discriminate|].
  pose proof (lk_pending _ _ _ _ _ Hk) as Hp.
  destruct (earliest (timers s)) as [tm|] eqn:E.
  - pose proof (earliest_le _ _ E _ Hp) as Hle. cbn in Hle.
    pose proof (earliest_in _ _ E) as Hin.
    rewrite (advance_to_fire fuel t s tm E) by lia.
    pose proof (lk_only _ _ _ _ _ Hk tm Hin) as Ho.
    destruct (tm_cb tm) eqn:Ecb; try contradiction.
    + apply IH; [apply wf_fire|apply locked_fire]; auto; congruence.
    + subst tm. apply advance_unlocked.
      * apply wf_fire; auto.
      * now apply unlock_fire.
    + apply IH; [apply wf_fire|apply locked_fire]; auto; congruence.
  - apply earliest_None in E. rewrite E in Hp. now apply elem_of_nil in Hp.
Qed.

Lemma phase_run (fuel : nat) (ins : list input) (s s' : state) :
  wf s → phase T u e0 t0 s → run fuel ins s = Some s' →
  wf s' ∧ phase T u e0 t0 s'.
Proof.
  revert s. induction ins as [|[ty i|ms] ins IH]; intros s Hw Hp; cbn [run].
  - intros [= <-]. now split.
  - apply IH; [now apply wf_dispatch|].
    destruct Hp as [[Hk Hn]|Hu]; [left|right].
    + split; [now apply locked_dispatch|]. now rewrite dispatch_now.
    + now apply unlocked_dispatch.
  - destruct (advance_to fuel (now s + ms) s) as [s1|] eqn:E; [|discriminate].
    destruct Hp as [[Hk Hn]|Hu].
    + destruct (Z.lt_ge_cases (now s + ms) T) as [Hlt|Hge].
      * destruct (advance_locked_before _ _ _ _ Hlt Hw Hk Hn E)
          as (Hw1 & Hk1 & Hn1).
        apply IH; [exact Hw1|]. left. now split.
      * destruct (advance_locked_through _ _ _ _ Hge Hw Hk E) as (Hw1 & Hu1).
        apply IH; [exact Hw1|]. now right.
    + destruct (advance_unlocked _ _ _ _ Hw Hu E) as (Hw1 & Hu1).
      apply IH; [exact Hw1|]. now right.
Qed.

Lemma phase_reading (s : state) :
  phase T u e0 t0 s →
  if (now s <? T)%Z
  then isLocked s = true ∧ currentExpression s = e0 ∧ bubble_text s = t0
  else isLocked s = false ∧ bubble_color s = "".
Proof.
  intros [[[Hf He Hb _ _] Hn]|[Hf Hc Hn _]];
    destruct (Z.ltb_spec (now s) T); try lia; auto.
Qed.

End Lock.

Section Termination.
Import Dom Mascot Loop.

Lemma potential_app (t : Z) (l k : list timer) :
  potential t (l ++ k) = potential t l + potential t k.
Proof. apply sum_list_with_app. Qed.

Lemma potential_cons (t : Z) (a : timer) (l : list timer) :
  potential t (a :: l) = weight t a + potential t l.
Proof. reflexivity. Qed.

Lemma potential_cancel_le (t : Z) (id : nat) (l : list timer) :
  potential t (cancel id l) ≤ potential t l.
Proof.
  induction l as [|a l IH]; [reflexivity|]. unfold cancel in *.
  destruct (decide (tm_id a ≠ id)).
  - rewrite filter_cons_True by assumption. rewrite !potential_cons. lia.
  - rewrite filter_cons_False by assumption. rewrite potential_cons. lia.
Qed.

Lemma potential_cancel (t : Z) (tm : timer) (l : list timer) :
  tm ∈ l → potential t (cancel (tm_id tm) l) + weight t tm ≤ potential t l.
Proof.
  induction l as [|a l IH]; intros Hin; [now apply elem_of_nil in Hin|].
  apply elem_of_cons in Hin as [<-|Hin].
  - pose proof (potential_cancel_le t (tm_id tm) l) as H.
    unfold cancel in *. rewrite filter_cons_False by tauto.
    rewrite potential_cons. lia.
  - specialize (IH Hin). unfold cancel in *.
    destruct (decide (tm_id a ≠ tm_id tm)).
    + rewrite filter_cons_True by assumption. rewrite !potential_cons. lia.
    + rewrite filter_cons_False by assumption. rewrite potential_cons. lia.
Qed.

Lemma weight_pos (t : Z) (tm : timer) :
  (tm_due tm ≤ t)%Z → 0 < weight t tm.
Proof.
  intros H. unfold weight.
  destruct (Z.leb_spec (tm_due tm) t); [|lia].
  apply Nat.neq_0_lt_0, Nat.pow_nonzero. discriminate.
Qed.

Lemma weight_later (t : Z) (tm x : timer) :
  (tm_due tm ≤ t)%Z → (tm_due tm + 150 ≤ tm_due x)%Z →
  3 * weight t x ≤ weight t tm.
Proof.
  intros H1 H2. unfold weight.
  destruct (Z.leb_spec (tm_due tm) t); [|lia].
  destruct (Z.leb_spec (tm_due x) t) as [Hx|Hx]; [|lia].
  change (3 * 3 ^ S (Z.to_nat ((t - tm_due x) / 150)))
    with (3 ^ S (S (Z.to_nat ((t - tm_due x) / 150)))).
  apply Nat.pow_le_mono_r; [discriminate|].
  assert ((t - tm_due x) / 150 + 1 ≤ (t - tm_due tm) / 150)%Z.
  { replace ((t - tm_due x) / 150 + 1)%Z
      with ((t - tm_due x + 1 * 150) / 150)%Z
      by (rewrite Z.div_add by lia; reflexivity).
    apply Z.div_le_mono; lia. }
  assert (0 ≤ (t - tm_due x) / 150)%Z by (apply Z.div_pos; lia).
  lia.
Qed.

(** What firing a timer does to the queue: the timer goes, and at most two
    come in, due 150 ms after it at least. *)
Lemma fire_news (tm : timer) (s : state) :
  tm_cb tm ≠ Startup →
  (∀ k, tm_every tm = Some k → (150 ≤ k)%Z) →
  ∃ news,
    timers (fire tm s) = cancel (tm_id tm) (timers s) ++ news
    ∧ length news ≤ 2
    ∧ ∀ x, x ∈ news →
        (tm_due tm + 150 ≤ tm_due x)%Z
        ∧ tm_cb x ≠ Startup
        ∧ ∀ k, tm_every x = Some k → (150 ≤ k)%Z.
Proof.
  intros Hcb Hper. rewrite fire_pre.
  destruct (pre_fields tm s) as (Htm & _ & Hnow & _).
  set (s1 := pre tm s) in *. clearbody s1.
  assert (Hr : ∃ r, rearm tm (timers s) = cancel (tm_id tm) (timers s) ++ r
                    ∧ length r ≤ 1
                    ∧ ∀ x, x ∈ r →
                        (tm_due tm + 150 ≤ tm_due x)%Z ∧ tm_cb x ≠ Startup
                        ∧ ∀ k, tm_every x = Some k → (150 ≤ k)%Z).
  { unfold rearm. destruct (tm_every tm) as [k|] eqn:E.
    - eexists [_]. split; [reflexivity|]. split; [cbn; lia|].
      intros x Hx. elem_cases Hx. cbn. specialize (Hper k eq_refl).
      split; [lia|]. split; [exact Hcb|]. intros k' [= <-]. exact Hper.
    - exists []. rewrite app_nil_r. split; [reflexivity|]. split; [cbn; lia|].
      intros x Hx. now apply elem_of_nil in Hx. }
  destruct Hr as (r & Hr & Hlen & Hall). rewrite Hr in Htm.
  assert (Hsame : timers (run_callback (tm_cb tm) s1) = timers s1 →
                  ∃ news,
                    timers (run_callback (tm_cb tm) s1)
                    = cancel (tm_id tm) (timers s) ++ news
                    ∧ length news ≤ 2
                    ∧ ∀ x, x ∈ news →
                        (tm_due tm + 150 ≤ tm_due x)%Z ∧ tm_cb x ≠ Startup
                        ∧ ∀ k, tm_every x = Some k → (150 ≤ k)%Z).
  { intros E. exists r. rewrite E, Htm. split; [reflexivity|].
    split; [lia|exact Hall]. }
  destruct (tm_cb tm) eqn:Ecb; try congruence; cbn [run_callback] in *.
  - apply Hsame. destruct s1; reflexivity.
  - destruct (resetMascot_spec s1) as (extra & Hs & _ & _ & _ & _ & _ & Hex).
    exists (r ++ extra). rewrite (sh_timers _ _ _ _ Hs), Htm.
    cbn [cancel_opt]. rewrite <- app_assoc. split; [reflexivity|].
    destruct Hex as [->|(_ & ->)].
    + rewrite app_nil_r. split; [lia|exact Hall].
    + split; [rewrite length_app; cbn; lia|].
      intros x Hx. apply elem_of_app in Hx as [Hx|Hx]; [now apply Hall|].
      elem_cases Hx. cbn. rewrite Hnow.
      split; [lia|]. split; [discriminate|]. discriminate.
  - apply Hsame. destruct s1; reflexivity.
  - apply Hsame. destruct s1; reflexivity.
Qed.

Lemma fire_decreases (t : Z) (tm : timer) (s : state) :
  quiet s → tm ∈ timers s → (tm_due tm ≤ t)%Z →
  potential t (timers (fire tm s)) < potential t (timers s).
Proof.
  intros Hq Hin Hle. destruct (Hq tm Hin) as [Hcb Hper].
  destruct (fire_news tm s Hcb Hper) as (news & -> & Hlen & Hall).
  rewrite potential_app.
  pose proof (potential_cancel t tm (timers s) Hin) as Hc.
  pose proof (weight_pos t tm Hle) as Hp.
  assert (Hn : 3 * potential t news ≤ 2 * weight t tm).
  { destruct news as [|a [|b [|]]]; rewrite ?potential_cons;
      change (potential t []) with 0.
    - lia.
    - pose proof (weight_later t tm a Hle
                    (proj1 (Hall a ltac:(apply elem_of_cons; now left)))).
      lia.
    - pose proof (weight_later t tm a Hle
                    (proj1 (Hall a ltac:(apply elem_of_cons; now left)))).
      pose proof (weight_later t tm b Hle
                    (proj1 (Hall b ltac:(apply elem_of_cons; right;
                                         apply elem_of_cons; now left)))).
      lia.
    - cbn in Hlen. lia. }
  lia.
Qed.

Lemma quiet_fire (tm : timer) (s : state) :
  quiet s → tm ∈ timers s → quiet (fire tm s).
Proof.
  intros Hq Hin. destruct (Hq tm Hin) as [Hcb Hper].
  destruct (fire_news tm s Hcb Hper) as (news & Ht & _ & Hall).
  intros x Hx. rewrite Ht in Hx. apply elem_of_app in Hx as [Hx|Hx].
  - apply elem_of_cancel in Hx as [Hx _]. exact (Hq x Hx).
  - destruct (Hall x Hx) as (_ & ? & ?). now split.
Qed.

Lemma quiet_run_handler (h : handler) (s : state) :
  quiet s → quiet (run_handler h s).
Proof.
  intros Hq x Hx.
  destruct (run_handler_spec h s) as (extra & Hs & _ & _ & _ & _ & Hc).
  destruct (shape_elem _ _ _ _ x Hs Hx) as [[Hold _]|[Hnew _]];
    [exact (Hq x Hold)|].
  destruct Hc as [(_ & _ & [->|(_ & e & ->)])|(_ & _ & ->)];
    elem_cases Hnew; split; discriminate.
Qed.

Lemma quiet_dispatch (ty : event_type) (i : nat) (s : state) :
  quiet s → quiet (dispatch ty i s).
Proof.
  unfold dispatch. destruct (doc s !! i) as [e|]; [|trivial].
  generalize (listeners_for ty e). intros hs. revert s.
  induction hs as [|h hs IH]; intros s Hq; [exact Hq|].
  cbn [foldl]. apply IH. now apply quiet_run_handler.
Qed.

Lemma quiet_idle (t : Z) (s : state) : quiet s → quiet (set_now t s).
Proof. destruct s. trivial. Qed.

(** Fuel beyond the potential is enough for the clock to reach [t]. *)
Lemma advance_total (n : nat) (t : Z) (s : state) :
  quiet s → potential t (timers s) < n →
  ∃ s', advance_to n t s = Some s' ∧ quiet s'.
Proof.
  revert s. induction n as [|n IH]; intros s Hq Hp; [lia|].
  cbn [advance_to].
  destruct (earliest (timers s)) as [tm|] eqn:E.
  - destruct (Z.leb_spec (tm_due tm) t) as [Hle|Hgt].
    + pose proof (earliest_in _ _ E) as Hin. apply IH.
      * now apply quiet_fire.
      * pose proof (fire_decreases t tm s Hq Hin Hle). lia.
    + eexists. split; [reflexivity|]. now apply quiet_idle.
  - eexists. split; [reflexivity|]. now apply quiet_idle.
Qed.

Lemma advance_to_mono (f f' : nat) (t : Z) (s s' : state) :
  advance_to f t s = Some s' → f ≤ f' → advance_to f' t s = Some s'.
Proof.
  revert f' s. induction f as [|f IH]; intros f' s H Hle; [discriminate|].
  destruct f' as [|f']; [lia|]. cbn [advance_to] in *.
  destruct (earliest (timers s)) as [tm|]; [|exact H].
  destruct (tm_due tm <=? t)%Z; [|exact H].
  apply IH; [exact H|lia].
Qed.

Lemma run_mono (f f' : nat) (ins : list input) (s s' : state) :
  run f ins s = Some s' → f ≤ f' → run f' ins s = Some s'.
Proof.
  revert s. induction ins as [|[ty i|ms] ins IH]; intros s H Hle;
    cbn [run] in *.
  - exact H.
  - now apply IH.
  - destruct (advance_to f (now s + ms) s) as [s1|] eqn:E; [|discriminate].
    rewrite (advance_to_mono f f' _ s s1 E Hle). now apply IH.
Qed.

(** Every sequence of hover events and waits runs to an end. *)
Lemma run_total (ins : list input) (s : state) :
  quiet s → ∃ fuel s', run fuel ins s = Some s'.
Proof.
  revert s. induction ins as [|[ty i|ms] ins IH]; intros s Hq.
  - exists 0, s. reflexivity.
  - destruct (IH (dispatch ty i s) (quiet_dispatch ty i s Hq)) as (f & s' & H).
    exists f, s'. exact H.
  - destruct (advance_total (S (potential (now s + ms) (timers s)))
                (now s + ms) s Hq (Nat.lt_succ_diag_r _)) as (s1 & H1 & Hq1).
    destruct (IH s1 Hq1) as (f2 & s' & H2).
    exists (Nat.max (S (potential (now s + ms) (timers s))) f2), s'.
    cbn [run].
    rewrite (advance_to_mono _ _ _ _ _ H1 (Nat.le_max_l _ _)).
    apply (run_mono f2); [exact H2|apply Nat.le_max_r].
Qed.

Lemma startup_quiet (p : page) (s1 : state) :
  after [Wait 500] p = Some s1 → quiet s1.
Proof.
  intros H. apply startup in H
    as (b & Hl & Ht & Hn & Hnow & Hh & _ & _ & _ & ->).
  destruct (checkScores_spec b Hl) as (extra & Hs & _ & _ & _ & Hc).
  assert (Ht1 : timers (set_now 500 (setupHoverDetection (checkScores b)))
                = timers (checkScores b))
    by (destruct (checkScores b); reflexivity).
  intros x Hx. rewrite Ht1, (sh_timers _ _ _ _ Hs), Ht in Hx.
  cbn [cancel_opt app] in Hx.
  apply elem_of_cons in Hx as [->|Hx].
  - split; [discriminate|]. intros k [= <-]. lia.
  - destruct Hc as [(_ & -> & _) | (_ & _ & _ & [-> | [-> | ->]])];
      elem_cases Hx; split; discriminate.
Qed.

End Termination.

Section LockInvariant.
Import Dom Mascot Loop.

Lemma fire_timers_quiet (tm : timer) (s : state) :
  tm_cb tm = Rescan ∨ tm_cb tm = Unlock →
  timers (fire tm s) = rearm tm (timers s).
Proof. destruct s, tm. cbn. intros [-> | ->]; reflexivity. Qed.

(** The state in which a low score leaves the page at start-up. *)
Lemma startup_locked (p : page) (s1 : state) :
  after [Wait 500] p = Some s1 →
  fst (scoreDecision (pg_doc p)) = true →
  wf s1
  ∧ locked 5500 3 standing defaultMessage s1
  ∧ now s1 = 500%Z
  ∧ bubble_color s1 = "#dc2626"
  ∧ timers s1
    = [Timer 2 3000 Rescan (Some 3000%Z); Timer 3 5500 Unlock None].
Proof.
  intros H Hdec. destruct (startup_settled p s1 H) as [[Hw _ _] _].
  apply startup in H as (b & Hl & Ht & Hn & Hnow & Hh & He & Hb & Hd & ->).
  destruct (checkScores_spec b Hl) as (extra & Hs & _ & He' & _ & Hc).
  rewrite Hd in Hc.
  destruct Hc as [(_ & -> & Hl1 & Hc1 & Hb1) | (Hno & _)];
    [|rewrite Hdec in Hno; discriminate].
  pose proof (sh_timers _ _ _ _ Hs) as Htm.
  rewrite Ht, Hn, Hnow in Htm. cbn in Htm.
  set (s1 := set_now 500 (setupHoverDetection (checkScores b))) in *.
  assert (Hf : timers s1 = timers (checkScores b)
               ∧ isLocked s1 = isLocked (checkScores b)
               ∧ currentExpression s1 = currentExpression (checkScores b)
               ∧ bubble_text s1 = bubble_text (checkScores b)
               ∧ bubble_color s1 = bubble_color (checkScores b)
               ∧ now s1 = 500%Z).
  { subst s1. destruct (checkScores b). repeat split. }
  destruct Hf as (Ht1 & Hl' & Hx' & Hb' & Hc' & Hn').
  assert (Htm' : timers s1
                 = [Timer 2 3000 Rescan (Some 3000%Z); Timer 3 5500 Unlock None])
    by (rewrite Ht1, Htm; reflexivity).
  split; [exact Hw|].
  split; [|split; [exact Hn'|split; [congruence|exact Htm']]].
  split.
  - congruence.
  - congruence.
  - congruence.
  - rewrite Htm'. apply elem_of_cons. right. apply elem_of_cons. now left.
  - intros x Hx. rewrite Htm' in Hx. elem_cases Hx; cbn; auto.
Qed.

Lemma handler_under_lock (h : handler) (s : state) :
  isLocked s = true →
  isLocked (run_handler h s) = true
  ∧ currentExpression (run_handler h s) = currentExpression s
  ∧ bubble_text (run_handler h s) = bubble_text s.
Proof.
  intros Hl.
  destruct (run_handler_spec h s) as (extra & _ & Hl' & _ & He & Hb & _).
  split; [congruence|]. split; [exact He|exact (Hb Hl)].
Qed.

Lemma dispatch_under_lock (ty : event_type) (i : nat) (s : state) :
  isLocked s = true →
  isLocked (dispatch ty i s) = true
  ∧ currentExpression (dispatch ty i s) = currentExpression s
  ∧ bubble_text (dispatch ty i s) = bubble_text s.
Proof.
  unfold dispatch. destruct (doc s !! i) as [e|]; [|auto].
  generalize (listeners_for ty e). intros hs. revert s.
  induction hs as [|h hs IH]; intros s Hl; [auto|].
  cbn [foldl]. destruct (handler_under_lock h s Hl) as (Hl1 & He1 & Hb1).
  destruct (IH _ Hl1) as (Hl2 & He2 & Hb2).
  split; [exact Hl2|]. split; congruence.
Qed.

(** C2.  In a state with the lock on, [changeMascotExpression] and
    [resetMascot] return the state as it is, and a hover-enter or hover-leave
    event changes neither the current expression nor the caption text, nor
    the lock.  And on a page where a low score sets the lock at start-up
    (500 ms): every sequence of hover events and waits runs to an end, and
    at its end the lock is on with the expression and the caption as they
    were, if the clock is before 5500 ms, and off with the caption colour
    cleared, if it is at 5500 ms or past it; left alone for 5000 ms the page
    is there. *)
Theorem lock_suppresses_hover (s : state) (p : page) (m : img) (c : caption) :
  isLocked s = true →
  pg_mascot p = Some m → pg_bubble p = Some c →
  fst (scoreDecision (pg_doc p)) = true →
  (∀ e msg, changeMascotExpression e msg s = s)
  ∧ resetMascot s = s
  ∧ (∀ ty i,
       isLocked (dispatch ty i s) = true
       ∧ currentExpression (dispatch ty i s) = currentExpression s
       ∧ bubble_text (dispatch ty i s) = bubble_text s)
  ∧ ∃ s1,
      after [Wait 500] p = Some s1
      ∧ isLocked s1 = true
      ∧ (∀ ins, ∃ fuel s', run fuel ins s1 = Some s')
      ∧ (∀ fuel ins s',
           run fuel ins s1 = Some s' →
           if (now s' <? 5500)%Z
           then isLocked s' = true
                ∧ currentExpression s' = currentExpression s1
                ∧ bubble_text s' = bubble_text s1
           else isLocked s' = false ∧ bubble_color s' = "")
      ∧ (∃ s2, run 64 [Wait 5000] s1 = Some s2
               ∧ now s2 = 5500%Z
               ∧ isLocked s2 = false
               ∧ bubble_color s2 = "").
Proof.
  intros Hl Hm Hc Hdec.
  split; [intros e msg; now apply changeMascotExpression_locked|].
  split; [now apply resetMascot_locked|].
  split; [intros ty i; now apply dispatch_under_lock|].
  destruct (startup_total p m c Hm Hc)
    as (b & _ & _ & _ & _ & _ & _ & _ & _ & H1).
  set (s1 := set_now 500 (setupHoverDetection (checkScores b))) in *.
  clearbody s1. exists s1. split; [exact H1|].
  destruct (startup_locked p s1 H1 Hdec) as (Hw & Hk & Hn & Hcol & Ht).
  assert (Hp : phase 5500 3 standing defaultMessage s1)
    by (left; split; [exact Hk|lia]).
  split; [apply (lk_flag _ _ _ _ _ Hk)|].
  split; [intros ins; apply run_total, (startup_quiet p), H1|].
  split.
  { intros fuel ins s' Hrun.
    destruct (phase_run _ _ _ _ _ _ _ _ Hw Hp Hrun) as [_ Hp'].
    rewrite (lk_expression _ _ _ _ _ Hk), (lk_text _ _ _ _ _ Hk).
    exact (phase_reading _ _ _ _ _ Hp'). }
  set (r := Timer 2 3000 Rescan (Some 3000%Z)) in *.
  set (k := Timer 3 5500 Unlock None) in *.
  assert (Hrun : run 64 [Wait 5000] s1
                 = Some (set_now (Z.max (now (fire k (fire r s1))) 5500)
                           (fire k (fire r s1)))).
  { cbn [run]. rewrite Hn. change (500 + 5000)%Z with 5500%Z.
    rewrite (advance_to_fire 63 _ s1 r) by (rewrite ?Ht; cbn; (reflexivity || lia)).
    assert (Ht2 : timers (fire r s1)
                  = [k; Timer 2 6000 Rescan (Some 3000%Z)]).
    { rewrite fire_timers_quiet by (now left). rewrite Ht. reflexivity. }
    rewrite (advance_to_fire 62 _ (fire r s1) k)
      by (rewrite ?Ht2; cbn; (reflexivity || lia)).
    assert (Ht3 : timers (fire k (fire r s1))
                  = [Timer 2 6000 Rescan (Some 3000%Z)]).
    { rewrite fire_timers_quiet by (now right). rewrite Ht2. reflexivity. }
    rewrite advance_to_stop; [reflexivity|].
    intros x Hx. rewrite Ht3 in Hx. elem_cases Hx. cbn. lia. }
  eexists. split; [exact Hrun|].
  assert (Hnow : now (set_now (Z.max (now (fire k (fire r s1))) 5500)
                        (fire k (fire r s1))) = 5500%Z).
  { rewrite !fire_now by discriminate. rewrite Hn.
    destruct (fire k (fire r s1)). cbn. lia. }
  split; [exact Hnow|].
  destruct (phase_run _ _ _ _ _ _ _ _ Hw Hp Hrun) as [_ Hp'].
  apply phase_reading in Hp'. rewrite Hnow in Hp'. exact Hp'.
Qed.

(** The page with an ATS score of 45: the pointer enters the submit button
    while the lock is on, and the caption stays; 5000 ms on the lock is
    off. *)
Lemma lock_suppresses_hover_witness :
  ∃ s1,
    after [Wait 500] Samples.low_ats = Some s1
    ∧ isLocked s1 = true
    ∧ bubble_text (dispatch mouseenter 2 s1) = bubble_text s1
    ∧ ∃ s2, run 64 [Wait 5000] s1 = Some s2
            ∧ isLocked s2 = false ∧ bubble_color s2 = "".
Proof.
  destruct (startup_total Samples.low_ats Samples.fox Samples.speech
              eq_refl eq_refl) as (b & _ & _ & _ & _ & _ & _ & _ & _ & H1).
  destruct (startup_locked _ _ H1 eq_refl) as (_ & Hk & _).
  pose proof (lk_flag _ _ _ _ _ Hk) as Hl.
  destruct (lock_suppresses_hover _ Samples.low_ats Samples.fox Samples.speech
              Hl eq_refl eq_refl eq_refl)
    as (_ & _ & Hh & s1 & H1' & Hl1 & _ & _ & s2 & Hr & _ & Hl2 & Hc2).
  assert (E : s1 = set_now 500 (setupHoverDetection (checkScores b)))
    by congruence.
  exists s1. split; [exact H1'|]. split; [exact Hl1|]. split.
  - rewrite E. apply (Hh mouseenter 2).
  - exists s2. repeat split; assumption.
Defined.

End LockInvariant.

(* ===================================================================== *)
(** ** Properties of the theme switcher                                   *)
(* ===================================================================== *)

Section ThemeProperties.
Import Theme.

Lemma classList_remove_absent (c : string) (l : list string) :
  c ∉ Js.classList_remove c l.
Proof.
  unfold Js.classList_remove. rewrite list_elem_of_filter. tauto.
Qed.

Lemma classList_add_present (c : string) (l : list string) :
  c ∈ Js.classList_add c l.
Proof.
  unfold Js.classList_add, Js.classList_contains.
  destruct (bool_decide (c ∈ l)) eqn:E.
  - now apply bool_decide_eq_true in E.
  - apply elem_of_app. right. now apply list_elem_of_singleton.
Qed.

(** After [applyTheme(id)] an entry carries the marker exactly when its
    [dataset.theme] is [id]. *)
Lemma mark_active (id : string) (o : option_el) :
  "active" ∈ classList (mark id o) ↔ dataset_theme o = Some id.
Proof.
  unfold mark. cbn [classList]. destruct (decide (dataset_theme o = Some id)).
  - split; [trivial|]. intros _. apply classList_add_present.
  - split; [|contradiction]. intros H.
    now apply classList_remove_absent in H.
Qed.

Lemma mark_dataset (id : string) (o : option_el) :
  dataset_theme (mark id o) = dataset_theme o.
Proof. reflexivity. Qed.

Lemma active_after_mark (id : string) (l : list option_el) :
  filter (λ o, "active" ∈ classList o) (mark id <$> l)
  = mark id <$> filter (λ o, dataset_theme o = Some id) l.
Proof.
  induction l as [|o l IH]; [reflexivity|].
  rewrite fmap_cons. destruct (decide (dataset_theme o = Some id)) as [E|E].
  - rewrite filter_cons_True by (now apply mark_active).
    rewrite (filter_cons_True _ o) by assumption.
    rewrite fmap_cons, IH. reflexivity.
  - rewrite filter_cons_False by (now rewrite mark_active).
    rewrite (filter_cons_False _ o) by assumption. exact IH.
Qed.

Lemma applyTheme_fields (id : string) (p : page) :
  data_theme (applyTheme id p) = Some id
  ∧ localStorage (applyTheme id p) = <["theme" := id]> (localStorage p)
  ∧ theme_options (applyTheme id p) = mark id <$> theme_options p
  ∧ theme_selector (applyTheme id p) = theme_selector p.
Proof. repeat split. Qed.

Lemma getSavedTheme_stored (id : string) (p : page) :
  localStorage p !! "theme" = Some id → Js.truthy id = true →
  getSavedTheme p = id.
Proof. intros H Ht. unfold getSavedTheme. now rewrite H, Ht. Qed.

(** The entries the DOMContentLoaded listener leaves in a page that has
    the picker: those of the template, re-marked, then one per catalog
    theme. *)
Lemma onDOMContentLoaded_options (p : page) (cl : list string) :
  theme_selector p = Some cl →
  theme_options (onDOMContentLoaded p)
  = (mark (getSavedTheme p) <$> theme_options p)
    ++ (new_option (getSavedTheme p) <$> (fst <$> themes)).
Proof.
  intros Hsel. unfold onDOMContentLoaded.
  destruct (applyTheme_fields (getSavedTheme p) p) as (_ & _ & Ho & Hs).
  rewrite Hs, Hsel.
  set (p1 := applyTheme (getSavedTheme p) p) in *.
  set (saved := getSavedTheme p) in *.
  assert (G : ∀ keys q,
             theme_options
               (foldl (λ q k, appendChild (new_option saved k) q) q keys)
             = theme_options q ++ (new_option saved <$> keys)).
  { induction keys as [|k keys IH]; intros q; cbn [foldl fmap list_fmap].
    - now rewrite app_nil_r.
    - rewrite IH. cbn [appendChild theme_options].
      now rewrite <- app_assoc. }
  cbn [set_scrollBehavior theme_options]. now rewrite G, Ho.
Qed.

Lemma onDOMContentLoaded_fields (p : page) :
  data_theme (onDOMContentLoaded p) = Some (getSavedTheme p)
  ∧ localStorage (onDOMContentLoaded p)
    = <["theme" := getSavedTheme p]> (localStorage p).
Proof.
  unfold onDOMContentLoaded.
  set (saved := getSavedTheme p).
  assert (G : ∀ keys q,
             data_theme (foldl (λ q k, appendChild (new_option saved k) q) q keys)
             = data_theme q
             ∧ localStorage
                 (foldl (λ q k, appendChild (new_option saved k) q) q keys)
               = localStorage q).
  { induction keys as [|k keys IH]; intros q; cbn [foldl]; [now split|].
    destruct (IH (appendChild (new_option saved k) q)) as [-> ->].
    now split. }
  destruct (theme_selector (applyTheme saved p)).
  - cbn [set_scrollBehavior data_theme localStorage].
    destruct (G (fst <$> themes) (applyTheme saved p)) as [-> ->]. now split.
  - now split.
Qed.

(** C7.  After [applyTheme('ocean')], on whatever page, a reload of a
    template that has the picker and no ocean entry of its own reads
    [ocean] from storage as the saved theme, sets the root's [data-theme]
    to [ocean], keeps [ocean] in storage, and leaves exactly one picker
    entry with the active marker: the generated one whose [dataset.theme] is
    [ocean]. *)
Theorem theme_round_trip (p template : page) (cl : list string) :
  theme_selector template = Some cl →
  Forall (λ o, dataset_theme o ≠ Some "ocean") (theme_options template) →
  let stored := applyTheme "ocean" p in
  let p' := reload template stored in
  localStorage stored !! "theme" = Some "ocean"
  ∧ getSavedTheme (reopened template stored) = "ocean"
  ∧ data_theme p' = Some "ocean"
  ∧ localStorage p' !! "theme" = Some "ocean"
  ∧ active_options p'
    = [OptionEl (Some "ocean") ["theme-option"; "active"] (Some "ocean")].
Proof.
  intros Hsel Hno stored p'.
  assert (Hst : localStorage stored !! "theme" = Some "ocean")
    by apply lookup_insert_eq.
  assert (Hsaved : getSavedTheme (reopened template stored) = "ocean")
    by (now apply getSavedTheme_stored).
  split; [exact Hst|]. split; [exact Hsaved|].
  subst p'. unfold reload.
  destruct (onDOMContentLoaded_fields (reopened template stored)) as [Hd Hl].
  rewrite Hsaved in Hd, Hl.
  split; [exact Hd|]. split; [rewrite Hl; apply lookup_insert_eq|].
  unfold active_options.
  rewrite (onDOMContentLoaded_options (reopened template stored) cl Hsel).
  rewrite Hsaved, filter_app, active_after_mark.
  cbn [reopened theme_options].
  assert (E : filter (λ o, dataset_theme o = Some "ocean")
                (theme_options template) = []).
  { apply elem_of_nil_inv. intros o Ho.
    apply list_elem_of_filter in Ho as [Hd' Ho].
    rewrite Forall_forall in Hno. exact (Hno o Ho Hd'). }
  rewrite E. reflexivity.
Qed.

(** The reload of the blank template after [applyTheme('ocean')]. *)
Lemma theme_round_trip_witness :
  let p' := reload Samples.blank (applyTheme "ocean" Samples.blank) in
  data_theme p' = Some "ocean"
  ∧ length (active_options p') = 1
  ∧ length (theme_options p') = 5.
Proof.
  destruct (theme_round_trip Samples.blank Samples.blank [] eq_refl
              (Forall_nil_2 _)) as (_ & _ & Hd & _ & Ha).
  cbv zeta. split; [exact Hd|]. split; [rewrite Ha; reflexivity|].
  vm_compute. reflexivity.
Defined.

Lemma count_key (id : string) (keys : list string) :
  NoDup keys →
  length (filter (λ k, k = id) keys)
  = if bool_decide (id ∈ keys) then 1 else 0.
Proof.
  induction 1 as [|k keys Hk Hn IH]; [reflexivity|].
  destruct (decide (k = id)) as [->|Hne].
  - rewrite filter_cons_True by reflexivity. cbn [length]. rewrite IH.
    case_bool_decide; [contradiction|].
    case_bool_decide as Hin; [reflexivity|].
    exfalso. apply Hin, elem_of_cons. now left.
  - rewrite filter_cons_False by assumption. rewrite IH.
    case_bool_decide as Hin; case_bool_decide as Hin'; try reflexivity.
    + exfalso. apply Hin', elem_of_cons. now right.
    + exfalso. apply elem_of_cons in Hin' as [->|?]; contradiction.
Qed.

Lemma count_new_options (id saved : string) (keys : list string) :
  length (filter (λ o, dataset_theme o = Some id) (new_option saved <$> keys))
  = length (filter (λ k, k = id) keys).
Proof.
  induction keys as [|k keys IH]; [reflexivity|].
  rewrite fmap_cons. destruct (decide (k = id)) as [->|Hne].
  - rewrite !filter_cons_True by reflexivity. cbn [length]. now rewrite IH.
  - rewrite !filter_cons_False by (cbn; congruence). exact IH.
Qed.

Lemma catalog_keys_distinct : NoDup (fst <$> themes).
Proof. apply (bool_decide_unpack _). vm_compute. exact I. Qed.

(** C8, as the code has it.  [applyTheme(id)] checks nothing: for every
    string [id] it sets the root's [data-theme] to [id] and stores [id],
    and afterwards a picker entry carries the active marker exactly when
    its [dataset.theme] is [id].  On a page initialised from a template
    with the picker and no entries of its own, that is one entry when [id]
    is a key of the catalog and none when it is not. *)
Theorem applyTheme_accepts_any_id (id : string) (p template : page)
    (cl : list string) :
  theme_selector template = Some cl →
  theme_options template = [] →
  data_theme (applyTheme id p) = Some id
  ∧ localStorage (applyTheme id p) !! "theme" = Some id
  ∧ (∀ o, o ∈ theme_options (applyTheme id p) →
          "active" ∈ classList o ↔ dataset_theme o = Some id)
  ∧ length (active_options (applyTheme id (onDOMContentLoaded template)))
    = (if bool_decide (id ∈ fst <$> themes) then 1 else 0).
Proof.
  intros Hsel Hnil.
  split; [reflexivity|]. split; [apply lookup_insert_eq|]. split.
  - intros o Ho. cbn [applyTheme theme_options] in Ho.
    apply list_elem_of_fmap in Ho as (o0 & -> & _).
    rewrite mark_dataset. apply mark_active.
  - unfold active_options. cbn [applyTheme theme_options].
    rewrite active_after_mark, length_fmap.
    rewrite (onDOMContentLoaded_options template cl Hsel), Hnil.
    cbn [fmap list_fmap app].
    rewrite count_new_options. apply count_key, catalog_keys_distinct.
Qed.

(** [applyTheme('sunset')] on the initialised blank page. *)
Lemma applyTheme_accepts_any_id_witness :
  data_theme (applyTheme "sunset" Samples.blank) = Some "sunset"
  ∧ length (active_options
              (applyTheme "sunset" (onDOMContentLoaded Samples.blank))) = 1.
Proof.
  destruct (applyTheme_accepts_any_id "sunset" Samples.blank Samples.blank []
              eq_refl eq_refl) as (Hd & _ & _ & Ha).
  split; [exact Hd|]. rewrite Ha. reflexivity.
Defined.

(** C8 as stated fails for an id that is not in the catalog: after
    [applyTheme('neon')] on the initialised blank page, [neon] is the
    root's theme and the stored one, and no picker entry carries the active
    marker; a reload keeps it that way. *)
Lemma unknown_theme_marks_no_entry :
  let p := applyTheme "neon" (onDOMContentLoaded Samples.blank) in
  data_theme p = Some "neon"
  ∧ localStorage p !! "theme" = Some "neon"
  ∧ length (theme_options p) = 5
  ∧ active_options p = []
  ∧ length (active_options p) ≠ 1
  ∧ active_options (reload Samples.blank p) = [].
Proof.
  cbv zeta.
  split; [vm_compute; reflexivity|].
  split; [vm_compute; reflexivity|].
  split; [vm_compute; reflexivity|].
  split; [vm_compute; reflexivity|].
  split; [vm_compute; discriminate|].
  vm_compute; reflexivity.
Qed.

End ThemeProperties.

(* ===================================================================== *)
(** ** The mascot over a visit                                            *)
(* ===================================================================== *)

Section Strings.

Lemma append_cons (x : ascii) (a b : string) :
  (String x a ++ b = String x (a ++ b))%string.
Proof. reflexivity. Qed.

Lemma append_nil (b : string) : ("" ++ b = b)%string.
Proof. reflexivity. Qed.

Lemma append_assoc (a b c : string) :
  ((a ++ b) ++ c = a ++ (b ++ c))%string.
Proof.
  induction a as [|x a IH]; [reflexivity|].
  rewrite !append_cons. now rewrite IH.
Qed.

Lemma length_append (a b : string) :
  String.length (a ++ b) = String.length a + String.length b.
Proof.
  induction a as [|x a IH]; [reflexivity|].
  rewrite append_cons. cbn [String.length]. now rewrite IH.
Qed.

End Strings.

Section Settling.
Import Dom Mascot Registry Loop Settle.

(** *** What firing one timer does *)

Lemma fire_fade (tm : timer) (s : state) (e : expression) :
  tm_cb tm = FadeTo e →
  let s' := fire tm s in
  currentExpression s' = e
  ∧ mascot_src s' = expressions (basePath s) e
  ∧ mascot_opacity s' = "1"
  ∧ bubble_text s' = bubble_text s
  ∧ bubble_color s' = bubble_color s
  ∧ isLocked s' = isLocked s
  ∧ basePath s' = basePath s
  ∧ timers s' = rearm tm (timers s)
  ∧ now s' = Z.max (now s) (tm_due tm).
Proof.
  intros H. destruct s, tm. cbn in H. subst. repeat split.
Qed.

Lemma fire_reset (tm : timer) (s : state) :
  tm_cb tm = ResetMascot →
  let s' := fire tm s in
  currentExpression s' = currentExpression s
  ∧ mascot_src s' = mascot_src s
  ∧ bubble_color s' = bubble_color s
  ∧ isLocked s' = isLocked s
  ∧ basePath s' = basePath s
  ∧ now s' = Z.max (now s) (tm_due tm)
  ∧ (isLocked s = true →
     bubble_text s' = bubble_text s ∧ mascot_opacity s' = mascot_opacity s
     ∧ timers s' = rearm tm (timers s))
  ∧ (isLocked s = false →
     bubble_text s' = defaultMessage
     ∧ ((currentExpression s = standing
         ∧ mascot_opacity s' = mascot_opacity s
         ∧ timers s' = rearm tm (timers s))
        ∨ (currentExpression s ≠ standing
           ∧ mascot_opacity s' = "0.5"
           ∧ timers s'
             = rearm tm (timers s)
               ++ [Timer (next_id s) (Z.max (now s) (tm_due tm) + 150)
                     (FadeTo standing) None]))).
Proof.
  intros H. destruct s, tm. cbn in H. subst.
  unfold fire. cbn [tm_cb run_callback].
  unfold resetMascot, changeMascotExpression, set_timers, set_now. fields.
  destruct isLocked0.
  - do 6 (split; [reflexivity|]). split; [intros _; repeat split|discriminate].
  - change (Js.truthy defaultMessage) with true. cbv iota.
    destruct (decide (standing ≠ currentExpression0)) as [Hn|Hn];
      (do 6 (split; [reflexivity|])); (split; [discriminate|intros _]);
      (split; [reflexivity|]).
    + right. repeat split. congruence.
    + left. repeat split.
      destruct (decide (currentExpression0 = standing)) as [E|E];
        [exact E|exfalso; apply Hn; congruence].
Qed.

Lemma fire_unlock (tm : timer) (s : state) :
  tm_cb tm = Unlock →
  let s' := fire tm s in
  currentExpression s' = currentExpression s
  ∧ mascot_src s' = mascot_src s
  ∧ mascot_opacity s' = mascot_opacity s
  ∧ bubble_text s' = bubble_text s
  ∧ bubble_color s' = ""
  ∧ isLocked s' = false
  ∧ basePath s' = basePath s
  ∧ timers s' = rearm tm (timers s)
  ∧ now s' = Z.max (now s) (tm_due tm).
Proof.
  intros H. destruct s, tm. cbn in H. subst. repeat split.
Qed.

Lemma fire_rescan (tm : timer) (s : state) :
  tm_cb tm = Rescan →
  let s' := fire tm s in
  currentExpression s' = currentExpression s
  ∧ mascot_src s' = mascot_src s
  ∧ mascot_opacity s' = mascot_opacity s
  ∧ bubble_text s' = bubble_text s
  ∧ bubble_color s' = bubble_color s
  ∧ isLocked s' = isLocked s
  ∧ basePath s' = basePath s
  ∧ timers s' = rearm tm (timers s)
  ∧ now s' = Z.max (now s) (tm_due tm).
Proof.
  intros H. destruct s, tm. cbn in H. subst. repeat split.
Qed.


(** The queue after a callback: the timer is off or armed again, and a
    reset that finds another expression than the standing one adds its
    fade. *)
Lemma fire_queue (tm : timer) (s : state) :
  tm_cb tm ≠ Startup →
  ∃ extra,
    timers (fire tm s) = rearm tm (timers s) ++ extra
    ∧ now (fire tm s) = Z.max (now s) (tm_due tm)
    ∧ basePath (fire tm s) = basePath s
    ∧ (extra = []
       ∨ (tm_cb tm = ResetMascot ∧ isLocked s = false
          ∧ currentExpression s ≠ standing
          ∧ extra = [Timer (next_id s) (Z.max (now s) (tm_due tm) + 150)
                       (FadeTo standing) None])).
Proof.
  intros Hcb. destruct (tm_cb tm) eqn:E; [| | | congruence |].
  - destruct (fire_fade tm s e E) as (_ & _ & _ & _ & _ & _ & Hb & Ht & Hn).
    exists []. rewrite app_nil_r. auto.
  - destruct (fire_reset tm s E) as (_ & _ & _ & _ & Hb & Hn & Hl & Hu).
    destruct (isLocked s) eqn:L.
    + destruct (Hl eq_refl) as (_ & _ & Ht).
      exists []. rewrite app_nil_r. auto.
    + destruct (Hu eq_refl) as (_ & [(_ & _ & Ht)|(Hc & _ & Ht)]).
      * exists []. rewrite app_nil_r. auto.
      * eexists. split; [exact Ht|]. do 2 (split; [assumption|]).
        right. auto.
  - destruct (fire_unlock tm s E) as (_ & _ & _ & _ & _ & _ & Hb & Ht & Hn).
    exists []. rewrite app_nil_r. auto.
  - destruct (fire_rescan tm s E) as (_ & _ & _ & _ & _ & _ & Hb & Ht & Hn).
    exists []. rewrite app_nil_r. auto.
Qed.

(** Where a timer of the queue after a callback comes from. *)
Lemma fire_elem (tm x : timer) (s : state) :
  quiet s → one_shot s → tm ∈ timers s → x ∈ timers (fire tm s) →
  (x ∈ timers s ∧ tm_id x ≠ tm_id tm)
  ∨ (tm_cb tm = Rescan ∧ tm_cb x = Rescan
     ∧ (tm_due tm + 150 ≤ tm_due x)%Z)
  ∨ (tm_cb tm = ResetMascot ∧ isLocked s = false
     ∧ x = Timer (next_id s) (Z.max (now s) (tm_due tm) + 150)
             (FadeTo standing) None).
Proof.
  intros Hq Ho Hin Hx. destruct (Hq tm Hin) as [Hcb Hper].
  destruct (fire_queue tm s Hcb) as (extra & Ht & _ & _ & Hex).
  rewrite Ht in Hx. apply elem_of_app in Hx as [Hx|Hx].
  - unfold rearm in Hx. destruct (tm_every tm) as [k|] eqn:E.
    + apply elem_of_app in Hx as [Hx|Hx].
      * left. now apply elem_of_cancel.
      * right. left. apply list_elem_of_singleton in Hx. subst x.
        destruct (decide (tm_cb tm = Rescan)) as [Hr|Hr].
        -- cbn. specialize (Hper k eq_refl). repeat split; (assumption || lia).
        -- specialize (Ho tm Hin Hr). congruence.
    + left. now apply elem_of_cancel.
  - destruct Hex as [->|(Hr & Hl & _ & ->)]; [now apply elem_of_nil in Hx|].
    apply list_elem_of_singleton in Hx. right. right. auto.
Qed.

Lemma one_shot_fire (tm : timer) (s : state) :
  quiet s → one_shot s → tm ∈ timers s → one_shot (fire tm s).
Proof.
  intros Hq Ho Hin x Hx Hcb.
  destruct (fire_elem tm x s Hq Ho Hin Hx) as [[Hold _]|[(_ & Hr & _)|(_ & _ & ->)]].
  - now apply Ho.
  - congruence.
  - reflexivity.
Qed.

Lemma punctual_fire (tm : timer) (s : state) :
  quiet s → one_shot s → punctual s → earliest (timers s) = Some tm →
  punctual (fire tm s).
Proof.
  intros Hq Ho Hp E x Hx. pose proof (earliest_in _ _ E) as Hin.
  destruct (Hq tm Hin) as [Hcb _].
  destruct (fire_queue tm s Hcb) as (_ & _ & Hn & _). rewrite Hn.
  pose proof (Hp tm Hin) as Htm.
  destruct (fire_elem tm x s Hq Ho Hin Hx) as [[Hold _]|[(_ & _ & Hd)|(_ & _ & ->)]].
  - pose proof (earliest_le _ _ E x Hold). pose proof (Hp x Hold). lia.
  - lia.
  - cbn. lia.
Qed.

(** An invariant of the callbacks that fall due holds when the clock
    stops, and nothing is left that is due by then. *)
Lemma advance_to_inv (I : state → Prop) (t : Z) :
  (∀ s tm, I s → earliest (timers s) = Some tm → (tm_due tm ≤ t)%Z →
           I (fire tm s)) →
  ∀ fuel s s', I s → advance_to fuel t s = Some s' →
    ∃ s0, I s0 ∧ (∀ x, x ∈ timers s0 → (t < tm_due x)%Z)
          ∧ s' = set_now (Z.max (now s0) t) s0.
Proof.
  intros Hstep fuel. induction fuel as [|f IH]; intros s s' Hi H;
    [discriminate|].
  cbn [advance_to] in H.
  destruct (earliest (timers s)) as [tm|] eqn:E.
  - destruct (Z.leb_spec (tm_due tm) t) as [Hle|Hgt].
    + apply (IH (fire tm s)); [now apply Hstep|exact H].
    + injection H as <-. exists s. split; [exact Hi|]. split; [|reflexivity].
      intros x Hx. pose proof (earliest_le _ _ E x Hx). lia.
  - injection H as <-. exists s. split; [exact Hi|]. split; [|reflexivity].
    intros x Hx. apply earliest_None in E. rewrite E in Hx.
    now apply elem_of_nil in Hx.
Qed.

Lemma ready_advance (fuel : nat) (t : Z) (s s' : state) :
  ready s → advance_to fuel t s = Some s' →
  ready s' ∧ now s' = Z.max (now s) t.
Proof.
  intros [Hw Hq Ho Ht Hf] H.
  pose (I := λ x : state,
          wf x ∧ quiet x ∧ one_shot x ∧ punctual x
          ∧ (now s ≤ now x)%Z ∧ (now x ≤ Z.max (now s) t)%Z
          ∧ ((t < now x)%Z → timely x)
          ∧ ∀ y e, y ∈ timers x → tm_cb y = FadeTo e →
                   (tm_due y ≤ now x + 150)%Z).
  destruct (advance_to_inv I t) with (fuel := fuel) (s := s) (s' := s')
    as (s0 & (Hw0 & Hq0 & Ho0 & Hp0 & Hlo & Hhi & Ht0 & Hf0) & Hall & ->).
  - intros x tm (Hwx & Hqx & Hox & Hpx & Hlx & Hhx & Htx & Hfx) E Hle.
    pose proof (earliest_in _ _ E) as Hin. destruct (Hqx tm Hin) as [Hcb _].
    destruct (fire_queue tm x Hcb) as (_ & _ & Hn & _).
    assert (Hnow : (now x ≤ t)%Z).
    { destruct (Z.le_gt_cases (now x) t) as [?|Hgt]; [assumption|].
      specialize (Htx Hgt tm Hin). lia. }
    split; [now apply wf_fire|]. split; [now apply quiet_fire|].
    split; [now apply one_shot_fire|]. split; [now apply punctual_fire|].
    rewrite Hn. split; [lia|]. split; [lia|]. split; [intros ?; lia|].
    intros y e Hy Hcy.
    destruct (fire_elem tm y x Hqx Hox Hin Hy)
      as [[Hold _]|[(_ & Hr & _)|(_ & _ & ->)]].
    + specialize (Hfx y e Hold Hcy). lia.
    + congruence.
    + cbn. lia.
  - split; [exact Hw|]. split; [exact Hq|]. split; [exact Ho|].
    split; [intros x Hx; apply Z.lt_le_incl; now apply Ht|].
    split; [lia|]. split; [lia|]. split; [intros _; exact Ht|exact Hf].
  - exact H.
  - assert (Hn : now (set_now (Z.max (now s0) t) s0) = Z.max (now s0) t)
      by (destruct s0; reflexivity).
    assert (Hts : timers (set_now (Z.max (now s0) t) s0) = timers s0)
      by (destruct s0; reflexivity).
    split; [|rewrite Hn; lia].
    split.
    + now apply wf_idle.
    + now apply quiet_idle.
    + intros x Hx. rewrite Hts in Hx. now apply Ho0.
    + intros x Hx. rewrite Hts in Hx. rewrite Hn. specialize (Hall x Hx).
      destruct (Z.le_gt_cases (now s0) t) as [?|Hgt]; [lia|].
      specialize (Ht0 Hgt x Hx). lia.
    + intros x e Hx Hcx. rewrite Hts in Hx. rewrite Hn.
      specialize (Hf0 x e Hx Hcx). lia.
Qed.

Lemma ready_run_handler (h : handler) (s : state) :
  ready s → ready (run_handler h s).
Proof.
  intros [Hw Hq Ho Ht Hf].
  destruct (run_handler_spec h s) as (extra & Hs & _ & _ & _ & _ & Hc).
  assert (Hex : ∀ x, x ∈ extra →
                  tm_every x = None ∧ (now s < tm_due x)%Z
                  ∧ ∀ e, tm_cb x = FadeTo e → (tm_due x ≤ now s + 150)%Z).
  { intros x Hx.
    destruct Hc as [(_ & _ & [->|(_ & e & ->)])|(_ & _ & ->)];
      elem_cases Hx; cbn; (split; [reflexivity|]); (split; [lia|]);
      intros e'; (discriminate || lia). }
  split.
  - now apply wf_run_handler.
  - now apply quiet_run_handler.
  - intros x Hx Hcb.
    destruct (shape_elem _ _ _ _ x Hs Hx) as [[Hold _]|[Hnew _]].
    + now apply Ho.
    + now apply Hex.
  - intros x Hx. rewrite (sh_now _ _ _ _ Hs).
    destruct (shape_elem _ _ _ _ x Hs Hx) as [[Hold _]|[Hnew _]].
    + now apply Ht.
    + now apply Hex.
  - intros x e Hx Hcx. rewrite (sh_now _ _ _ _ Hs).
    destruct (shape_elem _ _ _ _ x Hs Hx) as [[Hold _]|[Hnew _]].
    + now apply (Hf x e).
    + destruct (Hex x Hnew) as (_ & _ & Hd). now apply (Hd e).
Qed.

Lemma ready_dispatch (ty : event_type) (i : nat) (s : state) :
  ready s → ready (dispatch ty i s).
Proof.
  unfold dispatch. destruct (doc s !! i) as [e|]; [|trivial].
  generalize (listeners_for ty e). intros hs. revert s.
  induction hs as [|h hs IH]; intros s Hr; [exact Hr|].
  cbn [foldl]. apply IH. now apply ready_run_handler.
Qed.

Lemma ready_run (fuel : nat) (ins : list input) (s s' : state) :
  ready s → run fuel ins s = Some s' → ready s'.
Proof.
  revert s. induction ins as [|[ty i|ms] ins IH]; intros s Hr H;
    cbn [run] in H.
  - now injection H as <-.
  - apply (IH (dispatch ty i s)); [now apply ready_dispatch|exact H].
  - destruct (advance_to fuel (now s + ms) s) as [s1|] eqn:E; [|discriminate].
    apply (IH s1); [|exact H]. exact (proj1 (ready_advance _ _ _ _ Hr E)).
Qed.

Lemma startup_ready (p : page) (s1 : state) :
  after [Wait 500] p = Some s1 → ready s1.
Proof.
  intros H. pose proof (startup_quiet p s1 H) as Hq.
  destruct (startup_settled p s1 H) as [[Hw _ _] _].
  apply startup in H as (b & Hl & Ht & Hn & Hnow & Hh & _ & _ & _ & ->).
  destruct (checkScores_spec b Hl) as (extra & Hs & _ & _ & _ & Hc).
  assert (Ht1 : timers (set_now 500 (setupHoverDetection (checkScores b)))
                = timers (checkScores b)
                ∧ now (set_now 500 (setupHoverDetection (checkScores b)))
                  = 500%Z)
    by (destruct (checkScores b); split; reflexivity).
  destruct Ht1 as [Ht1 Hn1].
  split; [exact Hw|exact Hq| | |].
  - intros x Hx Hcb. rewrite Ht1, (sh_timers _ _ _ _ Hs), Ht in Hx.
    cbn [cancel_opt app] in Hx.
    apply elem_of_cons in Hx as [->|Hx]; [cbn in Hcb; congruence|].
    destruct Hc as [(_ & -> & _) | (_ & _ & _ & [-> | [-> | ->]])];
      elem_cases Hx; reflexivity.
  - intros x Hx. rewrite Hn1. rewrite Ht1, (sh_timers _ _ _ _ Hs), Ht in Hx.
    cbn [cancel_opt app] in Hx.
    apply elem_of_cons in Hx as [->|Hx]; [cbn; lia|].
    destruct Hc as [(_ & -> & _) | (_ & _ & _ & [-> | [-> | ->]])];
      unfold reset_timer, fade_timer in Hx; rewrite ?Hnow in Hx;
      elem_cases Hx; cbn; lia.
  - intros x e Hx Hcx. rewrite Hn1.
    rewrite Ht1, (sh_timers _ _ _ _ Hs), Ht in Hx.
    cbn [cancel_opt app] in Hx.
    apply elem_of_cons in Hx as [->|Hx]; [discriminate|].
    destruct Hc as [(_ & -> & _) | (_ & _ & _ & [-> | [-> | ->]])];
      unfold reset_timer, fade_timer in Hx; rewrite ?Hnow in Hx;
      elem_cases Hx; cbn in *; (discriminate || lia).
Qed.


(** *** A fade that is pending decides the expression *)

Lemma fire_keeps_expression (tm : timer) (s : state) :
  tm_cb tm ≠ Startup → (∀ e, tm_cb tm ≠ FadeTo e) →
  currentExpression (fire tm s) = currentExpression s
  ∧ mascot_src (fire tm s) = mascot_src s.
Proof.
  intros Hs Hf. destruct (tm_cb tm) eqn:E.
  - now destruct (Hf e).
  - destruct (fire_reset tm s E) as (? & ? & _). auto.
  - destruct (fire_unlock tm s E) as (? & ? & _). auto.
  - congruence.
  - destruct (fire_rescan tm s E) as (? & ? & _). auto.
Qed.

Lemma fire_stays_unlocked (tm : timer) (s : state) :
  tm_cb tm ≠ Startup → isLocked s = false → isLocked (fire tm s) = false.
Proof.
  intros Hs Hl. destruct (tm_cb tm) eqn:E.
  - destruct (fire_fade tm s e E) as (_ & _ & _ & _ & _ & H & _). congruence.
  - destruct (fire_reset tm s E) as (_ & _ & _ & H & _). congruence.
  - destruct (fire_unlock tm s E) as (_ & _ & _ & _ & _ & H & _). exact H.
  - congruence.
  - destruct (fire_rescan tm s E) as (_ & _ & _ & _ & _ & H & _). congruence.
Qed.

(** A timer that is not the one that fires stays in the queue. *)
Lemma fire_stays (tm x : timer) (s : state) :
  tm_cb tm ≠ Startup → x ∈ timers s → tm_id x ≠ tm_id tm →
  x ∈ timers (fire tm s).
Proof.
  intros Hcb Hx Hne. destruct (fire_queue tm s Hcb) as (extra & -> & _).
  apply elem_of_app. left. unfold rearm.
  destruct (tm_every tm); [apply elem_of_app; left|]; now apply elem_of_cancel.
Qed.

(** Of two timers due together the one scheduled first goes first. *)
Lemma earliest_app_r (l1 l : list timer) (tm : timer) :
  earliest (l1 ++ l) = Some tm → tm ∉ l1 →
  ∀ x, x ∈ l1 → (tm_due tm < tm_due x)%Z.
Proof.
  induction l1 as [|a l1 IH]; intros E Hn x Hx; [now apply elem_of_nil in Hx|].
  apply not_elem_of_cons in Hn as [Hna Hn].
  cbn [app earliest] in E. destruct (earliest (l1 ++ l)) as [u|] eqn:Eu.
  - destruct (Z.ltb_spec (tm_due u) (tm_due a)) as [Hlt|Hge].
    + injection E as ->. apply elem_of_cons in Hx as [->|Hx]; [exact Hlt|].
      now apply IH.
    + injection E as ->. congruence.
  - injection E as ->. congruence.
Qed.

(** The queue after a callback, with the place of each timer in it. *)
Lemma fire_split (tm f : timer) (s : state) (l1 l2 : list timer) :
  quiet s → one_shot s → tm ∈ timers s →
  timers s = l1 ++ f :: l2 → tm_id f ≠ tm_id tm →
  ∃ l1' l2',
    timers (fire tm s) = l1' ++ f :: l2'
    ∧ (∀ x, x ∈ l1' → x ∈ l1)
    ∧ (∀ x, x ∈ l2' →
         x ∈ l2 ∨ tm_cb x = Rescan
         ∨ (tm_cb x = FadeTo standing ∧ (tm_due tm + 150 ≤ tm_due x)%Z)).
Proof.
  intros Hq Ho Hin Ht Hne. destruct (Hq tm Hin) as [Hcb _].
  destruct (fire_queue tm s Hcb) as (extra & Hf & _ & _ & Hex).
  assert (Hr : ∃ r, rearm tm (timers s) = cancel (tm_id tm) (timers s) ++ r
                    ∧ ∀ x, x ∈ r → tm_cb x = Rescan).
  { unfold rearm. destruct (tm_every tm) as [k|] eqn:E.
    - eexists. split; [reflexivity|]. intros x Hx.
      apply list_elem_of_singleton in Hx. subst x. cbn.
      destruct (decide (tm_cb tm = Rescan)) as [?|Hn]; [assumption|].
      specialize (Ho tm Hin Hn). congruence.
    - exists []. rewrite app_nil_r. split; [reflexivity|].
      intros x Hx. now apply elem_of_nil in Hx. }
  destruct Hr as (r & Hr & Hrs).
  exists (cancel (tm_id tm) l1), (cancel (tm_id tm) l2 ++ r ++ extra).
  split.
  { rewrite Hf, Hr, Ht. unfold cancel. rewrite filter_app.
    rewrite filter_cons_True by exact Hne.
    rewrite <- !app_assoc. reflexivity. }
  split.
  - intros x Hx. now apply elem_of_cancel in Hx as [Hx _].
  - intros x Hx. apply elem_of_app in Hx as [Hx|Hx].
    + left. now apply elem_of_cancel in Hx as [Hx _].
    + right. apply elem_of_app in Hx as [Hx|Hx]; [left; now apply Hrs|].
      right. destruct Hex as [->|(_ & _ & _ & ->)];
        [now apply elem_of_nil in Hx|].
      apply list_elem_of_singleton in Hx. subst x. cbn. split; [reflexivity|].
      lia.
Qed.

(** Once the expression is [e] and every pending fade is due after [D],
    the expression is [e] when the clock reaches [D]. *)
Lemma landed_advance (e : expression) (src : string) (D : Z) (fuel : nat)
    (s s' : state) :
  quiet s → one_shot s →
  currentExpression s = e → mascot_src s = src →
  (∀ x e', x ∈ timers s → tm_cb x = FadeTo e' → (D < tm_due x)%Z) →
  (∀ x, x ∈ timers s → (D - 150 < tm_due x)%Z) →
  advance_to fuel D s = Some s' →
  currentExpression s' = e ∧ mascot_src s' = src.
Proof.
  intros Hq Ho He Hsrc Hf Hd H.
  pose (I := λ x : state,
          quiet x ∧ one_shot x ∧ currentExpression x = e ∧ mascot_src x = src
          ∧ (∀ y e', y ∈ timers x → tm_cb y = FadeTo e' → (D < tm_due y)%Z)
          ∧ (∀ y, y ∈ timers x → (D - 150 < tm_due y)%Z)).
  destruct (advance_to_inv I D) with (fuel := fuel) (s := s) (s' := s')
    as (s0 & (_ & _ & He0 & Hs0 & _) & _ & ->).
  - intros x tm (Hqx & Hox & Hex & Hsx & Hfx & Hdx) E Hle.
    pose proof (earliest_in _ _ E) as Hin. destruct (Hqx tm Hin) as [Hcb _].
    assert (Hnf : ∀ e', tm_cb tm ≠ FadeTo e').
    { intros e' Hc. specialize (Hfx tm e' Hin Hc). lia. }
    destruct (fire_keeps_expression tm x Hcb Hnf) as [Hk1 Hk2].
    specialize (Hdx tm Hin) as Htm.
    split; [now apply quiet_fire|]. split; [now apply one_shot_fire|].
    split; [congruence|]. split; [congruence|]. split.
    + intros y e' Hy Hcy.
      destruct (fire_elem tm y x Hqx Hox Hin Hy)
        as [[Hold _]|[(_ & Hr & _)|(_ & _ & ->)]].
      * now apply (Hfx y e').
      * congruence.
      * cbn. lia.
    + intros y Hy.
      destruct (fire_elem tm y x Hqx Hox Hin Hy)
        as [[Hold _]|[(_ & _ & ?)|(_ & _ & ->)]].
      * now apply Hdx.
      * lia.
      * cbn. lia.
  - split; [exact Hq|]. split; [exact Ho|]. split; [exact He|].
    split; [exact Hsrc|]. split; [exact Hf|exact Hd].
  - exact H.
  - destruct s0. split; assumption.
Qed.

(** A pending fade to [e], due at [D], with every fade behind it in the
    queue due later: when the clock reaches [D] the expression is [e] and
    the image is the one of [e]. *)
Lemma fade_lands (e : expression) (f : timer) (fuel : nat) (s s' : state)
    (l1 l2 : list timer) :
  wf s → quiet s → one_shot s →
  timers s = l1 ++ f :: l2 → tm_cb f = FadeTo e →
  (∀ x e', x ∈ l2 → tm_cb x = FadeTo e' → (tm_due f < tm_due x)%Z) →
  (∀ x, x ∈ timers s → (tm_due f - 150 < tm_due x)%Z) →
  advance_to fuel (tm_due f) s = Some s' →
  currentExpression s' = e ∧ mascot_src s' = expressions (basePath s) e.
Proof.
  intros Hw Hq Ho Ht Hcf Hl2 Hd H.
  set (D := tm_due f) in *. set (src := expressions (basePath s) e).
  pose (A := λ x : state,
          wf x ∧ quiet x ∧ one_shot x ∧ basePath x = basePath s
          ∧ (∃ k1 k2, timers x = k1 ++ f :: k2
               ∧ ∀ y e', y ∈ k2 → tm_cb y = FadeTo e' → (D < tm_due y)%Z)
          ∧ (∀ y, y ∈ timers x → (D - 150 < tm_due y)%Z)).
  pose (B := λ x : state,
          quiet x ∧ one_shot x ∧ currentExpression x = e ∧ mascot_src x = src
          ∧ (∀ y e', y ∈ timers x → tm_cb y = FadeTo e' → (D < tm_due y)%Z)
          ∧ (∀ y, y ∈ timers x → (D - 150 < tm_due y)%Z)).
  destruct (advance_to_inv (λ x, A x ∨ B x) D) with (fuel := fuel) (s := s)
    (s' := s') as (s0 & [HA|HB] & Hall & ->).
  - intros x tm [(Hwx & Hqx & Hox & Hbx & (k1 & k2 & Hk & Hk2) & Hdx)
                |(Hqx & Hox & Hex & Hsx & Hfx & Hdx)] E Hle;
      pose proof (earliest_in _ _ E) as Hin;
      destruct (Hqx tm Hin) as [Hcb _].
    + assert (Hfin : f ∈ timers x).
      { rewrite Hk. apply elem_of_app. right. apply elem_of_cons. now left. }
      destruct (decide (tm_id tm = tm_id f)) as [Hid|Hid].
      * (* the fade itself fires *)
        assert (tm = f) by
          (apply (same_id (timers x)); [apply Hwx|assumption..]).
        subst tm. right.
        destruct (fire_fade f x e Hcf) as (Hc & Hs & _ & _ & _ & _ & _ & _).
        assert (Hnin : f ∉ k1).
        { intros Hf1. pose proof (wf_nodup _ Hwx) as Hnd.
          rewrite Hk, fmap_app in Hnd. apply NoDup_app in Hnd as (_ & Hnd & _).
          apply (Hnd (tm_id f)); [now apply list_elem_of_fmap_2|].
          rewrite fmap_cons. apply elem_of_cons. now left. }
        rewrite Hk in E. pose proof (earliest_app_r _ _ _ E Hnin) as Hk1.
        assert (Hlate : ∀ y, y ∈ timers (fire f x) → y ∈ timers x ∧
                          ∀ e', tm_cb y = FadeTo e' → (D < tm_due y)%Z).
        { intros y Hy.
          destruct (fire_elem f y x Hqx Hox Hin Hy)
            as [[Hold Hne]|[(Hr & _)|(Hr & _)]]; [|congruence..].
          split; [exact Hold|]. intros e' Hcy. rewrite Hk in Hold.
          apply elem_of_app in Hold as [Hold|Hold]; [now apply Hk1|].
          apply elem_of_cons in Hold as [->|Hold]; [congruence|].
          now apply (Hk2 y e'). }
        split; [now apply quiet_fire|]. split; [now apply one_shot_fire|].
        split; [exact Hc|]. split; [subst src; congruence|]. split.
        -- intros y e' Hy. now apply (Hlate y Hy).
        -- intros y Hy. apply Hdx. now apply (Hlate y Hy).
      * (* another timer fires *)
        left.
        destruct (fire_split tm f x k1 k2 Hqx Hox Hin Hk (not_eq_sym Hid))
          as (k1' & k2' & Hk' & _ & Hnew).
        destruct (fire_queue tm x Hcb) as (_ & _ & _ & Hb & _).
        specialize (Hdx tm Hin) as Htm.
        split; [now apply wf_fire|]. split; [now apply quiet_fire|].
        split; [now apply one_shot_fire|]. split; [congruence|]. split.
        -- exists k1', k2'. split; [exact Hk'|]. intros y e' Hy Hcy.
           destruct (Hnew y Hy) as [Hold|[Hr|[_ Hdue]]].
           ++ now apply (Hk2 y e').
           ++ congruence.
           ++ lia.
        -- intros y Hy.
           destruct (fire_elem tm y x Hqx Hox Hin Hy)
             as [[Hold _]|[(_ & _ & ?)|(_ & _ & ->)]].
           ++ now apply Hdx.
           ++ lia.
           ++ cbn. lia.
    + right.
      assert (Hnf : ∀ e', tm_cb tm ≠ FadeTo e').
      { intros e' Hc. specialize (Hfx tm e' Hin Hc). lia. }
      destruct (fire_keeps_expression tm x Hcb Hnf) as [Hk1 Hk2].
      specialize (Hdx tm Hin) as Htm.
      split; [now apply quiet_fire|]. split; [now apply one_shot_fire|].
      split; [congruence|]. split; [congruence|]. split.
      * intros y e' Hy Hcy.
        destruct (fire_elem tm y x Hqx Hox Hin Hy)
          as [[Hold _]|[(_ & Hr & _)|(_ & _ & ->)]].
        -- now apply (Hfx y e').
        -- congruence.
        -- cbn. lia.
      * intros y Hy.
        destruct (fire_elem tm y x Hqx Hox Hin Hy)
          as [[Hold _]|[(_ & _ & ?)|(_ & _ & ->)]].
        -- now apply Hdx.
        -- lia.
        -- cbn. lia.
  - left. split; [exact Hw|]. split; [exact Hq|]. split; [exact Ho|].
    split; [reflexivity|]. split; [|exact Hd].
    exists l1, l2. split; [exact Ht|exact Hl2].
  - exact H.
  - destruct HA as (_ & _ & _ & _ & (k1 & k2 & Hk & _) & _).
    assert (Hfin : f ∈ timers s0).
    { rewrite Hk. apply elem_of_app. right. apply elem_of_cons. now left. }
    specialize (Hall f Hfin). lia.
  - destruct HB as (_ & _ & He0 & Hs0 & _). destruct s0. split; assumption.
Qed.


(** *** A pending reset brings the mascot back *)

(** With the lock off and a [resetMascot] pending that is due after every
    pending fade to another expression than the standing one: 150 ms after
    the reset is due, and from then on while no handler runs, the mascot
    stands and the caption is the default one. *)
Lemma reset_settles (R : timer) (t : Z) (fuel : nat) (s s' : state) :
  wf s → quiet s → one_shot s → isLocked s = false →
  R ∈ timers s → tm_cb R = ResetMascot →
  (now s ≤ tm_due R)%Z → (tm_due R + 150 ≤ t)%Z →
  (∀ x e, x ∈ timers s → tm_cb x = FadeTo e → e ≠ standing →
          (tm_due x < tm_due R)%Z) →
  advance_to fuel t s = Some s' →
  currentExpression s' = standing ∧ bubble_text s' = defaultMessage
  ∧ isLocked s' = false.
Proof.
  intros Hw Hq Ho Hl HR HcR Hnow Ht Hf H.
  pose (A := λ x : state,
          wf x ∧ quiet x ∧ one_shot x ∧ isLocked x = false
          ∧ R ∈ timers x ∧ (now x ≤ tm_due R)%Z
          ∧ (∀ y e, y ∈ timers x → tm_cb y = FadeTo e → e ≠ standing →
                    (tm_due y < tm_due R)%Z)).
  pose (B := λ x : state,
          wf x ∧ quiet x ∧ one_shot x ∧ isLocked x = false
          ∧ bubble_text x = defaultMessage
          ∧ (∀ y e, y ∈ timers x → tm_cb y = FadeTo e → e = standing)
          ∧ (currentExpression x = standing
             ∨ ∃ y, y ∈ timers x ∧ tm_cb y = FadeTo standing
                    ∧ (tm_due y ≤ t)%Z)).
  destruct (advance_to_inv (λ x, A x ∨ B x) t) with (fuel := fuel) (s := s)
    (s' := s') as (s0 & [HA|HB] & Hall & ->).
  - intros x tm [(Hwx & Hqx & Hox & Hlx & HRx & Hnx & Hfx)
                |(Hwx & Hqx & Hox & Hlx & Htx & Hfx & Hex)] E Hle;
      pose proof (earliest_in _ _ E) as Hin;
      destruct (Hqx tm Hin) as [Hcb _];
      pose proof (wf_fire tm x Hcb Hwx Hin) as Hw';
      pose proof (quiet_fire tm x Hqx Hin) as Hq';
      pose proof (one_shot_fire tm x Hqx Hox Hin) as Ho';
      pose proof (fire_stays_unlocked tm x Hcb Hlx) as Hl'.
    + destruct (decide (tm_id tm = tm_id R)) as [Hid|Hid].
      * (* the reset fires *)
        assert (tm = R) by
          (apply (same_id (timers x)); [apply Hwx|assumption..]).
        subst tm. right.
        destruct (fire_reset R x HcR) as (Hc & _ & _ & _ & _ & Hn & _ & Hu).
        destruct (Hu Hlx) as (Htxt & Hcase).
        assert (Hst : ∀ y e, y ∈ timers (fire R x) → tm_cb y = FadeTo e →
                             e = standing).
        { intros y e Hy Hcy.
          destruct (fire_elem R y x Hqx Hox Hin Hy)
            as [[Hold _]|[(_ & Hr & _)|(_ & _ & ->)]].
          - destruct (decide (e = standing)) as [?|Hne]; [assumption|].
            specialize (Hfx y e Hold Hcy Hne).
            pose proof (earliest_le _ _ E y Hold). lia.
          - congruence.
          - cbn in Hcy. congruence. }
        split; [exact Hw'|]. split; [exact Hq'|]. split; [exact Ho'|].
        split; [exact Hl'|]. split; [exact Htxt|]. split; [exact Hst|].
        destruct Hcase as [(Hs & _)|(_ & _ & Htm)]; [left; congruence|].
        right. eexists. split; [|split].
        -- rewrite Htm. apply elem_of_app. right.
           apply list_elem_of_singleton. reflexivity.
        -- reflexivity.
        -- cbn. lia.
      * (* another timer fires *)
        left.
        destruct (fire_queue tm x Hcb) as (_ & _ & Hn & _).
        pose proof (earliest_le _ _ E R HRx) as HleR.
        split; [exact Hw'|]. split; [exact Hq'|]. split; [exact Ho'|].
        split; [exact Hl'|].
        split; [apply fire_stays; [exact Hcb|exact HRx|congruence]|].
        split; [rewrite Hn; lia|].
        intros y e Hy Hcy Hne.
        destruct (fire_elem tm y x Hqx Hox Hin Hy)
          as [[Hold _]|[(_ & Hr & _)|(_ & _ & ->)]].
        -- now apply (Hfx y e).
        -- congruence.
        -- cbn in Hcy. congruence.
    + right.
      assert (Hst : ∀ y e, y ∈ timers (fire tm x) → tm_cb y = FadeTo e →
                           e = standing).
      { intros y e Hy Hcy.
        destruct (fire_elem tm y x Hqx Hox Hin Hy)
          as [[Hold _]|[(_ & Hr & _)|(_ & _ & ->)]].
        - now apply (Hfx y e).
        - congruence.
        - cbn in Hcy. congruence. }
      split; [exact Hw'|]. split; [exact Hq'|]. split; [exact Ho'|].
      split; [exact Hl'|].
      assert (Hkeep : ∀ y, y ∈ timers x → tm_cb y ≠ tm_cb tm →
                           y ∈ timers (fire tm x)).
      { intros y Hy Hne. apply fire_stays; [exact Hcb|exact Hy|].
        intros Hid. apply Hne. f_equal.
        apply (same_id (timers x)); [apply Hwx|assumption..]. }
      destruct (tm_cb tm) eqn:Ec; [| | |congruence|].
      * (* a fade, to standing *)
        destruct (fire_fade tm x e Ec) as (Hc & _ & _ & Hb & _).
        split; [congruence|]. split; [exact Hst|]. left.
        rewrite Hc. now apply (Hfx tm e).
      * (* another reset *)
        destruct (fire_reset tm x Ec) as (Hc & _ & _ & _ & _ & _ & _ & Hu).
        destruct (Hu Hlx) as (Htxt & _).
        split; [exact Htxt|]. split; [exact Hst|].
        destruct Hex as [Hs|(y & Hy & Hcy & Hdy)]; [left; congruence|].
        right. exists y. split; [|now split].
        apply Hkeep; [exact Hy|]. rewrite Hcy. discriminate.
      * destruct (fire_unlock tm x Ec) as (Hc & _ & _ & Hb & _).
        split; [congruence|]. split; [exact Hst|].
        destruct Hex as [Hs|(y & Hy & Hcy & Hdy)]; [left; congruence|].
        right. exists y. split; [|now split].
        apply Hkeep; [exact Hy|]. rewrite Hcy. discriminate.
      * destruct (fire_rescan tm x Ec) as (Hc & _ & _ & Hb & _).
        split; [congruence|]. split; [exact Hst|].
        destruct Hex as [Hs|(y & Hy & Hcy & Hdy)]; [left; congruence|].
        right. exists y. split; [|now split].
        apply Hkeep; [exact Hy|]. rewrite Hcy. discriminate.
  - left. split; [exact Hw|]. split; [exact Hq|]. split; [exact Ho|].
    split; [exact Hl|]. split; [exact HR|]. split; [exact Hnow|exact Hf].
  - exact H.
  - destruct HA as (_ & _ & _ & _ & HR0 & _). specialize (Hall R HR0). lia.
  - destruct HB as (_ & _ & _ & Hl0 & Ht0 & _ & Hex).
    assert (Hs : currentExpression s0 = standing).
    { destruct Hex as [?|(y & Hy & _ & Hdy)]; [assumption|].
      specialize (Hall y Hy). lia. }
    destruct s0. repeat split; assumption.
Qed.


(** *** The document and the image path over a visit *)

Lemma run_handler_page (h : handler) (s : state) :
  doc (run_handler h s) = doc s
  ∧ basePath (run_handler h s) = basePath s
  ∧ mascot_src (run_handler h s) = mascot_src s.
Proof.
  destruct h as [sel|]; cbn [run_handler].
  - assert (H : ∀ e m x, doc (changeMascotExpression e m x) = doc x
                ∧ basePath (changeMascotExpression e m x) = basePath x
                ∧ mascot_src (changeMascotExpression e m x) = mascot_src x).
    { intros e m x. destruct x. unfold changeMascotExpression. fields.
      destruct isLocked0; [repeat split|].
      destruct (decide (e ≠ currentExpression0)); destruct (Js.truthy m);
        repeat split. }
    assert (Hc : doc (clearTimeout (hoverTimeout s) s) = doc s
                 ∧ basePath (clearTimeout (hoverTimeout s) s) = basePath s
                 ∧ mascot_src (clearTimeout (hoverTimeout s) s) = mascot_src s).
    { destruct s. fields. destruct hoverTimeout0; repeat split. }
    destruct Hc as (Hc1 & Hc2 & Hc3).
    destruct (expressionMap_get sel) as [cfg|]; [|auto].
    destruct (H (cfg_expression cfg) (cfg_message cfg)
                (clearTimeout (hoverTimeout s) s)) as (H1 & H2 & H3).
    repeat split; congruence.
  - destruct s. fields. destruct hoverTimeout0; repeat split.
Qed.

Lemma dispatch_page (ty : event_type) (i : nat) (s : state) :
  doc (dispatch ty i s) = doc s
  ∧ basePath (dispatch ty i s) = basePath s
  ∧ mascot_src (dispatch ty i s) = mascot_src s.
Proof.
  unfold dispatch. destruct (doc s !! i) as [e|]; [|auto].
  generalize (listeners_for ty e). intros hs. revert s.
  induction hs as [|h hs IH]; intros s; [auto|].
  cbn [foldl]. destruct (IH (run_handler h s)) as (H1 & H2 & H3).
  destruct (run_handler_page h s) as (H4 & H5 & H6).
  repeat split; congruence.
Qed.

Lemma fire_doc (tm : timer) (s : state) :
  tm_cb tm ≠ Startup →
  doc (fire tm s) = doc s
  ∨ doc (fire tm s) = setupHoverDetection_doc (doc s).
Proof.
  intros Hcb. destruct s, tm. cbn in Hcb. unfold fire. cbn [tm_cb].
  destruct tm_cb0; try congruence; cbn [run_callback].
  - now left.
  - left. unfold resetMascot, changeMascotExpression, set_timers, set_now.
    fields. destruct isLocked0; [reflexivity|].
    destruct (decide (standing ≠ currentExpression0)); reflexivity.
  - now left.
  - now right.
Qed.

(** The document a visit works on is the page's, scanned. *)
Lemma doc_advance (fuel : nat) (t : Z) (s s' : state) :
  quiet s → setupHoverDetection_doc (doc s) = doc s →
  advance_to fuel t s = Some s' → doc s' = doc s.
Proof.
  intros Hq Hd H.
  destruct (advance_to_inv (λ x, quiet x ∧ doc x = doc s) t)
    with (fuel := fuel) (s := s) (s' := s') as (s0 & (_ & Hd0) & _ & ->).
  - intros x tm [Hqx Hdx] E _. pose proof (earliest_in _ _ E) as Hin.
    destruct (Hqx tm Hin) as [Hcb _]. split; [now apply quiet_fire|].
    destruct (fire_doc tm x Hcb) as [->| ->]; congruence.
  - now split.
  - exact H.
  - destruct s0. exact Hd0.
Qed.

Lemma doc_run (fuel : nat) (ins : list input) (s s' : state) :
  quiet s → setupHoverDetection_doc (doc s) = doc s →
  run fuel ins s = Some s' → doc s' = doc s.
Proof.
  revert s. induction ins as [|[ty i|ms] ins IH]; intros s Hq Hd H;
    cbn [run] in H.
  - now injection H as <-.
  - destruct (dispatch_page ty i s) as (Hp & _).
    rewrite <- Hp. apply IH; [now apply quiet_dispatch|congruence|exact H].
  - destruct (advance_to fuel (now s + ms) s) as [s1|] eqn:E; [|discriminate].
    pose proof (doc_advance _ _ _ _ Hq Hd E) as H1.
    destruct (advance_total (S (potential (now s + ms) (timers s)))
                (now s + ms) s Hq (Nat.lt_succ_diag_r _)) as (s2 & H2 & Hq2).
    assert (s2 = s1).
    { destruct (Nat.le_ge_cases fuel (S (potential (now s + ms) (timers s))))
        as [Hle|Hle].
      - pose proof (advance_to_mono _ _ _ _ _ E Hle). congruence.
      - pose proof (advance_to_mono _ _ _ _ _ H2 Hle). congruence. }
    subst s2. rewrite <- H1. apply IH; [exact Hq2|congruence|exact H].
Qed.

(** The state the start-up callback finds, field by field. *)
Lemma startup_state (p : page) (m : img) (c : caption) :
  pg_mascot p = Some m → pg_bubble p = Some c →
  ∃ b,
    (isLocked b = false
     ∧ timers b = [Timer 2 3000 Rescan (Some 3000%Z)]
     ∧ next_id b = 3
     ∧ now b = 500%Z
     ∧ hoverTimeout b = None
     ∧ currentExpression b = standing
     ∧ bubble_text b = defaultMessage
     ∧ doc b = pg_doc p)
    ∧ (mascot_src b = img_src m
       ∧ mascot_opacity b = img_opacity m
       ∧ bubble_color b = cap_color c
       ∧ basePath b
         = Js.substring0 (Js.lastIndexOf "/" (img_src m) + 1) (img_src m))
    ∧ after [Wait 500] p
      = Some (set_now 500 (setupHoverDetection (checkScores b))).
Proof.
  intros Hm Hc. unfold after, main. rewrite Hm, Hc.
  set (s0 := snd (setInterval Rescan 3000 _)).
  cbn [run].
  set (tm := Timer 1 500 Startup None).
  rewrite (advance_to_fire 63 _ s0 tm) by (reflexivity || (cbn; lia)).
  rewrite fire_pre. cbn [tm_cb tm run_callback].
  set (b := pre tm s0).
  assert (Hb : isLocked b = false
               ∧ timers b = [Timer 2 3000 Rescan (Some 3000%Z)]
               ∧ next_id b = 3 ∧ now b = 500%Z ∧ hoverTimeout b = None
               ∧ currentExpression b = standing
               ∧ bubble_text b = defaultMessage ∧ doc b = pg_doc p)
    by (repeat split).
  exists b. split; [exact Hb|]. split; [repeat split|].
  destruct Hb as (Hl & Ht & Hn & Hnow & Hh & He & Htx & Hd).
  destruct (checkScores_spec b Hl) as (extra & Hs & _ & _ & _ & Hcase).
  destruct (setupHoverDetection_fields (checkScores b))
    as (Ht' & _ & Hnow' & _).
  rewrite advance_to_stop.
  - do 2 f_equal. rewrite Hnow', (sh_now _ _ _ _ Hs), Hnow. reflexivity.
  - intros x Hx. rewrite Ht', (sh_timers _ _ _ _ Hs), Ht in Hx.
    cbn [cancel_opt] in Hx. change (now s0 + 500)%Z with 500%Z.
    apply elem_of_app in Hx as [Hx|Hx].
    + apply list_elem_of_singleton in Hx. subst x. cbn. lia.
    + destruct Hcase as [(_ & -> & _) | (_ & _ & _ & [-> | [-> | ->]])];
        unfold reset_timer, fade_timer in Hx; rewrite ?Hnow in Hx;
        elem_cases Hx; cbn; lia.
Qed.

Lemma startup_doc (p : page) (s1 : state) :
  after [Wait 500] p = Some s1 →
  doc s1 = setupHoverDetection_doc (pg_doc p).
Proof.
  intros H. apply startup in H as (b & Hl & _ & _ & _ & _ & _ & _ & Hd & ->).
  destruct (checkScores_spec b Hl) as (_ & _ & _ & _ & Hd' & _).
  rewrite <- Hd, <- Hd'. destruct (checkScores b). reflexivity.
Qed.

(** Whatever came in since, the document is the page's, scanned once. *)
Lemma visit_doc (p : page) (fuel : nat) (ins : list input) (s1 s : state) :
  after [Wait 500] p = Some s1 → run fuel ins s1 = Some s →
  doc s = setupHoverDetection_doc (pg_doc p).
Proof.
  intros H1 H. pose proof (startup_doc p s1 H1) as Hd.
  rewrite <- Hd. apply (doc_run fuel ins); [|rewrite Hd|exact H].
  - exact (startup_quiet p s1 H1).
  - apply setupHoverDetection_doc_twice.
Qed.


(** *** Hovering, from any point of a visit *)

(** An element of the page that carries no marker and no listener and
    matches the registry: the scan binds it under its first rule. *)
Lemma bound_element (d : document) (i : nat) (e0 : element) (sel : selector)
    (cfg : config) :
  d !! i = Some e0 → hasAttribute marker e0 = false → el_listeners e0 = [] →
  first_rule d e0 = Some (sel, cfg) →
  ∃ el, setupHoverDetection_doc d !! i = Some el
        ∧ el_listeners el = pair_for sel
        ∧ expressionMap_get sel = Some cfg
        ∧ Js.truthy (cfg_message cfg) = true.
Proof.
  intros Hi Hm Hl Hf. exists (bind sel e0).
  assert (He : setup_element e0 = bind sel e0).
  { destruct (setup_element_cases d e0)
      as [[_ [H|H]]|(sel' & cfg' & _ & Hf' & ->)]; congruence. }
  split; [|split; [|split]].
  - rewrite setupHoverDetection_doc_fmap, list_lookup_fmap, Hi.
    cbn [fmap option_fmap option_map]. now rewrite He.
  - rewrite (bind_unmarked sel e0 Hm). cbn [el_listeners]. now rewrite Hl.
  - exact (lookup_key_first _ _ _ _ _ Hf).
  - apply find_some in Hf as [Hin _].
    pose proof registry_messages_truthy as Hall.
    rewrite Forall_forall in Hall. apply (Hall (sel, cfg)).
    now apply list_elem_of_In.
Qed.

Lemma clearTimeout_fields (s : state) :
  let s' := clearTimeout (hoverTimeout s) s in
  timers s' = cancel_opt (hoverTimeout s) (timers s)
  ∧ next_id s' = next_id s ∧ now s' = now s
  ∧ isLocked s' = isLocked s
  ∧ currentExpression s' = currentExpression s.
Proof. destruct s. fields. destruct hoverTimeout0; repeat split. Qed.

Lemma run_hover_wait (fuel : nat) (ty : event_type) (i : nat) (ms : Z)
    (s s' : state) :
  advance_to fuel (now (dispatch ty i s) + ms) (dispatch ty i s) = Some s' →
  run fuel [Hover ty i; Wait ms] s = Some s'.
Proof. intros H. cbn [run]. now rewrite H. Qed.

(** X1.  On every page, at any point of a visit after start-up at which the
    lock is off: the pointer enters an element that the page delivered
    without marker and without listeners and that matches the registry, so
    that the scan has bound it under its first rule.  The caption is that
    rule's message at once.  150 ms later, nothing else having come in, the
    current expression is the rule's, provided the rule's expression
    differed from the current one when the pointer came in (the image is
    the rule's then, too), or no fade was pending: when the two agree the
    listener starts no fade, and a fade that is pending still lands. *)
Theorem hover_enter_shows_the_rule (p : page) (fuel : nat) (ins : list input)
    (s1 s : state) (i : nat) (e0 : element) (sel : selector) (cfg : config) :
  after [Wait 500] p = Some s1 →
  run fuel ins s1 = Some s →
  pg_doc p !! i = Some e0 →
  hasAttribute marker e0 = false → el_listeners e0 = [] →
  first_rule (pg_doc p) e0 = Some (sel, cfg) →
  isLocked s = false →
  (cfg_expression cfg ≠ currentExpression s
   ∨ ∀ tm e, tm ∈ timers s → tm_cb tm ≠ FadeTo e) →
  bubble_text (dispatch mouseenter i s) = cfg_message cfg
  ∧ ∃ fuel' s',
      run fuel' [Hover mouseenter i; Wait 150] s = Some s'
      ∧ currentExpression s' = cfg_expression cfg
      ∧ (cfg_expression cfg ≠ currentExpression s →
         mascot_src s' = expressions (basePath s) (cfg_expression cfg)).
Proof.
  intros H1 Hrun Hi Hm Hnl Hf Hl Hpre.
  pose proof (ready_run _ _ _ _ (startup_ready p s1 H1) Hrun) as Hr.
  destruct (bound_element _ _ _ _ _ Hi Hm Hnl Hf) as (el & Hel & Hls & Hget & Htr).
  rewrite <- (visit_doc p fuel ins s1 s H1 Hrun) in Hel.
  pose proof (ready_dispatch mouseenter i s Hr) as Hr2.
  destruct (dispatch_page mouseenter i s) as (_ & Hbase & _).
  destruct (dispatch_single_enter _ _ _ _ Hel Hls) as [Hd _].
  set (s2 := dispatch mouseenter i s) in *.
  cbn [run_handler] in Hd. rewrite Hget in Hd.
  destruct (clearTimeout_fields s) as (Hct & Hcn & Hcnow & Hcl & Hce).
  set (sc := clearTimeout (hoverTimeout s) s) in *.
  destruct (changeMascotExpression_unlocked (cfg_expression cfg)
              (cfg_message cfg) sc) as (Htxt & _ & Hcur & Hnow & Htm & _);
    [congruence|exact Htr|].
  rewrite <- Hd in Htxt, Hcur, Hnow, Htm.
  split; [exact Htxt|].
  destruct (advance_total (S (potential (now s2 + 150) (timers s2)))
              (now s2 + 150) s2 (rd_quiet _ Hr2) (Nat.lt_succ_diag_r _))
    as (s' & Hadv & _).
  exists (S (potential (now s2 + 150) (timers s2))), s'.
  split; [now apply run_hover_wait|].
  destruct (decide (cfg_expression cfg ≠ currentExpression sc)) as [Hne|Heq].
  - set (f := Timer (next_id sc) (now sc + 150) (FadeTo (cfg_expression cfg))
                None) in *.
    assert (Hdue : (now s2 + 150)%Z = tm_due f) by (cbn; congruence).
    rewrite Hdue in Hadv.
    destruct (fade_lands (cfg_expression cfg) f
                (S (potential (tm_due f) (timers s2))) s2 s' (timers sc) []
                (rd_wf _ Hr2) (rd_quiet _ Hr2) (rd_one_shot _ Hr2) Htm eq_refl)
      as [Hc Hs]; [| |exact Hadv|].
    + intros x e' Hx. now apply elem_of_nil in Hx.
    + intros x Hx. pose proof (rd_timely _ Hr2 x Hx). cbn. lia.
    + split; [exact Hc|]. intros _. now rewrite <- Hbase.
  - assert (Hsame : cfg_expression cfg = currentExpression s).
    { rewrite <- Hce.
      destruct (decide (cfg_expression cfg = currentExpression sc));
        [assumption|contradiction]. }
    destruct Hpre as [Hne|Hnf]; [contradiction|].
    destruct (landed_advance (cfg_expression cfg) (mascot_src s2)
                (now s2 + 150) (S (potential (now s2 + 150) (timers s2)))
                s2 s' (rd_quiet _ Hr2) (rd_one_shot _ Hr2))
      as [Hc _]; [congruence|reflexivity| | |exact Hadv|].
    + intros x e' Hx Hcx. rewrite Htm, Hct in Hx.
      apply elem_of_cancel_opt in Hx as [Hx _]. now destruct (Hnf x e' Hx).
    + intros x Hx. pose proof (rd_timely _ Hr2 x Hx). lia.
    + split; [exact Hc|]. intros Hne. contradiction.
Qed.

(** The submit button of the page with an ATS score of 90, entered right
    after start-up, while the fade to [happy] of the score check is pending. *)
Lemma hover_enter_shows_the_rule_witness :
  ∃ s1,
    after [Wait 500] Samples.good_ats = Some s1
    ∧ bubble_text (dispatch mouseenter 2 s1) = "Ready? Let's do this! 💪"
    ∧ ∃ fuel' s',
        run fuel' [Hover mouseenter 2; Wait 150] s1 = Some s'
        ∧ currentExpression s' = happy.
Proof.
  eexists. split; [vm_compute; reflexivity|].
  destruct (hover_enter_shows_the_rule Samples.good_ats 0 [] _ _ 2
              Samples.submit (TagAttr "button" "type" "submit")
              (Config happy "Ready? Let's do this! 💪")
              ltac:(vm_compute; reflexivity) eq_refl eq_refl eq_refl eq_refl
              eq_refl eq_refl)
    as (Ht & fuel' & s' & Hr & Hc & _).
  - left. vm_compute. discriminate.
  - split; [exact Ht|]. exists fuel', s'. split; [exact Hr|exact Hc].
Defined.


(** X2.  On every page, at any point of a visit after start-up at which the
    lock is off: the pointer leaves an element the scan has bound, and
    nothing else comes in.  450 ms later, and at any later time, the
    current expression is [standing] and the caption is the default
    message: the reset falls due after 300 ms and its fade 150 ms after
    that. *)
Theorem hover_leave_reverts (p : page) (fuel : nat) (ins : list input)
    (s1 s : state) (i : nat) (e0 : element) (sel : selector) (cfg : config)
    (ms : Z) :
  after [Wait 500] p = Some s1 →
  run fuel ins s1 = Some s →
  pg_doc p !! i = Some e0 →
  hasAttribute marker e0 = false → el_listeners e0 = [] →
  first_rule (pg_doc p) e0 = Some (sel, cfg) →
  isLocked s = false →
  (450 ≤ ms)%Z →
  ∃ fuel' s',
    run fuel' [Hover mouseleave i; Wait ms] s = Some s'
    ∧ currentExpression s' = standing
    ∧ bubble_text s' = defaultMessage.
Proof.
  intros H1 Hrun Hi Hm Hnl Hf Hl Hms.
  pose proof (ready_run _ _ _ _ (startup_ready p s1 H1) Hrun) as Hr.
  destruct (bound_element _ _ _ _ _ Hi Hm Hnl Hf) as (el & Hel & Hls & _).
  rewrite <- (visit_doc p fuel ins s1 s H1 Hrun) in Hel.
  pose proof (ready_dispatch mouseleave i s Hr) as Hr2.
  destruct (dispatch_single_enter _ _ _ _ Hel Hls) as [_ Hd].
  set (s2 := dispatch mouseleave i s) in *.
  destruct (run_handler_spec OnMouseLeave s)
    as (extra & Hs & Hlk & _ & _ & _ & [(_ & (? & ?) & _)|(_ & _ & ->)]);
    [discriminate|].
  rewrite <- Hd in Hs, Hlk.
  destruct (advance_total (S (potential (now s2 + ms) (timers s2)))
              (now s2 + ms) s2 (rd_quiet _ Hr2) (Nat.lt_succ_diag_r _))
    as (s' & Hadv & _).
  exists (S (potential (now s2 + ms) (timers s2))), s'.
  split; [now apply run_hover_wait|].
  destruct (reset_settles (reset_timer 300 s) (now s2 + ms)
              (S (potential (now s2 + ms) (timers s2))) s2 s'
              (rd_wf _ Hr2) (rd_quiet _ Hr2) (rd_one_shot _ Hr2))
    as (Hc & Ht & _); [congruence| |reflexivity| | | |exact Hadv|auto].
  - rewrite (sh_timers _ _ _ _ Hs). apply elem_of_app. right.
    now apply list_elem_of_singleton.
  - rewrite (sh_now _ _ _ _ Hs). cbn. lia.
  - rewrite (sh_now _ _ _ _ Hs). cbn. lia.
  - intros x e Hx Hcx _. pose proof (rd_prompt _ Hr2 x e Hx Hcx) as Hp.
    rewrite (sh_now _ _ _ _ Hs) in Hp. cbn. lia.
Qed.

(** The pointer leaves the submit button of the page with an ATS score of
    90 right after start-up. *)
Lemma hover_leave_reverts_witness :
  ∃ s1 fuel' s',
    after [Wait 500] Samples.good_ats = Some s1
    ∧ run fuel' [Hover mouseleave 2; Wait 450] s1 = Some s'
    ∧ currentExpression s' = standing
    ∧ bubble_text s' = defaultMessage.
Proof.
  destruct (hover_leave_reverts Samples.good_ats 0 [] _ _ 2
              Samples.submit (TagAttr "button" "type" "submit")
              (Config happy "Ready? Let's do this! 💪") 450
              ltac:(vm_compute; reflexivity) eq_refl eq_refl eq_refl eq_refl
              eq_refl eq_refl ltac:(lia))
    as (fuel' & s' & Hr & Hc & Ht).
  eexists _, fuel', s'. split; [vm_compute; reflexivity|].
  split; [exact Hr|]. split; [exact Hc|exact Ht].
Defined.

(** *** Moving from one element to the next *)

Lemma fire_hoverTimeout (tm : timer) (s : state) :
  tm_cb tm ≠ Startup → hoverTimeout (fire tm s) = hoverTimeout s.
Proof.
  intros Hcb. rewrite fire_pre.
  destruct (pre_fields tm s) as (_ & _ & _ & Hh & _). rewrite <- Hh.
  destruct (tm_cb tm); try congruence; cbn [run_callback].
  - destruct (pre tm s); reflexivity.
  - destruct (resetMascot_spec (pre tm s)) as (_ & _ & H & _). exact H.
  - destruct (pre tm s); reflexivity.
  - destruct (pre tm s); reflexivity.
Qed.

(** While no reset falls due, none comes in either, and the caption stays
    as it is. *)
Lemma no_reset_advance (fuel : nat) (t : Z) (s s' : state) :
  quiet s → one_shot s → isLocked s = false →
  (∀ x, x ∈ timers s → tm_cb x = ResetMascot → (t < tm_due x)%Z) →
  advance_to fuel t s = Some s' →
  quiet s' ∧ one_shot s' ∧ isLocked s' = false
  ∧ hoverTimeout s' = hoverTimeout s
  ∧ bubble_text s' = bubble_text s
  ∧ ∀ x, x ∈ timers s' → tm_cb x = ResetMascot → x ∈ timers s.
Proof.
  intros Hq Ho Hl Hres H.
  pose (I := λ x : state,
          quiet x ∧ one_shot x ∧ isLocked x = false
          ∧ hoverTimeout x = hoverTimeout s
          ∧ bubble_text x = bubble_text s
          ∧ (∀ y, y ∈ timers x → tm_cb y = ResetMascot →
                  y ∈ timers s ∧ (t < tm_due y)%Z)).
  destruct (advance_to_inv I t) with (fuel := fuel) (s := s) (s' := s')
    as (s0 & (Hq0 & Ho0 & Hl0 & Hh0 & Hb0 & Hr0) & _ & ->).
  - intros x tm (Hqx & Hox & Hlx & Hhx & Hbx & Hrx) E Hle.
    pose proof (earliest_in _ _ E) as Hin. destruct (Hqx tm Hin) as [Hcb _].
    split; [now apply quiet_fire|]. split; [now apply one_shot_fire|].
    split; [now apply fire_stays_unlocked|].
    split; [rewrite fire_hoverTimeout by exact Hcb; exact Hhx|].
    split.
    + destruct (tm_cb tm) eqn:Ec; [| | |congruence|].
      * destruct (fire_fade tm x e Ec) as (_ & _ & _ & Hb & _). congruence.
      * destruct (Hrx tm Hin Ec) as [_ ?]. lia.
      * destruct (fire_unlock tm x Ec) as (_ & _ & _ & Hb & _). congruence.
      * destruct (fire_rescan tm x Ec) as (_ & _ & _ & Hb & _). congruence.
    + intros y Hy Hcy.
      destruct (fire_elem tm y x Hqx Hox Hin Hy)
        as [[Hold _]|[(_ & Hr & _)|(_ & _ & ->)]].
      * now apply Hrx.
      * congruence.
      * discriminate.
  - split; [exact Hq|]. split; [exact Ho|]. split; [exact Hl|].
    split; [reflexivity|]. split; [reflexivity|].
    intros y Hy Hcy. split; [exact Hy|now apply Hres].
  - exact H.
  - assert (Hf : quiet (set_now (Z.max (now s0) t) s0)
                 ∧ one_shot (set_now (Z.max (now s0) t) s0)) by
      (destruct s0; split; assumption).
    destruct Hf as [Hf1 Hf2]. split; [exact Hf1|]. split; [exact Hf2|].
    destruct s0. split; [exact Hl0|]. split; [exact Hh0|].
    split; [exact Hb0|]. intros y Hy Hcy. now apply (Hr0 y Hy Hcy).
Qed.

(** X3.  The debounce of the mouseleave listener.  On every page, at any point
    of a visit after start-up at which the lock is off and no [resetMascot]
    is pending but the one [hoverTimeout] holds: the pointer leaves a bound
    element and enters a bound element less than 300 ms later.  The
    listener of the second clears the reset of the first before it fires,
    so the caption is the message of the element entered and stays so
    however long the pointer rests there. *)
Theorem moving_on_keeps_the_new_caption (p : page) (fuel : nat)
    (ins : list input) (s1 s : state) (i j : nat) (ei ej : element)
    (seli sel : selector) (cfgi cfg : config) (w ms : Z) :
  after [Wait 500] p = Some s1 →
  run fuel ins s1 = Some s →
  pg_doc p !! i = Some ei →
  hasAttribute marker ei = false → el_listeners ei = [] →
  first_rule (pg_doc p) ei = Some (seli, cfgi) →
  pg_doc p !! j = Some ej →
  hasAttribute marker ej = false → el_listeners ej = [] →
  first_rule (pg_doc p) ej = Some (sel, cfg) →
  isLocked s = false →
  (∀ tm, tm ∈ timers s → tm_cb tm = ResetMascot →
         hoverTimeout s = Some (tm_id tm)) →
  (w < 300)%Z →
  ∃ fuel' s',
    run fuel' [Hover mouseleave i; Wait w; Hover mouseenter j; Wait ms] s
    = Some s'
    ∧ bubble_text s' = cfg_message cfg.
Proof.
  intros H1 Hrun Hi Hmi Hli Hfi Hj Hmj Hlj Hfj Hl Honly Hw.
  pose proof (ready_run _ _ _ _ (startup_ready p s1 H1) Hrun) as Hr.
  pose proof (visit_doc p fuel ins s1 s H1 Hrun) as Hdoc.
  destruct (bound_element _ _ _ _ _ Hi Hmi Hli Hfi) as (eli & Heli & Hlsi & _).
  destruct (bound_element _ _ _ _ _ Hj Hmj Hlj Hfj)
    as (elj & Helj & Hlsj & Hget & Htr).
  rewrite <- Hdoc in Heli, Helj.
  destruct (run_total [Hover mouseleave i; Wait w; Hover mouseenter j; Wait ms]
              s (rd_quiet _ Hr)) as (fuel' & s' & Hall).
  exists fuel', s'. split; [exact Hall|].
  cbn [run] in Hall.
  (* the pointer leaves *)
  pose proof (ready_dispatch mouseleave i s Hr) as Hr2.
  destruct (dispatch_page mouseleave i s) as (Hd2 & _).
  destruct (dispatch_single_enter _ _ _ _ Heli Hlsi) as [_ Hdl].
  set (s2 := dispatch mouseleave i s) in *.
  destruct (run_handler_spec OnMouseLeave s)
    as (extra & Hs & Hlk & _ & _ & _ & [(_ & (? & ?) & _)|(_ & Hh2 & ->)]);
    [discriminate|].
  rewrite <- Hdl in Hs, Hlk, Hh2.
  assert (Hres2 : ∀ x, x ∈ timers s2 → tm_cb x = ResetMascot →
                       x = reset_timer 300 s).
  { intros x Hx Hcx.
    destruct (shape_elem _ _ _ _ x Hs Hx) as [[Hold Hne]|[Hnew _]].
    - destruct Hne. now apply Honly.
    - now apply list_elem_of_singleton in Hnew. }
  (* less than 300 ms pass *)
  destruct (advance_to fuel' (now s2 + w) s2) as [s3|] eqn:E3; [|discriminate].
  assert (Hl2 : isLocked s2 = false) by congruence.
  assert (Hlate : ∀ x, x ∈ timers s2 → tm_cb x = ResetMascot →
                       (now s2 + w < tm_due x)%Z).
  { intros x Hx Hcx. rewrite (Hres2 x Hx Hcx), (sh_now _ _ _ _ Hs). cbn. lia. }
  destruct (no_reset_advance _ _ _ _ (rd_quiet _ Hr2) (rd_one_shot _ Hr2)
              Hl2 Hlate E3)
    as (Hq3 & Ho3 & Hl3 & Hh3 & _ & Hres3).
  assert (Hscan : setupHoverDetection_doc (doc s2) = doc s2)
    by (rewrite Hd2, Hdoc; apply setupHoverDetection_doc_twice).
  pose proof (doc_advance _ _ _ _ (rd_quiet _ Hr2) Hscan E3) as Hd3.
  (* the pointer enters the next element *)
  assert (Helj3 : doc s3 !! j = Some elj) by congruence.
  destruct (dispatch_single_enter _ _ _ _ Helj3 Hlsj) as [Hde _].
  set (s4 := dispatch mouseenter j s3) in *.
  cbn [run_handler] in Hde. rewrite Hget in Hde.
  destruct (clearTimeout_fields s3) as (Hct & _ & _ & Hcl & _).
  set (sc := clearTimeout (hoverTimeout s3) s3) in *.
  destruct (changeMascotExpression_unlocked (cfg_expression cfg)
              (cfg_message cfg) sc) as (Htxt & Hl4 & _ & _ & Htm & _);
    [congruence|exact Htr|].
  rewrite <- Hde in Htxt, Hl4, Htm.
  assert (Hq4 : quiet s4) by now apply quiet_dispatch.
  assert (Ho4 : one_shot s4).
  { intros x Hx Hcb. rewrite Htm in Hx.
    assert (Hx' : x ∈ timers sc ∨ tm_every x = None).
    { destruct (decide _); [|now left].
      apply elem_of_app in Hx as [?|Hx]; [now left|right].
      apply list_elem_of_singleton in Hx. now subst x. }
    destruct Hx' as [Hx'|?]; [|assumption].
    rewrite Hct in Hx'. apply elem_of_cancel_opt in Hx' as [Hx' _].
    now apply Ho3. }
  assert (Hres4 : ∀ x, x ∈ timers s4 → tm_cb x ≠ ResetMascot).
  { intros x Hx Hcx. rewrite Htm in Hx.
    assert (Hx' : x ∈ timers sc).
    { destruct (decide _); [|assumption].
      apply elem_of_app in Hx as [?|Hx]; [assumption|].
      apply list_elem_of_singleton in Hx. subst x. discriminate. }
    rewrite Hct in Hx'. apply elem_of_cancel_opt in Hx' as [Hx' Hne].
    apply Hne. rewrite Hh3, Hh2.
    rewrite (Hres2 x (Hres3 x Hx' Hcx) Hcx). reflexivity. }
  (* and rests there *)
  destruct (advance_to fuel' (now s4 + ms) s4) as [s5|] eqn:E5; [|discriminate].
  injection Hall as <-. rewrite <- Htxt.
  assert (Hnone : ∀ x, x ∈ timers s4 → tm_cb x = ResetMascot →
                       (now s4 + ms < tm_due x)%Z)
    by (intros x Hx Hcx; now destruct (Hres4 x Hx)).
  exact (proj1 (proj2 (proj2 (proj2 (proj2
           (no_reset_advance _ _ _ _ Hq4 Ho4 Hl4 Hnone E5)))))).
Qed.

(** From the navigation link of the landing page to its submit button,
    the one with [type="Submit"], in 100 ms, and ten seconds on the
    button. *)
Lemma moving_on_keeps_the_new_caption_witness :
  ∃ s1 fuel' s',
    after [Wait 500] Visits.landing = Some s1
    ∧ run fuel'
        [Hover mouseleave 1; Wait 100; Hover mouseenter 0; Wait 10000] s1
      = Some s'
    ∧ bubble_text s' = "Ready? Let's do this! 💪".
Proof.
  destruct (moving_on_keeps_the_new_caption Visits.landing 0 [] _ _ 1 0
              (Samples.plain "a" ["nav-link"] "Home" None)
              Visits.capital_submit
              (Tag "a") (TagAttr "button" "type" "submit")
              (Config standing "Want to go there? I'll come with you! 👋")
              (Config happy "Ready? Let's do this! 💪")
              100 10000
              ltac:(vm_compute; reflexivity) eq_refl eq_refl eq_refl eq_refl
              eq_refl eq_refl eq_refl eq_refl eq_refl eq_refl)
    as (fuel' & s' & Hr & Ht).
  - intros tm Hin Hcb. vm_compute in Hin. elem_cases Hin. discriminate.
  - lia.
  - eexists _, fuel', s'. split; [vm_compute; reflexivity|].
    split; [exact Hr|exact Ht].
Defined.

(** *** The score check, seen over time *)

Lemma scanned_fields (x : state) :
  let s' := set_now 500 (setupHoverDetection x) in
  timers s' = timers x ∧ now s' = 500%Z
  ∧ bubble_text s' = bubble_text x
  ∧ currentExpression s' = currentExpression x
  ∧ isLocked s' = isLocked x
  ∧ basePath s' = basePath x
  ∧ shown s' = shown x.
Proof. destruct x. repeat split. Qed.

Lemma setTimeout_fields (cb : callback) (d : Z) (x : state) :
  let s' := snd (setTimeout cb d x) in
  timers s' = timers x ++ [Timer (next_id x) (now x + d) cb None]
  ∧ bubble_text s' = bubble_text x
  ∧ currentExpression s' = currentExpression x
  ∧ isLocked s' = isLocked x
  ∧ basePath s' = basePath x
  ∧ shown s' = shown x.
Proof. destruct x. repeat split. Qed.

Lemma run_wait (fuel : nat) (ms : Z) (s s' : state) :
  advance_to fuel (now s + ms) s = Some s' → run fuel [Wait ms] s = Some s'.
Proof. intros H. cbn [run]. now rewrite H. Qed.

(** X4.  Good scores, on every page where no low-score rule matches and the
    ATS or the job-match read-out is shown, while nobody hovers: the
    start-up callback, 500 ms in, puts the congratulation in the caption,
    with the mascot still standing and the lock off, and the caption keeps
    it for any wait short of 3000 ms; 150 ms after start-up the current
    expression is [happy] and the image is the happy one of the image
    directory; 3150 ms after start-up, and at any later time, the
    expression is [standing] again and the caption is the default
    message. *)
Theorem good_scores_timeline (p : page) (m : img) (c : caption) :
  pg_mascot p = Some m → pg_bubble p = Some c →
  ScoreRules.first_match (ScoreRules.read (pg_doc p)) = None →
  Js.nonnull (querySelector (pg_doc p) ats_selector)
    || Js.nonnull (querySelector (pg_doc p) job_selector) = true →
  ∃ s1,
    after [Wait 500] p = Some s1
    ∧ bubble_text s1 = happy_message
    ∧ currentExpression s1 = standing
    ∧ isLocked s1 = false
    ∧ (∀ ms, (ms < 3000)%Z →
         ∃ fuel s, run fuel [Wait ms] s1 = Some s
                   ∧ bubble_text s = happy_message)
    ∧ (∃ fuel s, run fuel [Wait 150] s1 = Some s
                 ∧ currentExpression s = happy
                 ∧ mascot_src s
                   = expressions
                       (Js.substring0 (Js.lastIndexOf "/" (img_src m) + 1)
                          (img_src m)) happy)
    ∧ (∀ ms, (3150 ≤ ms)%Z →
         ∃ fuel s, run fuel [Wait ms] s1 = Some s
                   ∧ currentExpression s = standing
                   ∧ bubble_text s = defaultMessage).
Proof.
  intros Hm Hc Hf Hp.
  destruct (startup_state p m c Hm Hc)
    as (b & (Hl & Ht & Hn & Hnow & Hh & He & Htx & Hd) & (_ & _ & _ & Hb)
        & Hs1).
  set (s1 := set_now 500 (setupHoverDetection (checkScores b))) in *.
  pose proof (startup_ready p s1 Hs1) as Hr.
  rewrite <- Hd in Hf, Hp.
  pose proof (checkScores_happy b Hf Hp) as Hcs.
  destruct (changeMascotExpression_unlocked happy happy_message b Hl eq_refl)
    as (Hb1 & Hl1 & Hc1 & Hn1 & Ht1 & Hi1).
  rewrite He in Ht1, Hi1.
  rewrite decide_True in Ht1 by discriminate.
  rewrite decide_True in Hi1 by discriminate.
  set (f := Timer 3 650 (FadeTo happy) None).
  set (R := Timer 4 3500 ResetMascot None).
  assert (Hfield : timers s1 = [Timer 2 3000 Rescan (Some 3000%Z)] ++ f :: [R]
                   ∧ now s1 = 500%Z ∧ bubble_text s1 = happy_message
                   ∧ currentExpression s1 = standing ∧ isLocked s1 = false
                   ∧ basePath s1 = basePath b).
  { destruct (scanned_fields (checkScores b))
      as (E1 & E2 & E3 & E4 & E5 & E6 & _).
    fold s1 in E1, E2, E3, E4, E5, E6.
    rewrite E1, E3, E4, E5, E6, Hcs.
    set (s2 := changeMascotExpression happy happy_message b) in *.
    destruct (setTimeout_fields ResetMascot 3000 s2)
      as (F1 & F3 & F4 & F5 & F6 & _).
    rewrite F1, F3, F4, F5, F6, Ht1, Hb1, Hc1, Hl1, Hi1, Hn1, Ht, Hn, Hnow, He.
    split; [reflexivity|]. do 4 (split; [reflexivity|]).
    subst s2. destruct b. unfold changeMascotExpression. fields.
    cbn in Hl. subst. destruct (decide _); reflexivity. }
  destruct Hfield as (Htm & Hnow1 & Htxt & Hcur & Hlk & Hbase).
  exists s1. do 4 (split; [assumption|]).
  assert (Hrun : ∀ ms, ∃ s,
             advance_to (S (potential (now s1 + ms) (timers s1)))
               (now s1 + ms) s1 = Some s).
  { intros ms.
    destruct (advance_total (S (potential (now s1 + ms) (timers s1)))
                (now s1 + ms) s1 (rd_quiet _ Hr) (Nat.lt_succ_diag_r _))
      as (s & Hadv & _). eauto. }
  split; [|split].
  - intros ms Hms. destruct (Hrun ms) as (s & Hadv).
    eexists _, s. split; [apply run_wait; exact Hadv|].
    rewrite <- Htxt.
    assert (Hlate : ∀ x, x ∈ timers s1 → tm_cb x = ResetMascot →
                         (now s1 + ms < tm_due x)%Z).
    { intros x Hx Hcx. rewrite Htm in Hx. rewrite Hnow1.
      elem_cases Hx; try discriminate. cbn. lia. }
    exact (proj1 (proj2 (proj2 (proj2 (proj2
             (no_reset_advance _ _ _ _ (rd_quiet _ Hr) (rd_one_shot _ Hr)
                Hlk Hlate Hadv)))))).
  - destruct (Hrun 150%Z) as (s & Hadv).
    eexists _, s. split; [apply run_wait; exact Hadv|].
    rewrite Hnow1 in Hadv. change (500 + 150)%Z with (tm_due f) in Hadv.
    rewrite <- Hb, <- Hbase.
    apply (fade_lands happy f _ s1 s _ _
             (rd_wf _ Hr) (rd_quiet _ Hr) (rd_one_shot _ Hr) Htm eq_refl)
      with (3 := Hadv).
    + intros x e' Hx. elem_cases Hx. discriminate.
    + intros x Hx. rewrite Htm in Hx. elem_cases Hx; cbn; lia.
  - intros ms Hms. destruct (Hrun ms) as (s & Hadv).
    eexists _, s. split; [apply run_wait; exact Hadv|].
    destruct (reset_settles R (now s1 + ms)
                (S (potential (now s1 + ms) (timers s1))) s1 s
                (rd_wf _ Hr) (rd_quiet _ Hr) (rd_one_shot _ Hr) Hlk)
      as (H1 & H2 & _); [| | | | |exact Hadv|auto].
    + rewrite Htm. apply elem_of_cons. right. apply elem_of_cons. right.
      apply elem_of_cons. now left.
    + reflexivity.
    + rewrite Hnow1. cbn. lia.
    + rewrite Hnow1. cbn. lia.
    + intros x e Hx Hcx _. rewrite Htm in Hx.
      elem_cases Hx; try discriminate. cbn. lia.
Qed.

(** The page with an ATS score of 90, 150 ms and one minute after
    start-up. *)
Lemma good_scores_timeline_witness :
  ∃ s1,
    after [Wait 500] Samples.good_ats = Some s1
    ∧ bubble_text s1 = happy_message
    ∧ (∃ fuel s, run fuel [Wait 150] s1 = Some s
                 ∧ currentExpression s = happy)
    ∧ (∃ fuel s, run fuel [Wait 60000] s1 = Some s
                 ∧ currentExpression s = standing
                 ∧ bubble_text s = defaultMessage).
Proof.
  destruct (good_scores_timeline Samples.good_ats Samples.fox Samples.speech
              eq_refl eq_refl ltac:(vm_compute; reflexivity)
              ltac:(vm_compute; reflexivity))
    as (s1 & H1 & Ht & _ & _ & _ & (f & s & Hr & Hc & _) & Hlate).
  exists s1. split; [exact H1|]. split; [exact Ht|]. split.
  - exists f, s. split; [exact Hr|exact Hc].
  - apply Hlate. lia.
Defined.


(** *** Pages without scores *)

Lemma fire_rescan_shown (tm : timer) (s : state) :
  tm_cb tm = Rescan → shown (fire tm s) = shown s.
Proof.
  intros H. destruct (fire_rescan tm s H) as (_ & H1 & H2 & H3 & H4 & _).
  unfold shown. congruence.
Qed.

Lemma calm_advance (v : display) (fuel : nat) (t : Z) (s s' : state) :
  calm v s → advance_to fuel t s = Some s' → calm v s'.
Proof.
  intros Hc H.
  destruct (advance_to_inv (calm v) t) with (fuel := fuel) (s := s) (s' := s')
    as (s0 & Hc0 & _ & ->).
  - intros x tm [Ho Hs He Hl] E _. pose proof (earliest_in _ _ E) as Hin.
    pose proof (Ho tm Hin) as Hcb.
    destruct (fire_rescan tm x Hcb) as (He' & _ & _ & _ & _ & Hl' & _ & Ht & _).
    split.
    + intros y Hy. rewrite Ht in Hy.
      apply rearm_elem in Hy as [[Hold _]|(_ & Hy & _)]; [auto|congruence].
    + rewrite fire_rescan_shown by exact Hcb. exact Hs.
    + congruence.
    + congruence.
  - exact Hc.
  - exact H.
  - destruct Hc0 as [Ho Hs He Hl]. destruct s0. now split.
Qed.

Lemma calm_quiet (v : display) (s : state) :
  calm v s → (∀ tm k, tm ∈ timers s → tm_every tm = Some k → (150 ≤ k)%Z) →
  quiet s.
Proof.
  intros [Ho _ _ _] Hk tm Hin. split; [rewrite (Ho tm Hin); discriminate|].
  intros k. now apply Hk.
Qed.

(** X5.  On a page where no rule matches and neither the ATS nor the job-match
    read-out is shown, the score check leaves the mascot alone: however
    long the visit lasts, while nobody hovers, image, opacity, caption and
    colour stay as the script's start left them, and the lock stays off. *)
Theorem no_scores_no_reaction (p : page) (m : img) (c : caption) :
  pg_mascot p = Some m → pg_bubble p = Some c →
  ScoreRules.first_match (ScoreRules.read (pg_doc p)) = None →
  Js.nonnull (querySelector (pg_doc p) ats_selector)
    || Js.nonnull (querySelector (pg_doc p) job_selector) = false →
  ∃ s1,
    after [Wait 500] p = Some s1
    ∧ ∀ ws, ∃ fuel s,
        run fuel (Wait <$> ws) s1 = Some s
        ∧ shown s = Display (img_src m) (img_opacity m) defaultMessage
                      (cap_color c)
        ∧ currentExpression s = standing
        ∧ isLocked s = false.
Proof.
  intros Hm Hc Hf Hp.
  destruct (startup_state p m c Hm Hc)
    as (b & (Hl & Ht & Hn & Hnow & Hh & He & Htx & Hd) & (Hb1 & Hb2 & Hb3 & _)
        & Hs1).
  set (s1 := set_now 500 (setupHoverDetection (checkScores b))) in *.
  rewrite <- Hd in Hf, Hp.
  assert (Hcs : checkScores b = b).
  { pose proof (scoreDecision_first_match (doc b)) as H. rewrite Hf in H.
    rewrite (checkScores_not_low b "" H), Hp. reflexivity. }
  destruct (scanned_fields (checkScores b)) as (E1 & _ & _ & E4 & E5 & _ & E7).
  fold s1 in E1, E4, E5, E7. rewrite Hcs in E1, E4, E5, E7.
  set (v := Display (img_src m) (img_opacity m) defaultMessage (cap_color c)).
  assert (Hcalm : calm v s1).
  { split.
    - intros tm Hin. rewrite E1, Ht in Hin. elem_cases Hin. reflexivity.
    - rewrite E7. unfold shown, v. congruence.
    - congruence.
    - congruence. }
  exists s1. split; [exact Hs1|]. intros ws.
  destruct (run_total (Wait <$> ws) s1 (startup_quiet p s1 Hs1))
    as (fuel & s & Hrun).
  exists fuel, s. split; [exact Hrun|].
  assert (Hfin : calm v s).
  { clear Hs1. revert Hcalm Hrun. generalize s1. clear.
    induction ws as [|w ws IH]; intros s1 Hcalm Hrun; cbn [fmap list_fmap run] in Hrun.
    - now injection Hrun as <-.
    - destruct (advance_to fuel (now s1 + w) s1) as [s2|] eqn:E; [|discriminate].
      apply (IH s2); [|exact Hrun]. exact (calm_advance _ _ _ _ _ Hcalm E). }
  destruct Hfin as [_ Hs He' Hl']. auto.
Qed.

(** The page that shows only a grammar score, 90, a second and a minute
    after start-up. *)
Lemma no_scores_no_reaction_witness :
  ∃ s1,
    after [Wait 500] Samples.grammar_only = Some s1
    ∧ ∃ fuel s,
        run fuel [Wait 1000; Wait 60000] s1 = Some s
        ∧ bubble_text s = defaultMessage
        ∧ currentExpression s = standing.
Proof.
  destruct (no_scores_no_reaction Samples.grammar_only Samples.fox
              Samples.speech eq_refl eq_refl ltac:(vm_compute; reflexivity)
              ltac:(vm_compute; reflexivity))
    as (s1 & H1 & Hall).
  exists s1. split; [exact H1|].
  destruct (Hall [1000; 60000]%Z) as (fuel & s & Hr & Hs & Hc & _).
  exists fuel, s. split; [exact Hr|].
  split; [exact (f_equal d_text Hs)|exact Hc].
Defined.

(** *** The lock needs a low score *)

Lemma free_run_handler (c : string) (h : handler) (s : state) :
  free c s → free c (run_handler h s).
Proof.
  intros [Hl Hc Hq Ho].
  destruct (run_handler_spec h s) as (extra & Hs & Hl' & Hc' & _ & _ & Hcase).
  split; [congruence|congruence|now apply quiet_run_handler|].
  intros x Hx.
  destruct (shape_elem _ _ _ _ x Hs Hx) as [[Hold _]|[Hnew _]]; [auto|].
  destruct Hcase as [(_ & _ & [->|(_ & e & ->)])|(_ & _ & ->)];
    elem_cases Hnew; discriminate.
Qed.

Lemma free_dispatch (c : string) (ty : event_type) (i : nat) (s : state) :
  free c s → free c (dispatch ty i s).
Proof.
  unfold dispatch. destruct (doc s !! i) as [e|]; [|trivial].
  generalize (listeners_for ty e). intros hs. revert s.
  induction hs as [|h hs IH]; intros s Hr; [exact Hr|].
  cbn [foldl]. apply IH. now apply free_run_handler.
Qed.

Lemma free_fire (c : string) (tm : timer) (s : state) :
  free c s → tm ∈ timers s → free c (fire tm s).
Proof.
  intros [Hl Hc Hq Ho] Hin. destruct (Hq tm Hin) as [Hcb _].
  pose proof (Ho tm Hin) as Hnu.
  split.
  - now apply fire_stays_unlocked.
  - destruct (tm_cb tm) eqn:Ec; [| |congruence|congruence|].
    + destruct (fire_fade tm s e Ec) as (_ & _ & _ & _ & H & _). congruence.
    + destruct (fire_reset tm s Ec) as (_ & _ & H & _). congruence.
    + destruct (fire_rescan tm s Ec) as (_ & _ & _ & _ & H & _). congruence.
  - now apply quiet_fire.
  - intros x Hx. destruct (fire_queue tm s Hcb) as (extra & Ht & _ & _ & Hex).
    rewrite Ht in Hx. apply elem_of_app in Hx as [Hx|Hx].
    + apply rearm_elem in Hx as [[Hold _]|(_ & Hx & _)]; [auto|congruence].
    + destruct Hex as [->|(_ & _ & _ & ->)]; elem_cases Hx. discriminate.
Qed.

Lemma free_run (c : string) (fuel : nat) (ins : list input) (s s' : state) :
  free c s → run fuel ins s = Some s' → free c s'.
Proof.
  revert s. induction ins as [|[ty i|ms] ins IH]; intros s Hr H;
    cbn [run] in H.
  - now injection H as <-.
  - apply (IH (dispatch ty i s)); [now apply free_dispatch|exact H].
  - destruct (advance_to fuel (now s + ms) s) as [s1|] eqn:E; [|discriminate].
    apply (IH s1); [|exact H].
    destruct (advance_to_inv (free c) (now s + ms)) with (fuel := fuel)
      (s := s) (s' := s1) as (s0 & [Hl Hc Hq Ho] & _ & ->).
    + intros x tm Hx Ex _. apply free_fire; [exact Hx|].
      now apply earliest_in.
    + exact Hr.
    + exact E.
    + destruct s0. now split.
Qed.

(** X6.  On a page where no low-score rule matches, the mascot is never locked
    and the caption never changes colour, whatever the visitor hovers and
    however long the visit lasts. *)
Theorem no_low_score_no_lock (p : page) (m : img) (c : caption) :
  pg_mascot p = Some m → pg_bubble p = Some c →
  ScoreRules.first_match (ScoreRules.read (pg_doc p)) = None →
  ∃ s1,
    after [Wait 500] p = Some s1
    ∧ ∀ ins,
        (∃ fuel s, run fuel ins s1 = Some s)
        ∧ ∀ fuel s, run fuel ins s1 = Some s →
            isLocked s = false ∧ bubble_color s = cap_color c.
Proof.
  intros Hm Hc Hf.
  destruct (startup_state p m c Hm Hc)
    as (b & (Hl & Ht & Hn & Hnow & Hh & He & Htx & Hd) & (_ & _ & Hb3 & _)
        & Hs1).
  set (s1 := set_now 500 (setupHoverDetection (checkScores b))) in *.
  rewrite <- Hd in Hf.
  pose proof (scoreDecision_first_match (doc b)) as Hdec. rewrite Hf in Hdec.
  destruct (checkScores_spec b Hl) as (extra & Hs & _ & _ & _ & Hcase).
  destruct Hcase as [(Habs & _)|(_ & Hl' & Hc' & Hex)];
    [rewrite Hdec in Habs; discriminate|].
  destruct (scanned_fields (checkScores b)) as (E1 & _ & _ & _ & E5 & _ & E7).
  fold s1 in E1, E5, E7.
  assert (Hfree : free (cap_color c) s1).
  { split.
    - congruence.
    - assert (E8 : bubble_color s1 = bubble_color (checkScores b))
        by exact (f_equal d_color E7).
      congruence.
    - exact (startup_quiet p s1 Hs1).
    - intros x Hx. rewrite E1, (sh_timers _ _ _ _ Hs), Ht in Hx.
      cbn [cancel_opt app] in Hx.
      apply elem_of_cons in Hx as [->|Hx]; [discriminate|].
      destruct Hex as [-> | [-> | ->]]; elem_cases Hx; discriminate. }
  exists s1. split; [exact Hs1|]. intros ins. split.
  - exact (run_total ins s1 (startup_quiet p s1 Hs1)).
  - intros fuel s Hrun. destruct (free_run _ _ _ _ _ Hfree Hrun) as [? ? _ _].
    auto.
Qed.

(** The page with an ATS score of 90: onto the submit button, four seconds
    there, and off again. *)
Lemma no_low_score_no_lock_witness :
  ∃ s1,
    after [Wait 500] Samples.good_ats = Some s1
    ∧ ∃ fuel s,
        run fuel [Hover mouseenter 2; Wait 4000; Hover mouseleave 2] s1
        = Some s
        ∧ isLocked s = false.
Proof.
  destruct (no_low_score_no_lock Samples.good_ats Samples.fox Samples.speech
              eq_refl eq_refl ltac:(vm_compute; reflexivity))
    as (s1 & H1 & Hall).
  exists s1. split; [exact H1|].
  destruct (Hall [Hover mouseenter 2; Wait 4000; Hover mouseleave 2])
    as ((fuel & s & Hr) & Hfree).
  exists fuel, s. split; [exact Hr|]. exact (proj1 (Hfree fuel s Hr)).
Defined.


End Settling.

Section ImagePath.
Import Dom Mascot Loop Settle.

Lemma lastIndexOf_cons (c a : ascii) (r : string) :
  Js.lastIndexOf c (String a r)
  = if (0 <=? Js.lastIndexOf c r)%Z then (Js.lastIndexOf c r + 1)%Z
    else if Ascii.eqb a c then 0%Z else (-1)%Z.
Proof. reflexivity. Qed.

Lemma lastIndexOf_absent (c : ascii) (s : string) :
  Forall (λ a, a ≠ c) (list_ascii_of_string s) →
  Js.lastIndexOf c s = (-1)%Z.
Proof.
  induction s as [|a s IH]; intros H; [reflexivity|].
  cbn [list_ascii_of_string] in H. apply Forall_cons in H as [Ha H].
  rewrite lastIndexOf_cons, (IH H).
  change (0 <=? -1)%Z with false. cbv iota.
  destruct (Ascii.eqb_spec a c); [contradiction|reflexivity].
Qed.

Lemma lastIndexOf_last (c : ascii) (d f : string) :
  Forall (λ a, a ≠ c) (list_ascii_of_string f) →
  Js.lastIndexOf c (d ++ String c f) = Z.of_nat (String.length d).
Proof.
  intros Hf. induction d as [|a d IH].
  - change ("" ++ String c f)%string with (String c f).
    rewrite lastIndexOf_cons, (lastIndexOf_absent c f Hf).
    change (0 <=? -1)%Z with false. cbv iota.
    now rewrite Ascii.eqb_refl.
  - change (String a d ++ String c f)%string
      with (String a (d ++ String c f)).
    rewrite lastIndexOf_cons, IH. cbn [String.length].
    destruct (Z.leb_spec 0 (Z.of_nat (String.length d))); lia.
Qed.

Lemma substring_prefix (d r : string) :
  String.substring 0 (String.length d) (d ++ r) = d.
Proof.
  induction d as [|a d IH].
  - rewrite append_nil. destruct r; reflexivity.
  - rewrite append_cons. cbn [String.length String.substring].
    now rewrite IH.
Qed.

(** [src.substring(0, src.lastIndexOf('/') + 1)] is [src] up to its last
    slash, the slash included. *)
Lemma directory_prefix (dir file : string) :
  Forall (λ a, a ≠ "/"%char) (list_ascii_of_string file) →
  Js.substring0 (Js.lastIndexOf "/" (dir ++ "/" ++ file) + 1)
    (dir ++ "/" ++ file)
  = (dir ++ "/")%string.
Proof.
  intros Hf. change ("/" ++ file)%string with (String "/" file).
  rewrite (lastIndexOf_last "/" dir file Hf). unfold Js.substring0.
  replace (Z.to_nat (Z.of_nat (String.length dir) + 1))
    with (String.length (dir ++ "/")) by (rewrite length_append; cbn; lia).
  change (String "/" file) with ("/" ++ file)%string.
  rewrite <- append_assoc. apply substring_prefix.
Qed.

Lemma main_fields (p : page) (m : img) (c : caption) :
  pg_mascot p = Some m → pg_bubble p = Some c →
  ∃ s0, main p = Some s0
        ∧ basePath s0
          = Js.substring0 (Js.lastIndexOf "/" (img_src m) + 1) (img_src m)
        ∧ mascot_src s0 = img_src m
        ∧ currentExpression s0 = standing.
Proof.
  intros Hm Hc. unfold main. rewrite Hm, Hc. eexists. split; [reflexivity|].
  repeat split.
Qed.

(** X7.  The image paths are the directory of the image the page shows, with
    the four file names; an image source without a slash gives the bare
    file names. *)
Theorem image_paths_share_the_directory (p : page) (m : img) (c : caption)
    (s0 : state) :
  pg_mascot p = Some m → pg_bubble p = Some c → main p = Some s0 →
  (∀ dir file,
     img_src m = (dir ++ "/" ++ file)%string →
     Forall (λ a, a ≠ "/"%char) (list_ascii_of_string file) →
     basePath s0 = (dir ++ "/")%string
     ∧ expressions (basePath s0) standing = (dir ++ "/fox_standing.png")%string
     ∧ expressions (basePath s0) happy = (dir ++ "/fox_happy.png")%string
     ∧ expressions (basePath s0) thinking = (dir ++ "/fox_thinking.png")%string
     ∧ expressions (basePath s0) sad = (dir ++ "/fox_sad.png")%string)
  ∧ (Forall (λ a, a ≠ "/"%char) (list_ascii_of_string (img_src m)) →
     basePath s0 = ""
     ∧ expressions (basePath s0) standing = "fox_standing.png"
     ∧ expressions (basePath s0) happy = "fox_happy.png"
     ∧ expressions (basePath s0) thinking = "fox_thinking.png"
     ∧ expressions (basePath s0) sad = "fox_sad.png").
Proof.
  intros Hm Hc H0.
  destruct (main_fields p m c Hm Hc) as (s0' & H0' & Hb & _).
  assert (s0' = s0) by congruence. subst s0'. split.
  - intros dir file Hsrc Hf. rewrite Hb, Hsrc, (directory_prefix dir file Hf).
    split; [reflexivity|]. unfold expressions.
    repeat split; apply append_assoc.
  - intros Hf. rewrite Hb, (lastIndexOf_absent "/" _ Hf).
    unfold Js.substring0. cbn [Z.add Z.to_nat Z.opp Pos.pred_double Z.pos_sub].
    assert (He : ∀ x, String.substring 0 0 x = "") by (intros []; reflexivity).
    rewrite He. repeat split.
Qed.

(** The sample pages show [/static/images/fox_standing.png]. *)
Lemma image_paths_share_the_directory_witness :
  ∃ s0,
    main Samples.good_ats = Some s0
    ∧ basePath s0 = "/static/images/"
    ∧ expressions (basePath s0) sad = "/static/images/fox_sad.png".
Proof.
  eexists. split; [reflexivity|].
  destruct (image_paths_share_the_directory Samples.good_ats Samples.fox
              Samples.speech _ eq_refl eq_refl eq_refl) as [H _].
  destruct (H "/static/images" "fox_standing.png" eq_refl) as (Hb & _ & _ & _ & Hs).
  - apply (bool_decide_unpack _). vm_compute. reflexivity.
  - split; [exact Hb|exact Hs].
Defined.

(** *** The image is the one of the current expression *)

Lemma changeMascotExpression_image (e : expression) (msg : string)
    (x : state) :
  let x' := changeMascotExpression e msg x in
  currentExpression x' = currentExpression x
  ∧ mascot_src x' = mascot_src x
  ∧ basePath x' = basePath x.
Proof.
  destruct x. unfold changeMascotExpression. fields.
  destruct isLocked0; [repeat split|].
  destruct (decide (e ≠ currentExpression0)); destruct (Js.truthy msg);
    repeat split.
Qed.

Lemma checkScores_image (x : state) :
  currentExpression (checkScores x) = currentExpression x
  ∧ mascot_src (checkScores x) = mascot_src x
  ∧ basePath (checkScores x) = basePath x.
Proof.
  unfold checkScores. destruct (scoreDecision (doc x)) as [[|] msg].
  - destruct (changeMascotExpression_image sad msg (set_isLocked true x))
      as (H1 & H2 & H3).
    destruct (changeMascotExpression sad msg (set_isLocked true x)).
    destruct x. cbn in *. auto.
  - destruct (Js.nonnull _ || Js.nonnull _); [|auto].
    destruct (changeMascotExpression_image happy happy_message x)
      as (H1 & H2 & H3).
    destruct (changeMascotExpression happy happy_message x).
    destruct x. cbn in *. auto.
Qed.

Lemma fire_image (tm : timer) (s : state) :
  basePath (fire tm s) = basePath s
  ∧ ((∃ e, tm_cb tm = FadeTo e ∧ currentExpression (fire tm s) = e
           ∧ mascot_src (fire tm s) = expressions (basePath s) e)
     ∨ (currentExpression (fire tm s) = currentExpression s
        ∧ mascot_src (fire tm s) = mascot_src s)).
Proof.
  destruct (tm_cb tm) eqn:E.
  - destruct (fire_fade tm s e E) as (H1 & H2 & _ & _ & _ & _ & H3 & _).
    split; [exact H3|]. left. eauto.
  - destruct (fire_reset tm s E) as (H1 & H2 & _ & _ & H3 & _).
    split; [exact H3|]. now right.
  - destruct (fire_unlock tm s E) as (H1 & H2 & _ & _ & _ & _ & H3 & _).
    split; [exact H3|]. now right.
  - rewrite fire_pre, E. cbn [run_callback].
    destruct (checkScores_image (pre tm s)) as (H1 & H2 & H3).
    assert (Hp : currentExpression (pre tm s) = currentExpression s
                 ∧ mascot_src (pre tm s) = mascot_src s
                 ∧ basePath (pre tm s) = basePath s)
      by (destruct s; repeat split).
    destruct Hp as (P1 & P2 & P3).
    destruct (checkScores (pre tm s)). cbn in *.
    split; [congruence|]. right. split; congruence.
  - destruct (fire_rescan tm s E) as (H1 & H2 & _ & _ & _ & _ & H3 & _).
    split; [exact H3|]. now right.
Qed.

Lemma dispatch_expression (ty : event_type) (i : nat) (s : state) :
  currentExpression (dispatch ty i s) = currentExpression s.
Proof.
  unfold dispatch. destruct (doc s !! i) as [e|]; [|reflexivity].
  generalize (listeners_for ty e). intros hs. revert s.
  induction hs as [|h hs IH]; intros s; [reflexivity|].
  cbn [foldl]. rewrite IH.
  destruct (run_handler_spec h s) as (_ & _ & _ & _ & H & _). exact H.
Qed.

(** X8.  When the script starts on a page whose image is [fox_standing.png] of
    some directory, the image on show is the one of [currentExpression] in
    that directory, in every state the event loop can reach from there:
    whatever timers fire, in whatever order, and whatever the pointer
    does. *)
Theorem image_follows_expression (p : page) (m : img) (c : caption)
    (dir : string) (s0 s : state) :
  pg_mascot p = Some m → pg_bubble p = Some c →
  img_src m = (dir ++ "/fox_standing.png")%string →
  main p = Some s0 → rtc step s0 s →
  mascot_src s = expressions (dir ++ "/") (currentExpression s).
Proof.
  intros Hm Hc Hsrc H0 Hsteps.
  destruct (main_fields p m c Hm Hc) as (s0' & H0' & Hb & Hs & He).
  assert (s0' = s0) by congruence. subst s0'.
  assert (Hbase : basePath s0 = (dir ++ "/")%string).
  { rewrite Hb, Hsrc.
    apply (directory_prefix dir "fox_standing.png").
    apply (bool_decide_unpack _). vm_compute. reflexivity. }
  assert (Hinv : basePath s = (dir ++ "/")%string
                 ∧ mascot_src s = expressions (dir ++ "/") (currentExpression s)).
  { assert (Hinit : basePath s0 = (dir ++ "/")%string
                    ∧ mascot_src s0
                      = expressions (dir ++ "/") (currentExpression s0)).
    { split; [exact Hbase|]. rewrite Hs, He, Hsrc. unfold expressions.
      symmetry. apply append_assoc. }
    clear - Hsteps Hinit.
    induction Hsteps as [|x y z Hxy _ IH]; [exact Hinit|].
    apply IH. destruct Hinit as [Hbx Hsx].
    destruct Hxy as [tm Hin|ty i|t].
    - destruct (fire_image tm x) as (Hb' & [(e & _ & Hc & Hs')|(Hc & Hs')]).
      + split; [congruence|]. rewrite Hs', Hc, Hbx. reflexivity.
      + split; [congruence|]. rewrite Hs', Hc. exact Hsx.
    - destruct (dispatch_page ty i x) as (_ & Hb' & Hs').
      pose proof (dispatch_expression ty i x) as Hc.
      split; [congruence|]. rewrite Hs', Hc. exact Hsx.
    - destruct x. split; assumption. }
  exact (proj2 Hinv).
Qed.

(** What [run] goes through are turns of the event loop. *)
Lemma advance_steps (fuel : nat) (t : Z) (s s' : state) :
  advance_to fuel t s = Some s' → rtc step s s'.
Proof.
  revert s. induction fuel as [|f IH]; intros s H; [discriminate|].
  cbn [advance_to] in H.
  destruct (earliest (timers s)) as [tm|] eqn:E.
  - destruct (tm_due tm <=? t)%Z.
    + eapply rtc_l; [|exact (IH _ H)].
      apply step_fire. now apply earliest_in.
    + injection H as <-. apply rtc_once, step_idle.
  - injection H as <-. apply rtc_once, step_idle.
Qed.

Lemma run_steps (fuel : nat) (ins : list input) (s s' : state) :
  run fuel ins s = Some s' → rtc step s s'.
Proof.
  revert s. induction ins as [|[ty i|ms] ins IH]; intros s H; cbn [run] in H.
  - injection H as <-. apply rtc_refl.
  - eapply rtc_l; [apply step_hover|exact (IH _ H)].
  - destruct (advance_to fuel (now s + ms) s) as [s1|] eqn:E; [|discriminate].
    etransitivity; [exact (advance_steps _ _ _ _ E)|exact (IH _ H)].
Qed.

Lemma after_steps (ins : list input) (p : page) (s : state) :
  after ins p = Some s → ∃ s0, main p = Some s0 ∧ rtc step s0 s.
Proof.
  unfold after. destruct (main p) as [s0|]; [|discriminate].
  intros H. exists s0. split; [reflexivity|]. exact (run_steps _ _ _ _ H).
Qed.

(** The page with an ATS score of 90, 150 ms after start-up: the fade of
    the score check has landed, the mascot is happy and the image is the
    happy one. *)
Lemma image_follows_expression_witness :
  currentExpression <$> after [Wait 500; Wait 150] Samples.good_ats
  = Some happy
  ∧ mascot_src <$> after [Wait 500; Wait 150] Samples.good_ats
    = Some "/static/images/fox_happy.png".
Proof.
  assert (Hc : currentExpression <$> after [Wait 500; Wait 150] Samples.good_ats
               = Some happy) by (vm_compute; reflexivity).
  split; [exact Hc|].
  destruct (after [Wait 500; Wait 150] Samples.good_ats) as [s|] eqn:Ha;
    [|discriminate].
  destruct (after_steps _ _ _ Ha) as (s0 & H0 & Hs).
  pose proof (image_follows_expression Samples.good_ats Samples.fox
                Samples.speech "/static/images" s0 s eq_refl eq_refl eq_refl
                H0 Hs) as H.
  injection Hc as Hc. cbn [fmap option_fmap option_map].
  rewrite H, Hc. reflexivity.
Defined.

End ImagePath.

Section LateContent.
Import Dom Mascot Registry.

Lemma first_rule_own (d d' : document) (e : element) :
  first_rule d e = first_rule d' e.
Proof.
  unfold first_rule. generalize registry_own_selectors.
  generalize expressionMap. intros l Hl.
  induction l as [|[k v] l IH]; [reflexivity|].
  apply Forall_cons in Hl as [Hk Hl]. cbn [find fst].
  rewrite (matches_own d d' k e Hk), (IH Hl). reflexivity.
Qed.

Lemma setup_element_moved (k n : nat) (e : element) :
  setup_element (Visits.moved k n e) = Visits.moved k n (setup_element e).
Proof.
  assert (Hm : hasAttribute marker (Visits.moved k n e) = hasAttribute marker e)
    by reflexivity.
  assert (Hown : ∀ sel, own_selector sel = true →
                   matches [] sel (Visits.moved k n e) = matches [] sel e)
    by (intros [] H; first [reflexivity | discriminate]).
  unfold setup_element. destruct (hasAttribute marker e) eqn:H.
  - rewrite !setup_rounds_marked by congruence. reflexivity.
  - rewrite !(setup_rounds_unmarked expressionMap) by congruence.
    assert (Hf : find (λ kv, matches [] (fst kv) (Visits.moved k n e))
                   expressionMap
                 = find (λ kv, matches [] (fst kv) e) expressionMap).
    { generalize registry_own_selectors. generalize expressionMap.
      intros l Hl. induction l as [|[sel v] l IH]; [reflexivity|].
      apply Forall_cons in Hl as [Hk Hl]. cbn [find fst].
      rewrite (Hown sel Hk), (IH Hl). reflexivity. }
    rewrite Hf.
    destruct (find (λ kv, matches [] (fst kv) e) expressionMap)
      as [[sel cfg]|]; [|reflexivity].
    cbn [fst]. rewrite (bind_unmarked sel e H).
    rewrite (bind_unmarked sel (Visits.moved k n e) H). reflexivity.
Qed.

(** X9.  Content that comes into a scanned document, at whatever index [k]
    of the document order, the elements behind it moving up: the next scan
    gives the document in which the scanned new elements have come in at
    [k], so that the elements that were there keep their listeners and a
    new element without the marker, now at [k + n], is bound under the
    first rule it matches, with that rule's listener pair behind the
    listeners it had, and is left as it is when it matches no rule. *)
Theorem rescan_binds_late_content (old new : document) (k : nat) :
  setupHoverDetection_doc old = old →
  k ≤ length old →
  let d := Visits.insert_at k new old in
  setupHoverDetection_doc d
  = Visits.insert_at k (setupHoverDetection_doc new) old
  ∧ ∀ n e, new !! n = Some e → hasAttribute marker e = false →
      match first_rule d e with
      | Some (sel, cfg) =>
          setupHoverDetection_doc d !! (k + n) = Some (bind sel e)
          ∧ el_listeners (bind sel e) = el_listeners e ++ pair_for sel
      | None => setupHoverDetection_doc d !! (k + n) = Some e
      end.
Proof.
  intros Hold Hk d.
  assert (Hd : setupHoverDetection_doc d
               = Visits.insert_at k (setupHoverDetection_doc new) old).
  { subst d. unfold Visits.insert_at.
    rewrite !setupHoverDetection_doc_fmap in *.
    rewrite !fmap_app, fmap_take, fmap_drop, length_fmap.
    assert (E : setup_element <$> (Visits.moved k (length new) <$> old)
                = Visits.moved k (length new) <$> old).
    { rewrite <- list_fmap_compose.
      rewrite <- Hold at 2. rewrite <- list_fmap_compose.
      apply list_fmap_ext. intros i x _. apply setup_element_moved. }
    rewrite E. reflexivity. }
  split; [exact Hd|].
  intros n e Hn Hm.
  assert (Hat : setupHoverDetection_doc d !! (k + n)
                = Some (setup_element e)).
  { rewrite Hd. unfold Visits.insert_at.
    assert (Hlen : length (take k (Visits.moved k
                                     (length (setupHoverDetection_doc new))
                                   <$> old)) = k)
      by (rewrite length_take, length_fmap; lia).
    rewrite lookup_app_r by lia. rewrite Hlen.
    replace (k + n - k) with n by lia.
    rewrite lookup_app_l.
    - rewrite setupHoverDetection_doc_fmap, list_lookup_fmap, Hn. reflexivity.
    - rewrite setupHoverDetection_doc_fmap, length_fmap.
      now apply lookup_lt_Some in Hn. }
  rewrite Hat.
  destruct (setup_element_cases d e)
    as [[He [H|H]]|(sel & cfg & _ & Hf & He)].
  - congruence.
  - rewrite H, He. reflexivity.
  - rewrite Hf, He. split; [reflexivity|].
    rewrite (bind_unmarked sel e Hm). reflexivity.
Qed.

(** A text input the page writes with [type="TEXT"] comes in before a
    submit button that is bound already. *)
Lemma rescan_binds_late_content_witness :
  let old := setupHoverDetection_doc [Samples.submit] in
  let d := Visits.insert_at 0 [Visits.capital_text] old in
  setupHoverDetection_doc d
  = Visits.insert_at 0 (setupHoverDetection_doc [Visits.capital_text]) old
  ∧ setupHoverDetection_doc d !! 0
    = Some (bind (TagAttr "input" "type" "text") Visits.capital_text).
Proof.
  cbv zeta.
  destruct (rescan_binds_late_content
              (setupHoverDetection_doc [Samples.submit])
              [Visits.capital_text] 0
              (setupHoverDetection_doc_twice _) (Nat.le_0_l _)) as [H Hn].
  split; [exact H|].
  specialize (Hn 0 _ eq_refl eq_refl).
  rewrite (first_rule_own _ [] _) in Hn.
  change (first_rule [] Visits.capital_text)
    with (Some (TagAttr "input" "type" "text",
                Config thinking "Hmm... what should we enter here? 🤔"))
    in Hn.
  exact (proj1 Hn).
Defined.

End LateContent.

Section ScoreTexts.
Import Reading.

Lemma trimStart_blank (ws s : string) :
  blank ws → Js.trimStart (ws ++ s) = Js.trimStart s.
Proof.
  unfold blank. induction ws as [|a ws IH]; intros H; [reflexivity|].
  cbn [list_ascii_of_string] in H. apply Forall_cons in H as [Ha H].
  rewrite append_cons. cbn [Js.trimStart]. rewrite Ha. now apply IH.
Qed.

Lemma digits_closing (s rest : string) (acc : option Z) :
  closing rest → Js.digits 10 (s ++ rest) acc = Js.digits 10 s acc.
Proof.
  intros Hc. revert acc. induction s as [|a s IH]; intros acc.
  - rewrite append_nil. destruct rest as [|c rest]; [reflexivity|].
    destruct Hc as (Hd & _). cbn [Js.digits]. now rewrite Hd.
  - rewrite append_cons. cbn [Js.digits].
    destruct (Js.digit_in 10 a); [apply IH|reflexivity].
Qed.

Lemma numeral_rest_plain (d : uint) (rest : string) :
  d ≠ Nil → closing rest →
  Js.trimStart (NilEmpty.string_of_uint d ++ rest)
  = (NilEmpty.string_of_uint d ++ rest)%string
  ∧ Js.strip_sign (NilEmpty.string_of_uint d ++ rest)
    = (1%Z, (NilEmpty.string_of_uint d ++ rest)%string)
  ∧ Js.strip_prefix (NilEmpty.string_of_uint d ++ rest)
    = (10%Z, (NilEmpty.string_of_uint d ++ rest)%string).
Proof.
  intros Hd Hc. split; [|split].
  - destruct d; [congruence|..]; cbn [NilEmpty.string_of_uint];
      rewrite append_cons; apply trimStart_plain; vm_compute; reflexivity.
  - destruct d; [congruence|..]; reflexivity.
  - destruct d as [|d|d|d|d|d|d|d|d|d|d]; [congruence|..]; try reflexivity.
    destruct d; try reflexivity.
    cbn [NilEmpty.string_of_uint]. rewrite append_cons, append_nil.
    destruct rest as [|c rest]; [reflexivity|].
    destruct Hc as (_ & Hx & HX).
    destruct c as [[] [] [] [] [] [] [] []]; try reflexivity; congruence.
Qed.

Lemma parseInt_numeral_rest (d : uint) (rest : string) :
  d ≠ Nil → closing rest →
  Js.parseInt (NilEmpty.string_of_uint d ++ rest)
  = Some (Z.of_N (Pos.of_uint d))
  ∧ Js.parseInt (String "-" (NilEmpty.string_of_uint d ++ rest))
    = Some (- Z.of_N (Pos.of_uint d))%Z.
Proof.
  intros Hd Hc. destruct (numeral_rest_plain d rest Hd Hc) as (Ht & Hs & Hp).
  pose proof (digits_start d Hd) as H0. rewrite digits_zero in H0.
  pose proof (digits_closing (NilEmpty.string_of_uint d) rest None Hc) as H1.
  rewrite H0 in H1.
  split.
  - unfold Js.parseInt. rewrite Ht, Hs, Hp, H1. f_equal; lia.
  - unfold Js.parseInt.
    rewrite trimStart_plain by (vm_compute; reflexivity).
    cbn [Js.strip_sign]. rewrite Hp, H1. f_equal; lia.
Qed.

(** X10.  A score read-out may carry white space before the number and text
    after it, a percent sign for one: [parseInt] reads the number, and the
    score counts as low exactly when the number is below the threshold. *)
Theorem score_text_may_be_decorated (ws rest : string) (z k : Z) :
  blank ws → closing rest →
  Js.parseInt (ws ++ Js.decimal z ++ rest) = Some z
  ∧ ScoreRules.score_below k (Some (ws ++ Js.decimal z ++ rest)%string)
    = (z <? k)%Z.
Proof.
  intros Hw Hc.
  assert (H : Js.parseInt (ws ++ Js.decimal z ++ rest) = Some z).
  { unfold Js.parseInt at 1. rewrite (trimStart_blank ws _ Hw).
    change (Js.parseInt (Js.decimal z ++ rest) = Some z).
    unfold Js.decimal. destruct z as [|q|q].
    - exact (proj1 (parseInt_numeral_rest (D0 Nil) rest ltac:(discriminate) Hc)).
    - cbn [Z.to_int NilZero.string_of_int].
      pose proof (Unsigned.of_to q) as Hq.
      assert (Hn : Pos.to_uint q ≠ Nil)
        by (intros E; rewrite E in Hq; discriminate).
      destruct (parseInt_numeral_rest (Pos.to_uint q) rest Hn Hc) as [H1 _].
      rewrite Hq in H1.
      replace (NilZero.string_of_uint (Pos.to_uint q))
        with (NilEmpty.string_of_uint (Pos.to_uint q))
        by (destruct (Pos.to_uint q); [congruence|..]; reflexivity).
      exact H1.
    - cbn [Z.to_int NilZero.string_of_int].
      pose proof (Unsigned.of_to q) as Hq.
      assert (Hn : Pos.to_uint q ≠ Nil)
        by (intros E; rewrite E in Hq; discriminate).
      destruct (parseInt_numeral_rest (Pos.to_uint q) rest Hn Hc) as [_ H2].
      rewrite Hq in H2.
      replace (NilZero.string_of_uint (Pos.to_uint q))
        with (NilEmpty.string_of_uint (Pos.to_uint q))
        by (destruct (Pos.to_uint q); [congruence|..]; reflexivity).
      rewrite append_cons. exact H2. }
  split; [exact H|]. unfold ScoreRules.score_below. rewrite H. reflexivity.
Qed.

(** A read-out that shows a percent sign, and one that shows the scale. *)
Lemma score_text_may_be_decorated_witness :
  Js.parseInt " 85%" = Some 85%Z
  ∧ ScoreRules.score_below 60 (Some " 45 / 100") = true.
Proof.
  split.
  - refine (proj1 (score_text_may_be_decorated " " "%" 85 0 _ _)).
    + repeat constructor.
    + vm_compute. repeat split; discriminate.
  - refine (proj2 (score_text_may_be_decorated " " " / 100" 45 60 _ _)).
    + repeat constructor.
    + vm_compute. repeat split; discriminate.
Defined.

End ScoreTexts.

(* ===================================================================== *)
(** ** The theme switcher over visits                                     *)
(* ===================================================================== *)

Section ThemeVisits.
Import Theme.

Lemma getSavedTheme_default (p : page) :
  localStorage p !! "theme" = None ∨ localStorage p !! "theme" = Some "" →
  getSavedTheme p = "dark-purple".
Proof. unfold getSavedTheme. intros [-> | ->]; reflexivity. Qed.

Lemma onDOMContentLoaded_frame (p : page) :
  theme_selector (onDOMContentLoaded p) = theme_selector p
  ∧ scrollBehavior (onDOMContentLoaded p) = "smooth".
Proof.
  unfold onDOMContentLoaded. set (saved := getSavedTheme p).
  assert (G : ∀ keys q,
             theme_selector
               (foldl (λ q k, appendChild (new_option saved k) q) q keys)
             = theme_selector q).
  { induction keys as [|k keys IH]; intros q; cbn [foldl]; [reflexivity|].
    now rewrite IH. }
  destruct (theme_selector (applyTheme saved p)) eqn:E.
  - cbn [set_scrollBehavior theme_selector scrollBehavior].
    rewrite G. split; reflexivity.
  - split; reflexivity.
Qed.

(** X11.  A first visit, with nothing stored under [theme] or the empty string:
    the page comes up in [dark-purple], stores that, scrolls smoothly, and
    the one entry of the picker that is marked is the generated
    [dark-purple] one. *)
Theorem first_visit_gets_the_default (template : page) (cl : list string) :
  theme_selector template = Some cl →
  localStorage template !! "theme" = None
  ∨ localStorage template !! "theme" = Some "" →
  Forall (λ o, dataset_theme o ≠ Some "dark-purple")
    (theme_options template) →
  let p := onDOMContentLoaded template in
  data_theme p = Some "dark-purple"
  ∧ localStorage p !! "theme" = Some "dark-purple"
  ∧ scrollBehavior p = "smooth"
  ∧ length (theme_options p) = length (theme_options template) + 5
  ∧ active_options p
    = [OptionEl (Some "dark-purple") ["theme-option"; "active"]
         (Some "dark-purple")].
Proof.
  intros Hsel Hst Hno p. subst p.
  pose proof (getSavedTheme_default template Hst) as Hsaved.
  destruct (onDOMContentLoaded_fields template) as [Hd Hl].
  rewrite Hsaved in Hd, Hl.
  split; [exact Hd|]. split; [rewrite Hl; apply lookup_insert_eq|].
  split; [exact (proj2 (onDOMContentLoaded_frame template))|].
  unfold active_options.
  rewrite (onDOMContentLoaded_options template cl Hsel), Hsaved.
  split; [rewrite length_app, !length_fmap; reflexivity|].
  rewrite filter_app, active_after_mark.
  assert (E : filter (λ o, dataset_theme o = Some "dark-purple")
                (theme_options template) = []).
  { apply elem_of_nil_inv. intros o Ho.
    apply list_elem_of_filter in Ho as [Hd' Ho].
    rewrite Forall_forall in Hno. exact (Hno o Ho Hd'). }
  rewrite E. reflexivity.
Qed.

(** The blank template, with nothing stored. *)
Lemma first_visit_gets_the_default_witness :
  let p := onDOMContentLoaded Samples.blank in
  data_theme p = Some "dark-purple"
  ∧ length (active_options p) = 1.
Proof.
  destruct (first_visit_gets_the_default Samples.blank [] eq_refl
              (or_introl eq_refl) (Forall_nil_2 _))
    as (Hd & _ & _ & _ & Ha).
  cbv zeta. split; [exact Hd|]. rewrite Ha. reflexivity.
Defined.

Lemma classList_remove_add (c : string) (l : list string) :
  Js.classList_remove c (Js.classList_add c l) = Js.classList_remove c l.
Proof.
  unfold Js.classList_add, Js.classList_remove.
  destruct (Js.classList_contains c l); [reflexivity|].
  rewrite filter_app, filter_cons_False by tauto.
  rewrite filter_nil. apply app_nil_r.
Qed.

Lemma classList_remove_twice (c : string) (l : list string) :
  Js.classList_remove c (Js.classList_remove c l) = Js.classList_remove c l.
Proof.
  unfold Js.classList_remove. induction l as [|x l IH]; [reflexivity|].
  destruct (decide (x ≠ c)).
  - rewrite !filter_cons_True by assumption. now rewrite IH.
  - rewrite filter_cons_False by assumption. exact IH.
Qed.

Lemma mark_rest (id : string) (o : option_el) :
  Js.classList_remove "active" (classList (mark id o))
  = Js.classList_remove "active" (classList o).
Proof.
  unfold mark. cbn [classList]. destruct (decide _).
  - rewrite classList_remove_add. apply classList_remove_twice.
  - apply classList_remove_twice.
Qed.

Lemma mark_mark (a b : string) (o : option_el) :
  mark b (mark a o) = mark b o.
Proof.
  unfold mark at 1. rewrite mark_rest. reflexivity.
Qed.

Lemma classList_add_twice (c : string) (l : list string) :
  Js.classList_add c (Js.classList_add c l) = Js.classList_add c l.
Proof.
  unfold Js.classList_add at 1.
  assert (H : Js.classList_contains c (Js.classList_add c l) = true).
  { apply bool_decide_eq_true. apply classList_add_present. }
  now rewrite H.
Qed.

(** X12.  Of two themes applied in a row the second one counts: the root's
    attribute, the storage, the picker's entries and the overlay's classes
    are as if only the second had been applied; each of the two calls
    leaves its own removal of the overlay's [active] pending.  And applying
    themes adds or drops no picker entry, keeps the entries in place, and
    touches no class of an entry but [active]. *)
Theorem later_theme_replaces_earlier (a b : string) (p : page) :
  let q := applyTheme b (applyTheme a p) in
  data_theme q = data_theme (applyTheme b p)
  ∧ localStorage q = localStorage (applyTheme b p)
  ∧ theme_options q = theme_options (applyTheme b p)
  ∧ theme_selector q = theme_selector p
  ∧ overlay q = overlay (applyTheme b p)
  ∧ overlay_timers q
    = match overlay p with
      | Some _ => S (S (overlay_timers p))
      | None => overlay_timers p
      end
  ∧ length (theme_options q) = length (theme_options p)
  ∧ ∀ i o, theme_options p !! i = Some o →
      ∃ o', theme_options q !! i = Some o'
            ∧ dataset_theme o' = dataset_theme o
            ∧ on_click o' = on_click o
            ∧ Js.classList_remove "active" (classList o')
              = Js.classList_remove "active" (classList o).
Proof.
  cbv zeta. cbn [applyTheme data_theme localStorage theme_options
                 theme_selector overlay overlay_timers].
  assert (Ho : mark b <$> (mark a <$> theme_options p)
               = mark b <$> theme_options p).
  { rewrite <- list_fmap_compose. apply list_fmap_ext.
    intros i o _. apply mark_mark. }
  split; [reflexivity|]. split; [apply insert_insert_eq|].
  split; [exact Ho|]. split; [reflexivity|]. split.
  { destruct (overlay p) as [cl|]; [|reflexivity].
    cbn [fmap option_fmap option_map]. now rewrite classList_add_twice. }
  split; [destruct (overlay p); reflexivity|].
  rewrite Ho. split; [apply length_fmap|].
  intros i o Hi. exists (mark b o).
  split; [rewrite list_lookup_fmap, Hi; reflexivity|].
  split; [reflexivity|]. split; [reflexivity|apply mark_rest].
Qed.

Lemma classList_toggle_flips (c : string) (l : list string) :
  c ∈ Js.classList_toggle c l ↔ c ∉ l.
Proof.
  unfold Js.classList_toggle, Js.classList_contains.
  case_bool_decide as H.
  - split; [|contradiction]. intros Hin.
    now apply classList_remove_absent in Hin.
  - split; [trivial|]. intros _. apply elem_of_app. right.
    now apply list_elem_of_singleton.
Qed.

(** X13.  On a page initialised from a template that has the picker and no
    entries of its own, a click on the [i]-th entry applies the [i]-th
    theme of the catalog: it becomes the root's theme and the stored one,
    the entries marked [active] are those of that theme, which is one
    entry, and the picker's [show] class flips, on if it was off and off if
    it was on. *)
Theorem picking_an_entry_applies_it (template : page) (cl : list string)
    (i : nat) (key : string) :
  theme_selector template = Some cl →
  theme_options template = [] →
  (fst <$> themes) !! i = Some key →
  let p := click_option i (onDOMContentLoaded template) in
  data_theme p = Some key
  ∧ localStorage p !! "theme" = Some key
  ∧ (∀ o, o ∈ theme_options p →
          "active" ∈ classList o ↔ dataset_theme o = Some key)
  ∧ length (active_options p) = 1
  ∧ theme_selector p = Some (Js.classList_toggle "show" cl)
  ∧ ("show" ∈ Js.classList_toggle "show" cl ↔ "show" ∉ cl).
Proof.
  intros Hsel Hnil Hkey p.
  pose proof (onDOMContentLoaded_options template cl Hsel) as Hopts.
  rewrite Hnil in Hopts. cbn [fmap list_fmap app] in Hopts.
  destruct (onDOMContentLoaded_frame template) as [Hfr _].
  set (P := onDOMContentLoaded template) in *.
  assert (Hi : theme_options P !! i
               = Some (new_option (getSavedTheme template) key)).
  { rewrite Hopts, list_lookup_fmap, Hkey. reflexivity. }
  assert (Hp : p = toggleThemeSelector (applyTheme key P)).
  { subst p. unfold click_option. rewrite Hi. reflexivity. }
  rewrite Hp.
  cbn [toggleThemeSelector applyTheme data_theme localStorage theme_options
       theme_selector].
  split; [reflexivity|]. split; [apply lookup_insert_eq|]. split.
  { intros o Ho. apply list_elem_of_fmap in Ho as (o0 & -> & _).
    rewrite mark_dataset. apply mark_active. }
  split.
  { unfold active_options.
    cbn [toggleThemeSelector applyTheme theme_options].
    rewrite active_after_mark, length_fmap, Hopts, count_new_options.
    rewrite (count_key key _ catalog_keys_distinct).
    rewrite bool_decide_eq_true_2; [reflexivity|].
    now apply list_elem_of_lookup_2 in Hkey. }
  split; [rewrite Hfr, Hsel; reflexivity|apply classList_toggle_flips].
Qed.

(** A click on the second entry, on the blank template: [ocean]. *)
Lemma picking_an_entry_applies_it_witness :
  let p := click_option 1 (onDOMContentLoaded Samples.blank) in
  data_theme p = Some "ocean"
  ∧ length (active_options p) = 1
  ∧ theme_selector p = Some ["show"].
Proof.
  destruct (picking_an_entry_applies_it Samples.blank [] 1 "ocean"
              eq_refl eq_refl eq_refl) as (Hd & _ & _ & Ha & Hs & _).
  cbv zeta. split; [exact Hd|]. split; [exact Ha|exact Hs].
Defined.

(** X14.  What [applyTheme] stores comes back at the next load, whatever the
    name, in the catalog or not, as long as it is not empty; the empty
    name does not come back: the load falls back to [dark-purple] and
    stores that in its place. *)
Theorem stored_theme_survives_reload (id : string) (p template : page) :
  let q := reload template (applyTheme id p) in
  (Js.truthy id = true →
   getSavedTheme (reopened template (applyTheme id p)) = id
   ∧ data_theme q = Some id
   ∧ localStorage q !! "theme" = Some id)
  ∧ (id = "" →
     data_theme q = Some "dark-purple"
     ∧ localStorage q !! "theme" = Some "dark-purple").
Proof.
  cbv zeta. unfold reload.
  destruct (onDOMContentLoaded_fields (reopened template (applyTheme id p)))
    as [Hd Hl].
  assert (Hst : localStorage (reopened template (applyTheme id p)) !! "theme"
                = Some id) by apply lookup_insert_eq.
  split.
  - intros Ht. pose proof (getSavedTheme_stored id _ Hst Ht) as Hs.
    rewrite Hs in Hd, Hl.
    split; [exact Hs|]. split; [exact Hd|]. rewrite Hl.
    apply lookup_insert_eq.
  - intros ->.
    assert (Hs : getSavedTheme (reopened template (applyTheme "" p))
                 = "dark-purple")
      by (apply getSavedTheme_default; now right).
    rewrite Hs in Hd, Hl. split; [exact Hd|]. rewrite Hl.
    apply lookup_insert_eq.
Qed.

(** A name that is not in the catalog, and the empty name. *)
Lemma stored_theme_survives_reload_witness :
  data_theme (reload Samples.blank (applyTheme "neon" Samples.blank))
  = Some "neon"
  ∧ data_theme (reload Samples.blank (applyTheme "" Samples.blank))
    = Some "dark-purple".
Proof.
  split.
  - exact (proj1 (proj2 (proj1 (stored_theme_survives_reload "neon"
                                  Samples.blank Samples.blank) eq_refl))).
  - exact (proj1 (proj2 (stored_theme_survives_reload ""
                           Samples.blank Samples.blank) eq_refl)).
Defined.

End ThemeVisits.
